(** * CheckLogs Node SDK: retry queue, child loggers and analytics

    A shallow embedding of [lib/client], [lib/logger] and [lib/stats.mjs],
    and the properties of the retry queue, of [child] and of the analytics
    functions.

    Modelling conventions.
    - JavaScript objects that are shared by reference (context objects) live
      in an explicit heap; record-like arguments that the code only reads
      ([logData], option bags) are Rocq records whose optional keys are
      [option]s ([None] is an absent key, i.e. [undefined]).
    - An [async] method is cut at its [await]: the part before the request
      and the part that runs once the request has settled are separate
      functions; the outcome of the HTTP request is an input.
    - [setTimeout] appends to a list of pending timers; a scheduler step
      fires one of them.
    - Counts are integers. The arithmetic of the analytics functions is
      given twice. [Stats64] has it as JavaScript evaluates it, in IEEE 754
      binary64 with every operation rounded to the nearest double, ties to
      even; what the functions return is stated of [Stats64]. [Stats] reads
      the same expressions in exact rational arithmetic, and serves the
      ranges and the directions of the results. *)

From stdpp Require Import gmap strings list fin_maps pretty sorting.
From Stdlib Require Import ZArith QArith Qround Qpower Permutation Sorted Lia Lqa.
From Stdlib Require SpecFloat.

Local Open Scope Z_scope.

(* ===================================================================== *)
(** * JavaScript values and the object heap *)
(* ===================================================================== *)

Module Js.

Definition loc := positive.

Inductive val :=
| VUndefined
| VNull
| VBool (b : bool)
| VNum (n : Z)
| VStr (s : string)
| VRef (l : loc).

(** A plain object: own enumerable string keys. *)
Abbreviation obj := (gmap string val).
Abbreviation heap := (gmap loc obj).

(** [{ ...a, ...b }]: keys of [b] win. *)
Definition spread2 (a b : obj) : obj := b ∪ a.

(** The own properties copied by [...x]; spreading [undefined], [null] or
    a dangling reference copies nothing. *)
Definition props (h : heap) (x : option loc) : obj :=
  match x with
  | Some l => default ∅ (h !! l)
  | None => ∅
  end.

(** An object literal evaluates to a reference that is not yet in use. *)
Definition alloc (h : heap) (o : obj) : loc * heap :=
  let l := fresh (dom h) in (l, <[l := o]> h).

(** [x.k = v] on the object at [l]. *)
Definition setprop (h : heap) (l : loc) (k : string) (v : val) : heap :=
  match h !! l with
  | Some o => <[l := <[k := v]> o]> h
  | None => h
  end.

(** [delete x.k]. *)
Definition delprop (h : heap) (l : loc) (k : string) : heap :=
  match h !! l with
  | Some o => <[l := delete k o]> h
  | None => h
  end.

(** [x.k], reading through the heap. *)
Definition getprop (h : heap) (l : loc) (k : string) : option val :=
  h !! l ≫= (.!! k).

(** [v.k1.k2...]: follow a path of keys from a value. *)
Fixpoint getpath (h : heap) (v : val) (path : list string) : option val :=
  match path with
  | [] => Some v
  | k :: rest =>
      match v with
      | VRef l => getprop h l k ≫= (λ v', getpath h v' rest)
      | _ => None
      end
  end.

(** [s || d] on an optional string: the empty string is falsy. *)
Definition str_or (s : option string) (d : option string) : option string :=
  match s with
  | Some x => if decide (x = "") then d else Some x
  | None => d
  end.

(** [n || d] on an optional number: [0] is falsy. *)
Definition num_or (n : option Z) (d : option Z) : option Z :=
  match n with
  | Some x => if decide (x = 0) then d else Some x
  | None => d
  end.

(** [s && p(s)] used as a condition. *)
Definition truthy_and (s : option string) (p : string → bool) : bool :=
  match s with
  | Some x => p x
  | None => false
  end.

(** [b || false]. *)
Definition bool_or_false (b : option bool) : bool := default false b.

(** [b !== false]. *)
Definition not_false (b : option bool) : bool := default true b.

(** What the embedding takes from the platform: [Date.prototype.toISOString],
    [String.prototype.toUpperCase], [os.hostname()] and the fields of
    [process] that the logger reads. *)
Record Runtime := {
  toISOString : Z → string;
  toUpperCase : string → string;
  os_hostname : string;
  process_pid : Z;
  process_version : string;
  process_platform : string
}.

End Js.

Import Js.

(* ===================================================================== *)
(** * JavaScript numbers *)
(* ===================================================================== *)

(** A JavaScript number is an IEEE 754 binary64 value: 53 bits of
    precision, infinities at exponent 1024. [SpecFloat] gives the values
    ([S754_finite s m e] is [± m * 2^e]) and the operations, each rounded to
    the nearest value, ties to even. *)
Module Number.
Export SpecFloat.

Definition number : Type := spec_float.

(** The number written as the integer literal [z]: the nearest double,
    and [z] itself when [|z| <= 2^53]. *)
Definition of_Z (z : Z) : number := binary_normalize 53 1024 z 0 false.

(** [x + y], [x - y], [x * y], [x / y] and [x < y]; [x > y] is [ltb y x]. *)
Definition add : number → number → number := SFadd 53 1024.
Definition sub : number → number → number := SFsub 53 1024.
Definition mul : number → number → number := SFmul 53 1024.
Definition div : number → number → number := SFdiv 53 1024.
Definition ltb : number → number → bool := SFltb.

(** [Math.abs]. *)
Definition Math_abs : number → number := SFabs.

(** [Math.round]: [x] itself when it is an integer, a zero, an infinity
    or [NaN]; otherwise the integer nearest to [x], the greater one when
    [x] is half-way between two, and a zero of the sign of [x] when that
    integer is 0. For [e < 0] the value [± m * 2^e] plus one half is
    [(± m + 2^(-e-1)) / 2^(-e)], whose floor is the shift below. *)
Definition Math_round (x : number) : number :=
  match x with
  | S754_finite s m e =>
      if 0 <=? e then x
      else
        let n := Z.shiftr (cond_Zopp s (Z.pos m) + 2 ^ (- e - 1)) (- e) in
        if n =? 0 then S754_zero s else of_Z n
  | _ => x
  end.

(** The number written as the decimal literal [n * 10^-k], for [n] and
    [10^k] below [2^53]: both are doubles and the quotient is rounded
    once. [decimal 1437 2] is the literal [14.37]. *)
Definition decimal (n : Z) (k : Z) : number := div (of_Z n) (of_Z (10 ^ k)).

End Number.

(* ===================================================================== *)
(** * [lib/errors] *)
(* ===================================================================== *)

Inductive CheckLogsError :=
| ValidationError (msg : string)
| ApiError (msg : string) (statusCode : Z) (errorCode : option string)
| NetworkError (msg : string).

Definition error_message (e : CheckLogsError) : string :=
  match e with
  | ValidationError m => m
  | ApiError m _ _ => m
  | NetworkError m => m
  end.

Inductive result (A : Type) :=
| Return (a : A)
| Throw (e : CheckLogsError).
Arguments Return {A} a.
Arguments Throw {A} e.

(* ===================================================================== *)
(** * [lib/client]: [CheckLogsClient] *)
(* ===================================================================== *)

(** The argument of [log]. [level], [context], [source] and [user_id] are
    optional keys. *)
Record LogData := {
  message : string;
  level : option string;
  context : option loc;
  source : option string;
  user_id : option Z
}.

(** How the promise returned by [httpClient.post] settles. A rejection is
    an axios error with a [response], with only a [request], or with
    neither. *)
Inductive AxiosOutcome :=
| Resolved (data : val)
| RejectedResponse (status : Z) (data_error_message data_message : option string)
                   (data_error_code : option string)
| RejectedRequest
| RejectedSetup.

(** The body passed to [httpClient.post]; [context] is the object that is
    serialised. *)
Record Request := {
  req_message : string;
  req_level : string;
  req_context : option loc;
  req_source : option string;
  req_user_id : option Z
}.

(** The rest of [lib/errors]: the [code] every error carries, the tests
    [ApiError] offers on its status and code, and [createErrorFromAxios].
    The tests exist on [ApiError] only: [None] is the call on another
    class of error, which has no such method. *)
Module Errors.

Definition code (e : CheckLogsError) : option string :=
  match e with
  | ValidationError _ => Some "VALIDATION_ERROR"
  | ApiError _ _ errorCode => errorCode
  | NetworkError _ => Some "NETWORK_ERROR"
  end.

Definition isAuthError (e : CheckLogsError) : option bool :=
  match e with
  | ApiError _ statusCode _ =>
      Some (bool_decide (statusCode = 401) || bool_decide (code e = Some "INVALID_API_KEY"))
  | _ => None
  end.

Definition isRateLimitError (e : CheckLogsError) : option bool :=
  match e with
  | ApiError _ statusCode _ =>
      Some (bool_decide (statusCode = 429)
            || bool_decide (code e = Some "RATE_LIMIT_EXCEEDED"))
  | _ => None
  end.

Definition isServerError (e : CheckLogsError) : option bool :=
  match e with
  | ApiError _ statusCode _ => Some ((500 <=? statusCode) && (statusCode <? 600))
  | _ => None
  end.

Definition isClientError (e : CheckLogsError) : option bool :=
  match e with
  | ApiError _ statusCode _ => Some ((400 <=? statusCode) && (statusCode <? 500))
  | _ => None
  end.

(** [createErrorFromAxios], applied to a rejection. *)
Definition createErrorFromAxios (axiosError : AxiosOutcome) : CheckLogsError :=
  match axiosError with
  | RejectedResponse status em m c =>
      let message := default "API request failed" (str_or em (str_or m None)) in
      let errorCode := str_or c None in
      ApiError message status errorCode
  | RejectedRequest => NetworkError "Network request failed"
  | _ => NetworkError "Request setup failed"
  end.

End Errors.

Module Client.

Definition levels : list string := ["info"; "warning"; "error"; "critical"; "debug"].

(** [_validateLogData]: [None] when it returns, [Some e] when it throws [e].
    The [typeof] tests hold by typing and only the remaining tests are
    left. *)
Definition _validateLogData (validatePayload : bool) (logData : LogData)
  : option CheckLogsError :=
  if negb validatePayload then None
  else if decide (message logData = "") then
    Some (ValidationError "message is required and must be a string")
  else if decide (1024 < Z.of_nat (String.length (message logData))) then
    Some (ValidationError "message must be 1024 characters or less")
  else if truthy_and (str_or (level logData) None)
                     (λ l, negb (bool_decide (l ∈ levels))) then
    Some (ValidationError "level must be one of: info, warning, error, critical, debug")
  else if truthy_and (str_or (source logData) None)
                     (λ s, bool_decide (100 < Z.of_nat (String.length s))) then
    Some (ValidationError "source must be 100 characters or less")
  else None.

(** [_handleError]: always throws; this is the error thrown. *)
Definition _handleError (o : AxiosOutcome) : CheckLogsError :=
  match o with
  | RejectedResponse status em m code =>
      ApiError (default "API request failed" (str_or em (str_or m None))) status
               (str_or code None)
  | RejectedRequest => NetworkError "Network request failed"
  | _ => NetworkError "Request setup failed"
  end.

(** The request body built by [log]. *)
Definition body (logData : LogData) : Request :=
  {| req_message := message logData;
     req_level := default "info" (str_or (level logData) None);
     req_context := context logData;
     req_source := str_or (source logData) None;
     req_user_id := num_or (user_id logData) None |}.

(** The request [log] posts, if validation lets it get that far. *)
Definition posts (validatePayload : bool) (logData : LogData) : option Request :=
  match _validateLogData validatePayload logData with
  | Some _ => None
  | None => Some (body logData)
  end.

(** [log]: a [ValidationError] is rethrown as it is, any other failure
    goes through [_handleError]. [http] is how the request settles if
    one is made. *)
Definition log (validatePayload : bool) (logData : LogData) (http : AxiosOutcome)
  : result val :=
  match _validateLogData validatePayload logData with
  | Some e => Throw e
  | None =>
      match http with
      | Resolved data => Return data
      | rejected => Throw (_handleError rejected)
      end
  end.

(** ** The convenience methods

    [info(message, context = null, options = {})] and its four siblings
    build [{ message, level, context, ...options }] and pass it to
    [this.log]. [options] may carry any key of the record. *)
Record LogOverrides := {
  with_message : option string;
  with_level : option string;
  with_context : option loc;
  with_source : option string;
  with_user_id : option Z
}.

(** [{}]. *)
Definition no_overrides : LogOverrides :=
  {| with_message := None; with_level := None; with_context := None;
     with_source := None; with_user_id := None |}.

(** [{ message, level: lvl, context, ...options }]. *)
Definition leveled (lvl : string) (msg : string) (ctx : option loc) (options : LogOverrides)
  : LogData :=
  {| message := default msg (with_message options);
     level := Some (default lvl (with_level options));
     context := with_context options ∪ ctx;
     source := with_source options;
     user_id := with_user_id options |}.

Definition info := leveled "info".
Definition warning := leveled "warning".
Definition error := leveled "error".
Definition critical := leveled "critical".
Definition debug := leveled "debug".

(** ** [getLogs] *)

Definition baseURL : string := "http://localhost/checklogs/webiste/api/logs.php".

Record GetLogsOptions := {
  limit : option Z;
  offset : option Z;
  only_level : option string;
  since : option string;
  until : option string
}.

(** The [URLSearchParams] built by [getLogs], in the order of the
    [append]s. [toString] is [Number.prototype.toString], taken from the
    platform: it writes an integer in decimal digits while it is below
    [10^21] in absolute value and in exponent notation from there on. *)
Definition getLogs_params (toString : Z → string) (options : GetLogsOptions)
  : list (string * string) :=
  match limit options with
  | Some l => [("limit", toString (Z.min l 1000))]
  | None => []
  end
  ++ match offset options with
     | Some o => [("offset", toString (Z.max o 0))]
     | None => []
     end
  ++ match str_or (only_level options) None with
     | Some l => [("level", l)]
     | None => []
     end
  ++ match str_or (since options) None with
     | Some t => [("since", t)]
     | None => []
     end
  ++ match str_or (until options) None with
     | Some t => [("until", t)]
     | None => []
     end.

(** A URL: the part before [?] and the parameters after it, none when
    there is no [?]. *)
Record Url := {
  url_base : string;
  url_query : list (string * string)
}.

(** The URL [getLogs] requests: [params.toString()] is empty exactly when
    no parameter was appended. *)
Definition getLogs_url (toString : Z → string) (options : GetLogsOptions) : Url :=
  {| url_base := baseURL; url_query := getLogs_params toString options |}.

(** [getLogs]: the URL requested, and what the call resolves to or throws
    when the request settles as [http]. *)
Definition getLogs (toString : Z → string) (options : GetLogsOptions)
    (http : AxiosOutcome) : Url * result val :=
  (getLogs_url toString options,
   match http with
   | Resolved data => Return data
   | rejected => Throw (_handleError rejected)
   end).

End Client.

(* ===================================================================== *)
(** * [lib/logger]: [CheckLogsLogger] *)
(* ===================================================================== *)

(** The [options] argument of the constructor (and [additionalOptions] of
    [child]). *)
Record LoggerOptions := {
  opt_timeout : option Z;
  opt_validatePayload : option bool;
  opt_source : option string;
  opt_user_id : option Z;
  opt_defaultContext : option loc;
  opt_silent : option bool;
  opt_consoleOutput : option bool;
  opt_enabledLevels : option (list string);
  opt_includeTimestamp : option bool;
  opt_includeHostname : option bool
}.

(** [{}]. *)
Definition no_options : LoggerOptions :=
  {| opt_timeout := None; opt_validatePayload := None; opt_source := None;
     opt_user_id := None; opt_defaultContext := None; opt_silent := None;
     opt_consoleOutput := None; opt_enabledLevels := None;
     opt_includeTimestamp := None; opt_includeHostname := None |}.

(** [{ ...a, ...b }] on option bags: a key present in [b] wins. *)
Definition spread_options (a b : LoggerOptions) : LoggerOptions :=
  {| opt_timeout := opt_timeout b ∪ opt_timeout a;
     opt_validatePayload := opt_validatePayload b ∪ opt_validatePayload a;
     opt_source := opt_source b ∪ opt_source a;
     opt_user_id := opt_user_id b ∪ opt_user_id a;
     opt_defaultContext := opt_defaultContext b ∪ opt_defaultContext a;
     opt_silent := opt_silent b ∪ opt_silent a;
     opt_consoleOutput := opt_consoleOutput b ∪ opt_consoleOutput a;
     opt_enabledLevels := opt_enabledLevels b ∪ opt_enabledLevels a;
     opt_includeTimestamp := opt_includeTimestamp b ∪ opt_includeTimestamp a;
     opt_includeHostname := opt_includeHostname b ∪ opt_includeHostname a |}.

(** An entry of [retryQueue]. *)
Record RetryItem := {
  logData : LogData;
  retryCount : nat;
  addedAt : Z
}.

(** The fields of a logger instance (those of the client it extends
    first). [defaultContext] is a reference to a context object. *)
Record Logger := {
  apiKey : string;
  timeout : Z;
  validatePayload : bool;
  defaultSource : option string;
  defaultUserId : option Z;
  defaultContext : loc;
  silent : bool;
  consoleOutput : bool;
  enabledLevels : list string;
  includeTimestamp : bool;
  includeHostname : bool;
  retryQueue : list RetryItem;
  maxRetries : nat;
  retryDelay : Z;
  hostname : string
}.

(** A pending [setTimeout(() => this.log(logData, retryCount + 1), delay)]:
    the delay asked for, the time at which it is due, and the arguments of
    the call it makes. *)
Record Timer := {
  delay : Z;
  due : Z;
  timer_logData : LogData;
  timer_retryCount : nat
}.

Inductive ConsoleMethod := console_error | console_warn | console_debug | console_log.

Record ConsoleCall := {
  method : ConsoleMethod;
  text : string;
  arg : val
}.

(** What [log] resolves to. *)
Inductive LogReturn :=
| Skipped (reason : string)
| Response (data : val).

(** A call of [log] suspended at [await super.log(enhancedData)]. *)
Record Pending := {
  pending_logData : LogData;
  pending_retryCount : nat;
  pending_enhanced : LogData
}.

(** One logger and everything its [log] reads or writes. *)
Record World := {
  this : Logger;
  store : heap;
  clock : Z;
  timers : list Timer;
  console : list ConsoleCall;
  posted : list Request;
  inflight : list Pending
}.

Module Logger.

Definition set_retryQueue (q : list RetryItem) (lg : Logger) : Logger :=
  {| apiKey := apiKey lg; timeout := timeout lg; validatePayload := validatePayload lg;
     defaultSource := defaultSource lg; defaultUserId := defaultUserId lg;
     defaultContext := defaultContext lg; silent := silent lg;
     consoleOutput := consoleOutput lg; enabledLevels := enabledLevels lg;
     includeTimestamp := includeTimestamp lg; includeHostname := includeHostname lg;
     retryQueue := q; maxRetries := maxRetries lg; retryDelay := retryDelay lg;
     hostname := hostname lg |}.

Definition set_this (lg : Logger) (w : World) : World :=
  {| this := lg; store := store w; clock := clock w; timers := timers w;
     console := console w; posted := posted w; inflight := inflight w |}.

Definition set_store (h : heap) (w : World) : World :=
  {| this := this w; store := h; clock := clock w; timers := timers w;
     console := console w; posted := posted w; inflight := inflight w |}.

Definition set_clock (t : Z) (w : World) : World :=
  {| this := this w; store := store w; clock := t; timers := timers w;
     console := console w; posted := posted w; inflight := inflight w |}.

Definition set_timers (ts : list Timer) (w : World) : World :=
  {| this := this w; store := store w; clock := clock w; timers := ts;
     console := console w; posted := posted w; inflight := inflight w |}.

Definition set_console (c : list ConsoleCall) (w : World) : World :=
  {| this := this w; store := store w; clock := clock w; timers := timers w;
     console := c; posted := posted w; inflight := inflight w |}.

Definition set_posted (p : list Request) (w : World) : World :=
  {| this := this w; store := store w; clock := clock w; timers := timers w;
     console := console w; posted := p; inflight := inflight w |}.

Definition set_inflight (p : list Pending) (w : World) : World :=
  {| this := this w; store := store w; clock := clock w; timers := timers w;
     console := console w; posted := posted w; inflight := p |}.

(** [_getHostname]: [os.hostname()] under Node. *)
Definition _getHostname (rt : Runtime) : string := os_hostname rt.

(** The constructor. It throws on an empty API key (the client's check);
    otherwise it returns the instance, and the heap in which the [{}]
    that stands in for a missing [defaultContext] has been allocated. *)
Definition constructor (rt : Runtime) (h : heap) (key : string) (options : LoggerOptions)
  : result (Logger * heap) :=
  if decide (key = "") then
    Throw (ValidationError "API key is required and must be a string")
  else
    let '(ctx, h') :=
      match opt_defaultContext options with
      | Some l => (l, h)
      | None => alloc h ∅
      end in
    Return
      ({| apiKey := key;
          timeout := default 5000 (num_or (opt_timeout options) None);
          validatePayload := not_false (opt_validatePayload options);
          defaultSource := str_or (opt_source options) None;
          defaultUserId := num_or (opt_user_id options) None;
          defaultContext := ctx;
          silent := bool_or_false (opt_silent options);
          consoleOutput := not_false (opt_consoleOutput options);
          enabledLevels := default Client.levels (opt_enabledLevels options);
          includeTimestamp := not_false (opt_includeTimestamp options);
          includeHostname := not_false (opt_includeHostname options);
          retryQueue := [];
          maxRetries := 3;
          retryDelay := 1000;
          hostname := _getHostname rt |}, h').

(** [_buildContext]: a new object with the default context, the user's
    context over it, and the metadata keys. [now] is the time read by
    [new Date()]. *)
Definition _buildContext (rt : Runtime) (lg : Logger) (h : heap) (now : Z)
    (userContext : option loc) : loc * heap :=
  let '(context, h0) :=
    alloc h (spread2 (props h (Some (defaultContext lg))) (props h userContext)) in
  let h1 :=
    if includeTimestamp lg
    then setprop h0 context "_timestamp" (VStr (toISOString rt now)) else h0 in
  let h2 :=
    if includeHostname lg
    then setprop h1 context "_hostname" (VStr (hostname lg)) else h1 in
  let '(proc, h3) :=
    alloc h2 (<["pid" := VNum (process_pid rt)]>
              (<["version" := VStr (process_version rt)]>
               (<["platform" := VStr (process_platform rt)]> ∅))) in
  (context, setprop h3 context "_process" (VRef proc)).

(** [_consoleLog]: the calls made on [console]. *)
Definition _consoleLog (rt : Runtime) (lg : Logger) (now : Z)
    (lvl msg : string) (ctx : loc) : list ConsoleCall :=
  if negb (consoleOutput lg) || silent lg then []
  else
    let logMessage :=
      "[" +:+ toISOString rt now +:+ "] [" +:+ toUpperCase rt lvl +:+ "] " +:+ msg in
    let m :=
      if decide (lvl = "error") then console_error
      else if decide (lvl = "critical") then console_error
      else if decide (lvl = "warning") then console_warn
      else if decide (lvl = "debug") then console_debug
      else console_log in
    [ {| method := m; text := logMessage; arg := VRef ctx |} ].

(** The identity test used by the queue:
    [item.logData.message === logData.message &&
     item.logData.level === logData.level]. *)
Definition same_key (a b : LogData) : bool :=
  bool_decide (message a = message b) && bool_decide (level a = level b).

(** [_addToRetryQueue]. [now] is [Date.now()]. *)
Definition _addToRetryQueue (lg : Logger) (now : Z) (d : LogData) (rc : nat) : Logger :=
  match List.find (λ item, same_key (logData item) d) (retryQueue lg) with
  | Some existing => lg
  | None =>
      set_retryQueue
        (retryQueue lg ++ [ {| logData := d; retryCount := rc + 1; addedAt := now |} ]) lg
  end.

(** [_removeFromRetryQueue]. *)
Definition _removeFromRetryQueue (lg : Logger) (d : LogData) : Logger :=
  set_retryQueue
    (List.filter (λ item, negb (same_key (logData item) d)) (retryQueue lg)) lg.

(** [clearRetryQueue]. *)
Definition clearRetryQueue (lg : Logger) : Logger := set_retryQueue [] lg.

(** [getRetryQueueStatus]. *)
Definition getRetryQueueStatus (rt : Runtime) (lg : Logger)
  : nat * list (string * option string * nat * string) :=
  (length (retryQueue lg),
   map (λ item, (message (logData item), level (logData item), retryCount item,
                 toISOString rt (addedAt item))) (retryQueue lg)).

(** ** [log]

    [log] is cut at its [await]. [log_begin] runs up to the request:
    the level gate, [enhancedData], the console line and, when validation
    passes, the request itself. [log_settle] is the rest of the [try]
    block, run once [super.log] has returned or thrown. *)

Definition level_or_info (d : LogData) : string :=
  default "info" (str_or (level d) None).

Definition enhance (lg : Logger) (d : LogData) (ctx : loc) : LogData :=
  {| message := message d;
     level := Some (level_or_info d);
     context := Some ctx;
     source := str_or (source d) (defaultSource lg);
     user_id := num_or (user_id d) (defaultUserId lg) |}.

(** [None]: the level is not enabled and [log] returns at once.
    [Some (w', enhancedData)]: the call is now awaiting [super.log]. *)
Definition log_begin (rt : Runtime) (w : World) (d : LogData)
  : option (World * LogData) :=
  let lg := this w in
  if negb (bool_decide (level_or_info d ∈ enabledLevels lg)) then None
  else
    let '(ctx, h) := _buildContext rt lg (store w) (clock w) (context d) in
    let enhancedData := enhance lg d ctx in
    let out := _consoleLog rt lg (clock w) (level_or_info d) (message d) ctx in
    let sent :=
      match Client.posts (validatePayload lg) enhancedData with
      | Some r => [r]
      | None => []
      end in
    Some (set_posted (posted w ++ sent) (set_console (console w ++ out) (set_store h w)),
          enhancedData).

(** The timer set by the [catch] block. *)
Definition retry_timer (lg : Logger) (now : Z) (d : LogData) (rc : nat) : Timer :=
  let ms := retryDelay lg * 2 ^ Z.of_nat rc in
  {| delay := ms; due := now + ms; timer_logData := d; timer_retryCount := rc + 1 |}.

Definition log_settle (w : World) (d : LogData) (rc : nat) (r : result val)
  : World * result LogReturn :=
  match r with
  | Return res =>
      let w' :=
        if bool_decide (0 < rc)%nat
        then set_this (_removeFromRetryQueue (this w) d) w
        else w in
      (w', Return (Response res))
  | Throw error =>
      let w1 :=
        if bool_decide (rc < maxRetries (this w))%nat
        then
          set_timers (timers w ++ [retry_timer (this w) (clock w) d rc])
            (set_this (_addToRetryQueue (this w) (clock w) d rc) w)
        else w in
      let w2 :=
        if negb (silent (this w1))
        then
          set_console
            (console w1 ++
             [ {| method := console_error;
                  text := "Failed to send log to CheckLogs (attempt "
                          +:+ pretty (rc + 1)%nat +:+ "):";
                  arg := VStr (error_message error) |} ]) w1
        else w1 in
      (w2, Throw error)
  end.

(** [log(logData, retryCount)] run to completion with nothing interleaved;
    [http] is how the request settles if one is made. *)
Definition log (rt : Runtime) (w : World) (d : LogData) (rc : nat) (http : AxiosOutcome)
  : World * result LogReturn :=
  match log_begin rt w d with
  | None => (w, Return (Skipped "level_disabled"))
  | Some (w1, enhancedData) =>
      log_settle w1 d rc (Client.log (validatePayload (this w1)) enhancedData http)
  end.

(** ** The scheduler *)

(** The pending timer that fires next: the earliest due, the oldest among
    those due together. *)
Fixpoint next_timer (ts : list Timer) : option (Timer * list Timer) :=
  match ts with
  | [] => None
  | t :: rest =>
      match next_timer rest with
      | Some (t', rest') =>
          if bool_decide (due t' < due t) then Some (t', t :: rest') else Some (t, rest)
      | None => Some (t, [])
      end
  end.

(** Let time pass until the next timer is due and run its callback,
    [this.log(logData, retryCount + 1).catch(() => {})]. *)
Definition fire_next (rt : Runtime) (w : World) (http : AxiosOutcome) : option World :=
  match next_timer (timers w) with
  | None => None
  | Some (t, rest) =>
      let w1 := set_clock (Z.max (clock w) (due t)) (set_timers rest w) in
      Some (fst (log rt w1 (timer_logData t) (timer_retryCount t) http))
  end.

(** Fire timers until none is left, every request settling as [http k]
    for the [k]-th timer fired. *)
Fixpoint drain (rt : Runtime) (fuel : nat) (http : nat → AxiosOutcome) (k : nat) (w : World)
  : World :=
  match fuel with
  | O => w
  | S fuel' =>
      match fire_next rt w (http k) with
      | Some w' => drain rt fuel' http (S k) w'
      | None => w
      end
  end.

(** ** The switches *)

Definition set_output (s c : bool) (ls : list string) (lg : Logger) : Logger :=
  {| apiKey := apiKey lg; timeout := timeout lg; validatePayload := validatePayload lg;
     defaultSource := defaultSource lg; defaultUserId := defaultUserId lg;
     defaultContext := defaultContext lg; silent := s;
     consoleOutput := c; enabledLevels := ls;
     includeTimestamp := includeTimestamp lg; includeHostname := includeHostname lg;
     retryQueue := retryQueue lg; maxRetries := maxRetries lg;
     retryDelay := retryDelay lg; hostname := hostname lg |}.

Definition setEnabledLevels (levels : list string) (lg : Logger) : Logger :=
  set_output (silent lg) (consoleOutput lg) levels lg.
Definition enableConsole (lg : Logger) : Logger :=
  set_output (silent lg) true (enabledLevels lg) lg.
Definition disableConsole (lg : Logger) : Logger :=
  set_output (silent lg) false (enabledLevels lg) lg.
Definition enableSilent (lg : Logger) : Logger :=
  set_output true false (enabledLevels lg) lg.
Definition disableSilent (lg : Logger) : Logger :=
  set_output false (consoleOutput lg) (enabledLevels lg) lg.

(** ** Interleavings

    What can happen to a logger between two observations: a caller (or a
    timer that is due) starts a [log], a suspended [log] resumes with the
    outcome of its request, the queue is cleared, a switch is flipped,
    time passes. *)
Inductive step (rt : Runtime) : World → World → Prop :=
| step_call w d rc w' e :
    log_begin rt w d = Some (w', e) →
    step rt w (set_inflight
                 (inflight w' ++
                  [{| pending_logData := d; pending_retryCount := rc;
                      pending_enhanced := e |}]) w')
| step_skip w d :
    log_begin rt w d = None →
    step rt w w
| step_resume w p before after http :
    inflight w = before ++ p :: after →
    step rt w
      (fst (log_settle (set_inflight (before ++ after) w)
              (pending_logData p) (pending_retryCount p)
              (Client.log (validatePayload (this w)) (pending_enhanced p) http)))
| step_timer w t before after w' e :
    timers w = before ++ t :: after →
    due t ≤ clock w →
    log_begin rt (set_timers (before ++ after) w) (timer_logData t) = Some (w', e) →
    step rt w (set_inflight
                 (inflight w' ++
                  [{| pending_logData := timer_logData t;
                      pending_retryCount := timer_retryCount t;
                      pending_enhanced := e |}]) w')
| step_timer_skip w t before after :
    timers w = before ++ t :: after →
    due t ≤ clock w →
    log_begin rt (set_timers (before ++ after) w) (timer_logData t) = None →
    step rt w (set_timers (before ++ after) w)
| step_clear w :
    step rt w (set_this (clearRetryQueue (this w)) w)
| step_switch w s c ls :
    step rt w (set_this (set_output s c ls (this w)) w)
| step_tick w t :
    clock w ≤ t →
    step rt w (set_clock t w).

Inductive reachable (rt : Runtime) (w0 : World) : World → Prop :=
| reachable_refl : reachable rt w0 w0
| reachable_step w w' : reachable rt w0 w → step rt w w' → reachable rt w0 w'.

(** A logger just constructed, nothing scheduled or printed yet. *)
Definition fresh_world (lg : Logger) (h : heap) (now : Z) : World :=
  {| this := lg; store := h; clock := now; timers := []; console := [];
     posted := []; inflight := [] |}.

(** ** [child] *)

Definition child (rt : Runtime) (h : heap) (lg : Logger)
    (additionalContext : option loc) (additionalOptions : LoggerOptions)
  : result (Logger * heap) :=
  let '(mergedContext, h') :=
    alloc h (spread2 (props h (Some (defaultContext lg))) (props h additionalContext)) in
  let mergedOptions :=
    spread_options
      {| opt_timeout := None;
         opt_validatePayload := None;
         opt_source := defaultSource lg;
         opt_user_id := defaultUserId lg;
         opt_defaultContext := Some mergedContext;
         opt_silent := Some (silent lg);
         opt_consoleOutput := Some (consoleOutput lg);
         opt_enabledLevels := Some (enabledLevels lg);
         opt_includeTimestamp := Some (includeTimestamp lg);
         opt_includeHostname := Some (includeHostname lg) |}
      additionalOptions in
  constructor rt h' (apiKey lg) mergedOptions.

(** ** The inherited convenience methods

    [info], [warning], [error], [critical] and [debug] are the client's;
    on a logger their [this.log(...)] is the logger's [log], called
    without a retry count. *)
Definition leveled (rt : Runtime) (w : World) (lvl msg : string) (ctx : option loc)
    (options : Client.LogOverrides) (http : AxiosOutcome) : World * result LogReturn :=
  log rt w (Client.leveled lvl msg ctx options) 0 http.

Definition info rt w := leveled rt w "info".
Definition warning rt w := leveled rt w "warning".
Definition error rt w := leveled rt w "error".
Definition critical rt w := leveled rt w "critical".
Definition debug rt w := leveled rt w "debug".

(** ** [time]

    [time] reads the clock, logs the start record without waiting for it
    (its failure is swallowed) and returns the function that ends the
    timer; [time_end] is that function, given the start time it closed
    over. *)
Definition timer_record (h : heap) (suffix : string) (label msg : string) (ctx : option loc)
    (lvl : string) (extra : obj) : LogData * heap :=
  let '(c, h') := alloc h (spread2 (props h ctx) extra) in
  ({| message := msg +:+ suffix; level := Some lvl; context := Some c;
      source := None; user_id := None |}, h').

Definition time (rt : Runtime) (w : World) (label msg : string) (ctx : option loc)
    (lvl : string) (http : AxiosOutcome) : World * Z :=
  let startTime := clock w in
  let '(d, h) :=
    timer_record (store w) " [TIMER START]" label msg ctx lvl
      (<["_timer_label" := VStr label]> (<["_timer_start" := VNum startTime]> ∅)) in
  (fst (log rt (set_store h w) d 0 http), startTime).

Definition time_end (rt : Runtime) (w : World) (startTime : Z) (label msg : string)
    (ctx : option loc) (lvl : string) (http : AxiosOutcome) : World * Z :=
  let endTime := clock w in
  let duration := endTime - startTime in
  let '(d, h) :=
    timer_record (store w) " [TIMER END]" label msg ctx lvl
      (<["_timer_label" := VStr label]>
       (<["_timer_start" := VNum startTime]>
        (<["_timer_end" := VNum endTime]>
         (<["_timer_duration_ms" := VNum duration]> ∅)))) in
  (fst (log rt (set_store h w) d 0 http), duration).

(** ** [flush]

    [flush] polls: while the queue is not empty and less than [timeout]
    milliseconds have passed since it started, it waits 100 ms. What
    happens to the world during one such wait (timers firing, requests
    settling, other callers) is [sleep]. [None]: more waits than [fuel]. *)
Fixpoint flush_loop (sleep : World → World) (fuel : nat) (startTime timeout : Z) (w : World)
  : option (World * bool) :=
  if negb (bool_decide (retryQueue (this w) = [])) && (clock w - startTime <? timeout)
  then
    match fuel with
    | O => None
    | S fuel' => flush_loop sleep fuel' startTime timeout (sleep w)
    end
  else Some (w, bool_decide (retryQueue (this w) = [])).

Definition flush (sleep : World → World) (fuel : nat) (timeout : Z) (w : World)
  : option (World * bool) :=
  flush_loop sleep fuel (clock w) timeout w.

(** A wait of [ms] milliseconds during which every timer that comes due
    fires and every request it makes settles as [http]; at most [fuel]
    timers fire. *)
Fixpoint run_due (rt : Runtime) (fuel : nat) (http : AxiosOutcome) (deadline : Z) (w : World)
  : World :=
  match fuel with
  | O => set_clock (Z.max (clock w) deadline) w
  | S fuel' =>
      match next_timer (timers w) with
      | Some (t, _) =>
          if bool_decide (due t ≤ deadline)
          then
            match fire_next rt w http with
            | Some w' => run_due rt fuel' http deadline w'
            | None => set_clock (Z.max (clock w) deadline) w
            end
          else set_clock (Z.max (clock w) deadline) w
      | None => set_clock (Z.max (clock w) deadline) w
      end
  end.

Definition sleep_100 (rt : Runtime) (http : AxiosOutcome) (w : World) : World :=
  run_due rt (length (timers w) * S (maxRetries (this w))) http (clock w + 100) w.

End Logger.

(* ===================================================================== *)
(** * [lib/stats.mjs]: [CheckLogsStats] *)
(* ===================================================================== *)

(** Every method first awaits [getStatsByLevel()] or [getDailyStats()];
    the functions below take the array that call resolved to.

    [Stats] holds the arrays, the comparisons and the sort, which involve
    no rounding, and the arithmetic of the methods read in exact rationals.
    [Stats64] below holds the same arithmetic in binary64. *)

Module Stats.

(** An element of [stats_by_level]. *)
Record LevelStat := {
  level : string;
  level_count : Z
}.

(** An element of [daily_stats]. *)
Record DailyStat := {
  date : string;
  day_count : Z
}.

(** Both kinds of element have a [count]. *)
Class Counted (A : Type) := count : A → Z.
#[export] Instance LevelStat_counted : Counted LevelStat := level_count.
#[export] Instance DailyStat_counted : Counted DailyStat := day_count.

(** [Math.round] of an exact value: the nearest integer, halves towards
    [+∞]. *)
Definition Math_round (x : Q) : Z := Qfloor (x + (1 # 2)).

(** [Math.round(x * 100) / 100] in exact arithmetic: [x] rounded to two
    decimal places. *)
Definition round2 (x : Q) : Q := (inject_Z (Math_round (x * 100)) / 100)%Q.

Definition Qltb (x y : Q) : bool := negb (Qle_bool y x).

(** [Math.abs]. *)
Definition Math_abs (x : Q) : Q := if Qltb x 0 then (- x)%Q else x.

(** [l.reduce(f)], without an initial value, on the non-empty array
    [first :: rest]: the first element is the initial accumulator. *)
Definition reduce1 {A} (f : A → A → A) (first : A) (rest : list A) : A :=
  fold_left f rest first.

(** [(max, current) => current.count > max.count ? current : max]. *)
Definition keep_max {A} `{Counted A} (max current : A) : A :=
  if count max <? count current then current else max.

(** [l.reduce((sum, x) => sum + x.count, 0)]. *)
Definition sum_counts {A} `{Counted A} (l : list A) : Z :=
  fold_left (λ sum x, sum + count x) l 0.

(** [getErrorRate], in exact arithmetic. *)
Definition getErrorRate (statsByLevel : list LevelStat) : Q :=
  let '(totalLogs, errorLogs) :=
    fold_left
      (λ '(totalLogs, errorLogs) stat,
         (totalLogs + count stat,
          if bool_decide (level stat = "error") || bool_decide (level stat = "critical")
          then errorLogs + count stat else errorLogs))
      statsByLevel (0, 0) in
  if 0 <? totalLogs
  then (inject_Z errorLogs / inject_Z totalLogs * 100)%Q
  else 0%Q.

Record MostFrequent := {
  mf_level : string;
  mf_count : Z;
  percentage : Q
}.

(** [getMostFrequentLevel], in exact arithmetic; [None] is [null]. *)
Definition getMostFrequentLevel (statsByLevel : list LevelStat) : option MostFrequent :=
  match statsByLevel with
  | [] => None
  | first :: rest =>
      let mostFrequent := reduce1 keep_max first rest in
      let totalLogs := sum_counts statsByLevel in
      let pct :=
        if 0 <? totalLogs
        then (inject_Z (count mostFrequent) / inject_Z totalLogs * 100)%Q
        else 0%Q in
      Some {| mf_level := level mostFrequent;
              mf_count := count mostFrequent;
              percentage := round2 pct |}
  end.

(** [getPeakDay]; [None] is [null]. *)
Definition getPeakDay (dailyStats : list DailyStat) : option DailyStat :=
  match dailyStats with
  | [] => None
  | first :: rest => Some (reduce1 keep_max first rest)
  end.

(** [Array.prototype.sort] with a comparator. The sort is stable: of two
    elements that the comparator does not order, the one that came first
    stays first. [insert_by x l] puts [x] in front of the first element
    it does not have to follow. *)
Fixpoint insert_by {A} (compare : A → A → Z) (x : A) (l : list A) : list A :=
  match l with
  | [] => [x]
  | y :: rest =>
      if 0 <? compare x y then y :: insert_by compare x rest else x :: y :: rest
  end.

Definition Array_sort {A} (compare : A → A → Z) (l : list A) : list A :=
  foldr (insert_by compare) [] l.

(** [l.slice(from, to)]. *)
Definition slice {A} (from to : nat) (l : list A) : list A :=
  take (to - from) (drop from l).

Inductive Trend := increasing | decreasing | stable | insufficient_data.

Record TrendAnalysis := {
  trend : Trend;
  change : Q;
  last_week : Z;
  previous_week : Z
}.

(** [getTrend], in exact arithmetic. [time s] is [new Date(s)] as a
    number, the milliseconds since the epoch. *)
Definition getTrend (time : string → Z) (dailyStats : list DailyStat) : TrendAnalysis :=
  if bool_decide (length dailyStats < 14)%nat then
    {| trend := insufficient_data; change := 0; last_week := 0; previous_week := 0 |}
  else
    let sortedStats := Array_sort (λ a b, time (date b) - time (date a)) dailyStats in
    let lastWeekLogs := sum_counts (slice 0 7 sortedStats) in
    let previousWeekLogs := sum_counts (slice 7 14 sortedStats) in
    let change :=
      if 0 <? previousWeekLogs
      then (inject_Z (lastWeekLogs - previousWeekLogs) / inject_Z previousWeekLogs * 100)%Q
      else 0%Q in
    let trend :=
      if Qltb 20 (Math_abs change)
      then (if Qltb 0 change then increasing else decreasing)
      else stable in
    {| trend := trend;
       change := round2 change;
       last_week := lastWeekLogs;
       previous_week := previousWeekLogs |}.

(** ** Dates

    [new Date("YYYY-MM-DD")] is midnight UTC of that day. Used to run
    [getTrend] on concrete series. *)

Definition digit (c : Ascii.ascii) : Z := Z.of_nat (Ascii.nat_of_ascii c) - 48.

Fixpoint digits (acc : Z) (s : string) : Z :=
  match s with
  | EmptyString => acc
  | String c rest => digits (10 * acc + digit c) rest
  end.

(** Days from 1970-01-01 to the given day of the proleptic Gregorian
    calendar. *)
Definition days_from_civil (y m d : Z) : Z :=
  let y' := if m <=? 2 then y - 1 else y in
  let era := y' / 400 in
  let yoe := y' - era * 400 in
  let doy := (153 * (if 2 <? m then m - 3 else m + 9) + 2) / 5 + d - 1 in
  let doe := yoe * 365 + yoe / 4 - yoe / 100 + doy in
  era * 146097 + doe - 719468.

Definition iso_date_time (s : string) : Z :=
  let y := digits 0 (String.substring 0 4 s) in
  let m := digits 0 (String.substring 5 2 s) in
  let d := digits 0 (String.substring 8 2 s) in
  days_from_civil y m d * 86400000.

End Stats.

(* ===================================================================== *)
(** * [lib/stats.mjs] in binary64 *)
(* ===================================================================== *)

(** The methods with their arithmetic as JavaScript evaluates it. A count
    is an integer [c] that the API sends; where the code computes with it,
    it is the number [of_Z c]. Comparisons of counts and of dates, the
    [reduce] that keeps the maximum, the sort and the slices are those of
    [Stats]. *)

Module Stats64.
Import Stats Number.

(** [l.reduce((sum, x) => sum + x.count, 0)]. *)
Definition sum_counts {A} `{Counted A} (l : list A) : number :=
  fold_left (λ sum x, add sum (of_Z (count x))) l (of_Z 0).

(** [Math.round(x * 100) / 100]. *)
Definition round2 (x : number) : number :=
  div (Math_round (mul x (of_Z 100))) (of_Z 100).

(** [getErrorRate]. *)
Definition getErrorRate (statsByLevel : list LevelStat) : number :=
  let '(totalLogs, errorLogs) :=
    fold_left
      (λ '(totalLogs, errorLogs) stat,
         (add totalLogs (of_Z (count stat)),
          if bool_decide (level stat = "error") || bool_decide (level stat = "critical")
          then add errorLogs (of_Z (count stat)) else errorLogs))
      statsByLevel (of_Z 0, of_Z 0) in
  if ltb (of_Z 0) totalLogs
  then mul (div errorLogs totalLogs) (of_Z 100)
  else of_Z 0.

Record MostFrequent := {
  mf_level : string;
  mf_count : Z;
  percentage : number
}.

(** [getMostFrequentLevel]; [None] is [null]. *)
Definition getMostFrequentLevel (statsByLevel : list LevelStat) : option MostFrequent :=
  match statsByLevel with
  | [] => None
  | first :: rest =>
      let mostFrequent := reduce1 keep_max first rest in
      let totalLogs := sum_counts statsByLevel in
      let pct :=
        if ltb (of_Z 0) totalLogs
        then mul (div (of_Z (count mostFrequent)) totalLogs) (of_Z 100)
        else of_Z 0 in
      Some {| mf_level := level mostFrequent;
              mf_count := count mostFrequent;
              percentage := round2 pct |}
  end.


Record TrendAnalysis := {
  trend : Trend;
  change : number;
  last_week : number;
  previous_week : number
}.

(** [getTrend]. [time s] is [new Date(s)] as a number, the milliseconds
    since the epoch. *)
Definition getTrend (time : string → Z) (dailyStats : list DailyStat) : TrendAnalysis :=
  if bool_decide (length dailyStats < 14)%nat then
    {| trend := insufficient_data; change := of_Z 0;
       last_week := of_Z 0; previous_week := of_Z 0 |}
  else
    let sortedStats := Array_sort (λ a b, time (date b) - time (date a)) dailyStats in
    let lastWeekLogs := sum_counts (slice 0 7 sortedStats) in
    let previousWeekLogs := sum_counts (slice 7 14 sortedStats) in
    let change :=
      if ltb (of_Z 0) previousWeekLogs
      then mul (div (sub lastWeekLogs previousWeekLogs) previousWeekLogs) (of_Z 100)
      else of_Z 0 in
    let trend :=
      if ltb (of_Z 20) (Math_abs change)
      then (if ltb (of_Z 0) change then increasing else decreasing)
      else stable in
    {| trend := trend;
       change := round2 change;
       last_week := lastWeekLogs;
       previous_week := previousWeekLogs |}.

End Stats64.

(* ===================================================================== *)
(** * Vocabulary of the statements *)
(* ===================================================================== *)

(** The sum of a list of integers. *)
Definition Zsum (l : list Z) : Z := foldr Z.add 0 l.

(** The sum of a list of integers as the code adds them up: in doubles,
    from 0, left to right. *)
Definition Nsum (l : list Z) : Number.number :=
  fold_left (λ sum c, Number.add sum (Number.of_Z c)) l (Number.of_Z 0).

(** The double that holds the integer [± p], for [p] below [2^53]: the
    mantissa is [p] shifted to 53 bits. *)
Definition canon (s : bool) (p : positive) : Number.number :=
  SpecFloat.S754_finite s
    (Pos.shiftl p (Z.to_N (53 - Z.pos (SpecFloat.digits2_pos p))))
    (Z.pos (SpecFloat.digits2_pos p) - 53).

(** The double that holds the integer [z], for [|z| < 2^53]. *)
Definition canonZ (z : Z) : Number.number :=
  match z with
  | 0 => SpecFloat.S754_zero false
  | Z.pos p => canon false p
  | Z.neg p => canon true p
  end.

(** [m * 2^e <= K] and [K <= m * 2^e], for integers [m] and [K] and an
    exponent [e] of either sign, written without fractions. *)
Definition dyadic_le (m e K : Z) : Prop :=
  if e <=? 0 then m ≤ K * 2 ^ (- e) else m * 2 ^ e ≤ K.

Definition dyadic_ge (m e K : Z) : Prop :=
  if e <=? 0 then K * 2 ^ (- e) ≤ m else K ≤ m * 2 ^ e.

(** What rounding is given: a mantissa [m], an exponent [e] and the place
    [l] of the exact value between [m * 2^e] and [(m + 1) * 2^e].
    [below m e l K]: that exact value is at most the integer [K]. *)
Definition below (m e : Z) (l : SpecFloat.location) (K : Z) : Prop :=
  if e <=? 0
  then m < K * 2 ^ (- e) ∨ (m = K * 2 ^ (- e) ∧ l = SpecFloat.loc_Exact)
  else l = SpecFloat.loc_Exact ∧ m * 2 ^ e ≤ K.

(** [x] is a zero or a positive number, and its value lies between the
    integers [lo] and [hi]. *)
Definition between (x : Number.number) (lo hi : Z) : Prop :=
  match x with
  | SpecFloat.S754_zero _ => lo ≤ 0 ≤ hi
  | SpecFloat.S754_finite false m e => dyadic_ge (Z.pos m) e lo ∧ dyadic_le (Z.pos m) e hi
  | _ => False
  end.

(** The value of a number that is neither an infinity nor [NaN]. *)
Definition value (x : Number.number) : option Q :=
  match x with
  | SpecFloat.S754_zero _ => Some 0%Q
  | SpecFloat.S754_finite s m e =>
      Some ((if s then - inject_Z (Z.pos m) else inject_Z (Z.pos m)) * 2 ^ e)%Q
  | _ => None
  end.

(** By how many bits rounding shifts the mantissa [m] at exponent [e] to
    the right: down to 53 bits, or to the least exponent. *)
Definition shift_amount (m e : Z) : Z :=
  SpecFloat.fexp 53 1024 (SpecFloat.Zdigits2 m + e) - e.

(** [x] is [+0], a positive number or [+Infinity]: it is not [NaN], not
    negative and not [-0]. *)
Definition non_negative (x : Number.number) : Prop :=
  match x with
  | SpecFloat.S754_zero false | SpecFloat.S754_finite false _ _
  | SpecFloat.S754_infinity false => True
  | _ => False
  end.

(** [x] is a positive number, not [+Infinity]. *)
Definition positive_finite (x : Number.number) : Prop :=
  match x with
  | SpecFloat.S754_finite false _ _ => True
  | _ => False
  end.

(** [x] is [NaN], or [-0], a negative number or [-Infinity]. *)
Definition negative_or_NaN (x : Number.number) : Prop :=
  match x with
  | SpecFloat.S754_zero true | SpecFloat.S754_finite true _ _
  | SpecFloat.S754_infinity true | SpecFloat.S754_nan => True
  | _ => False
  end.

(** [m] is the first element of [l] with the greatest count. *)
Definition first_max {A} `{Stats.Counted A} (m : A) (l : list A) : Prop :=
  ∃ l1 l2, l = l1 ++ m :: l2
           ∧ Forall (λ x, Stats.count x < Stats.count m) l1
           ∧ Forall (λ x, Stats.count x ≤ Stats.count m) l2.

(** The level is one of those counted as errors. *)
Definition error_level (s : Stats.LevelStat) : Prop :=
  Stats.level s = "error" ∨ Stats.level s = "critical".

#[global] Instance error_level_dec s : Decision (error_level s).
Proof. unfold error_level. apply _. Defined.

(** Most recent first. *)
Definition newer_first (time : string → Z) (a b : Stats.DailyStat) : Prop :=
  time (Stats.date b) ≤ time (Stats.date a).

(** [h2] differs from [h] at most in the object at [l]: what any number of
    assignments to and deletions of keys of that object does. *)
Definition only_changes (l : loc) (h h2 : heap) : Prop :=
  ∀ l', l' ≠ l → h2 !! l' = h !! l'.

(** The identity key of a record. *)
Definition key (d : LogData) : string * option string := (message d, level d).

(** The keys held by a retry queue. *)
Definition keys (q : list RetryItem) : list (string * option string) :=
  map (λ item, key (logData item)) q.

(** [log] changes no field of the logger but the queue. *)
Definition same_settings (a b : Logger) : Prop :=
  apiKey a = apiKey b ∧ timeout a = timeout b ∧ validatePayload a = validatePayload b
  ∧ defaultSource a = defaultSource b ∧ defaultUserId a = defaultUserId b
  ∧ defaultContext a = defaultContext b ∧ silent a = silent b
  ∧ consoleOutput a = consoleOutput b ∧ enabledLevels a = enabledLevels b
  ∧ includeTimestamp a = includeTimestamp b ∧ includeHostname a = includeHostname b
  ∧ maxRetries a = maxRetries b ∧ retryDelay a = retryDelay b ∧ hostname a = hostname b.

(* ===================================================================== *)
(** * Sample inputs *)
(* ===================================================================== *)

(** Fourteen days out of order: the seven most recent sum to 140, the seven
    before them to 100. *)
Definition two_weeks : list Stats.DailyStat :=
  [ {| Stats.date := "2024-03-01"; Stats.day_count := 20 |};
    {| Stats.date := "2024-03-14"; Stats.day_count := 20 |};
    {| Stats.date := "2024-03-02"; Stats.day_count := 10 |};
    {| Stats.date := "2024-03-03"; Stats.day_count := 10 |};
    {| Stats.date := "2024-03-04"; Stats.day_count := 10 |};
    {| Stats.date := "2024-03-05"; Stats.day_count := 10 |};
    {| Stats.date := "2024-03-06"; Stats.day_count := 10 |};
    {| Stats.date := "2024-03-07"; Stats.day_count := 30 |};
    {| Stats.date := "2024-03-08"; Stats.day_count := 20 |};
    {| Stats.date := "2024-03-09"; Stats.day_count := 20 |};
    {| Stats.date := "2024-03-10"; Stats.day_count := 20 |};
    {| Stats.date := "2024-03-11"; Stats.day_count := 20 |};
    {| Stats.date := "2024-03-12"; Stats.day_count := 20 |};
    {| Stats.date := "2024-03-13"; Stats.day_count := 20 |} ].

(** Fourteen days whose last week is 20.004 % above the week before. *)
Definition just_above_twenty : list Stats.DailyStat :=
  [ {| Stats.date := "2024-03-14"; Stats.day_count := 30001 |};
    {| Stats.date := "2024-03-13"; Stats.day_count := 0 |};
    {| Stats.date := "2024-03-12"; Stats.day_count := 0 |};
    {| Stats.date := "2024-03-11"; Stats.day_count := 0 |};
    {| Stats.date := "2024-03-10"; Stats.day_count := 0 |};
    {| Stats.date := "2024-03-09"; Stats.day_count := 0 |};
    {| Stats.date := "2024-03-08"; Stats.day_count := 0 |};
    {| Stats.date := "2024-03-07"; Stats.day_count := 25000 |};
    {| Stats.date := "2024-03-06"; Stats.day_count := 0 |};
    {| Stats.date := "2024-03-05"; Stats.day_count := 0 |};
    {| Stats.date := "2024-03-04"; Stats.day_count := 0 |};
    {| Stats.date := "2024-03-03"; Stats.day_count := 0 |};
    {| Stats.date := "2024-03-02"; Stats.day_count := 0 |};
    {| Stats.date := "2024-03-01"; Stats.day_count := 0 |} ].

(** Fourteen days: the seven most recent sum to 183, the seven before
    them to 160, a change of 14.375 %. *)
Definition week_183_160 : list Stats.DailyStat :=
  [ {| Stats.date := "2024-03-14"; Stats.day_count := 183 |};
    {| Stats.date := "2024-03-13"; Stats.day_count := 0 |};
    {| Stats.date := "2024-03-12"; Stats.day_count := 0 |};
    {| Stats.date := "2024-03-11"; Stats.day_count := 0 |};
    {| Stats.date := "2024-03-10"; Stats.day_count := 0 |};
    {| Stats.date := "2024-03-09"; Stats.day_count := 0 |};
    {| Stats.date := "2024-03-08"; Stats.day_count := 0 |};
    {| Stats.date := "2024-03-07"; Stats.day_count := 160 |};
    {| Stats.date := "2024-03-06"; Stats.day_count := 0 |};
    {| Stats.date := "2024-03-05"; Stats.day_count := 0 |};
    {| Stats.date := "2024-03-04"; Stats.day_count := 0 |};
    {| Stats.date := "2024-03-03"; Stats.day_count := 0 |};
    {| Stats.date := "2024-03-02"; Stats.day_count := 0 |};
    {| Stats.date := "2024-03-01"; Stats.day_count := 0 |} ].

(** 7 errors among 100 logs. *)
Definition seven_of_hundred : list Stats.LevelStat :=
  [ {| Stats.level := "info"; Stats.level_count := 93 |};
    {| Stats.level := "error"; Stats.level_count := 7 |} ].

(** 87 of 160 logs at the most frequent level: 54.375 %. *)
Definition info_87_error_73 : list Stats.LevelStat :=
  [ {| Stats.level := "info"; Stats.level_count := 87 |};
    {| Stats.level := "error"; Stats.level_count := 73 |} ].



(** A platform. *)
Definition sample_rt : Runtime :=
  {| toISOString := pretty; toUpperCase := id; os_hostname := "host-1";
     process_pid := 4242; process_version := "v20.11.0"; process_platform := "linux" |}.

(** [new CheckLogsLogger("api-key")]: the instance, the heap holding its
    empty default context, and the world at time 0. *)
Definition sample_logger : Logger :=
  {| apiKey := "api-key"; timeout := 5000; validatePayload := true;
     defaultSource := None; defaultUserId := None; defaultContext := 1%positive;
     silent := false; consoleOutput := true; enabledLevels := Client.levels;
     includeTimestamp := true; includeHostname := true;
     retryQueue := []; maxRetries := 3; retryDelay := 1000; hostname := "host-1" |}.

Definition sample_heap : heap := {[ 1%positive := ∅ ]}.

Definition sample_world : World := Logger.fresh_world sample_logger sample_heap 0.

(** The same logger after [setEnabledLevels(["error", "critical"])]. *)
Definition errors_only_world : World :=
  Logger.set_this (Logger.setEnabledLevels ["error"; "critical"] sample_logger) sample_world.

(** [{ message: "db down", level: "error" }]. *)
Definition db_down : LogData :=
  {| message := "db down"; level := Some "error"; context := None;
     source := None; user_id := None |}.

(** [{ message: "started" }]: no level. *)
Definition started : LogData :=
  {| message := "started"; level := None; context := None;
     source := None; user_id := None |}.

(** [{ message: "started", level: "info" }]. *)
Definition started_info : LogData :=
  {| message := "started"; level := Some "info"; context := None;
     source := None; user_id := None |}.

(** [{ message: "", level: "info" }]: rejected by [_validateLogData]. *)
Definition no_message : LogData :=
  {| message := ""; level := Some "info"; context := None;
     source := None; user_id := None |}.

(** A parent created with [defaultContext: { service: "api", user: u }]
    where [u] is the object [{ id: 1 }]: the context object is at 1 and [u]
    at 2. *)
Definition parent_logger : Logger := sample_logger.

Definition parent_heap : heap :=
  {[ 1%positive := {[ "service" := VStr "api"; "user" := VRef 2%positive ]};
     2%positive := {[ "id" := VNum 1 ]} ]}.

(** [{ module: "user" }] and [{ module: "orders" }], at 3 and 4. *)
Definition family_heap : heap :=
  <[ 3%positive := {[ "module" := VStr "user" ]} ]>
    (<[ 4%positive := {[ "module" := VStr "orders" ]} ]> parent_heap).

(* ===================================================================== *)
(** * Analytics *)
(* ===================================================================== *)

Module StatsFacts.
Import Stats.






Lemma Zsum_nonneg (l : list Z) : Forall (λ z, 0 ≤ z) l → 0 ≤ Zsum l.
Proof. induction 1; simpl; lia. Qed.

(** ** [getErrorRate] *)



(** ** [getPeakDay] and [getMostFrequentLevel] *)

Section FirstMax.
Context {A : Type} `{Counted A}.

Lemma fold_keep_max_snoc (rest : list A) (x z : A) :
  fold_left keep_max (rest ++ [z]) x = keep_max (fold_left keep_max rest x) z.
Proof. by rewrite fold_left_app. Qed.

Lemma fold_keep_max_first_max (rest : list A) (x : A) :
  first_max (fold_left keep_max rest x) (x :: rest).
Proof.
  induction rest as [|z rest IH] using rev_ind.
  - exists [], []. simpl. repeat split; constructor.
  - rewrite fold_keep_max_snoc.
    destruct IH as (l1 & l2 & Heq & Hlt & Hle).
    set (m := fold_left keep_max rest x) in *.
    unfold keep_max. destruct (count m <? count z) eqn:Hcmp.
    + apply Z.ltb_lt in Hcmp.
      exists (l1 ++ m :: l2), []. split; [|split].
      * rewrite app_comm_cons, Heq. done.
      * apply Forall_app. split; [|constructor; [done|]].
        -- eapply Forall_impl; [exact Hlt|]. simpl. intros; lia.
        -- eapply Forall_impl; [exact Hle|]. simpl. intros; lia.
      * constructor.
    + apply Z.ltb_ge in Hcmp.
      exists l1, (l2 ++ [z]). split; [|split].
      * rewrite app_comm_cons, Heq, <- app_assoc. done.
      * done.
      * apply Forall_app. split; [done|]. constructor; [done|constructor].
Qed.

Lemma reduce1_keep_max_first_max (first : A) (rest : list A) :
  first_max (reduce1 keep_max first rest) (first :: rest).
Proof. apply fold_keep_max_first_max. Qed.

(** The first maximum is an element, and no element has a greater count. *)
Lemma first_max_is_max (m : A) (l : list A) :
  first_max m l → m ∈ l ∧ ∀ x, x ∈ l → count x ≤ count m.
Proof.
  intros (l1 & l2 & -> & Hlt & Hle). split.
  - set_solver.
  - intros x Hx. rewrite Forall_forall in Hlt, Hle.
    apply elem_of_app in Hx as [Hx|Hx].
    + specialize (Hlt x Hx). simpl in Hlt. lia.
    + apply elem_of_cons in Hx as [->|Hx]; [lia|]. by apply Hle.
Qed.

(** There is only one first maximum. *)
Lemma first_max_unique (m m' : A) (l : list A) :
  first_max m l → first_max m' l → m = m'.
Proof.
  intros (l1 & l2 & Hl & Hlt & Hle) (l1' & l2' & Hl' & Hlt' & Hle').
  assert (count m = count m') as Hc.
  { destruct (first_max_is_max m l) as [Hin Hmax]; [by exists l1, l2|].
    destruct (first_max_is_max m' l) as [Hin' Hmax']; [by exists l1', l2'|].
    specialize (Hmax _ Hin'). specialize (Hmax' _ Hin). lia. }
  assert (length l1 = length l1') as Hlen.
  { destruct (decide (length l1 < length l1')%nat) as [Hlt1|Hge1].
    - exfalso. assert (l !! length l1 = Some m) as Hm.
      { rewrite Hl. by apply list_lookup_middle. }
      rewrite Hl' in Hm. rewrite lookup_app_l in Hm by done.
      rewrite Forall_forall in Hlt'.
      apply list_elem_of_lookup_2 in Hm. specialize (Hlt' _ Hm). simpl in Hlt'. lia.
    - destruct (decide (length l1' < length l1)%nat) as [Hlt2|Hge2]; [|lia].
      exfalso. assert (l !! length l1' = Some m') as Hm.
      { rewrite Hl'. by apply list_lookup_middle. }
      rewrite Hl in Hm. rewrite lookup_app_l in Hm by done.
      rewrite Forall_forall in Hlt.
      apply list_elem_of_lookup_2 in Hm. specialize (Hlt _ Hm). simpl in Hlt. lia. }
  rewrite Hl in Hl'.
  apply app_inj_1 in Hl' as [_ Hcons]; [|done].
  by injection Hcons.
Qed.

End FirstMax.

(** On a tie the earlier entry is returned. *)
Example getPeakDay_tie :
  getPeakDay [ {| date := "2024-03-01"; day_count := 5 |};
               {| date := "2024-03-02"; day_count := 9 |};
               {| date := "2024-03-03"; day_count := 9 |} ]
  = Some {| date := "2024-03-02"; day_count := 9 |}.
Proof. reflexivity. Qed.

Example getMostFrequentLevel_tie :
  getMostFrequentLevel [ {| level := "info"; level_count := 7 |};
                         {| level := "error"; level_count := 7 |} ]
  = Some {| mf_level := "info"; mf_count := 7; percentage := round2 50 |}.
Proof. reflexivity. Qed.

(** ** [Array_sort] *)

Section Sort.
Context {A : Type} (compare : A → A → Z).

Lemma insert_by_Permutation (x : A) (l : list A) : insert_by compare x l ≡ₚ x :: l.
Proof.
  induction l as [|y l IH]; simpl; [done|].
  destruct (0 <? compare x y); [|done].
  rewrite IH. apply perm_swap.
Qed.

Lemma Array_sort_Permutation (l : list A) : Array_sort compare l ≡ₚ l.
Proof.
  induction l as [|x l IH]; simpl; [done|].
  rewrite insert_by_Permutation. by rewrite IH.
Qed.

Lemma Array_sort_length (l : list A) : length (Array_sort compare l) = length l.
Proof. apply Permutation_length, Array_sort_Permutation. Qed.

Context (R : relation A).
Context (R_before : ∀ a b, compare a b ≤ 0 → R a b).
Context (R_after : ∀ a b, 0 < compare a b → R b a).
Context (R_trans : Transitive R).

Lemma insert_by_sorted (x : A) (l : list A) :
  StronglySorted R l → StronglySorted R (insert_by compare x l).
Proof.
  induction 1 as [|y l Hsorted IH Hy]; simpl.
  - repeat constructor.
  - destruct (0 <? compare x y) eqn:Hcmp.
    + apply Z.ltb_lt in Hcmp. constructor; [done|].
      rewrite insert_by_Permutation. constructor; [by apply R_after | done].
    + apply Z.ltb_ge in Hcmp. constructor; [by constructor|].
      constructor; [by apply R_before|].
      eapply Forall_impl; [exact Hy|]. simpl. intros z Hz.
      transitivity y; [by apply R_before | done].
Qed.

Lemma Array_sort_sorted (l : list A) : StronglySorted R (Array_sort compare l).
Proof.
  induction l as [|x l IH]; simpl; [constructor|]. by apply insert_by_sorted.
Qed.

End Sort.

(** Stability: the days that bear the same date keep their order. *)
Lemma Array_sort_stable (time : string → Z) (t : Z) (l : list DailyStat) :
  filter (λ x, time (date x) = t)
    (Array_sort (λ a b, time (date b) - time (date a)) l)
  = filter (λ x, time (date x) = t) l.
Proof.
  induction l as [|x l IH]; simpl; [done|].
  rewrite (filter_cons _ x l), <- IH.
  generalize (Array_sort (λ a b, time (date b) - time (date a)) l). clear IH.
  intros s. induction s as [|y s IHs]; simpl; [done|].
  destruct (0 <? time (date y) - time (date x)) eqn:Hcmp; [|done].
  apply Z.ltb_lt in Hcmp.
  rewrite (filter_cons _ y). rewrite IHs.
  destruct (decide (time (date x) = t)) as [Hx|Hx].
  - rewrite (filter_cons _ y). rewrite !decide_False by lia. done.
  - by rewrite (filter_cons _ y).
Qed.

Lemma Array_sort_newer_first (time : string → Z) (l : list DailyStat) :
  StronglySorted (newer_first time)
    (Array_sort (λ a b, time (date b) - time (date a)) l).
Proof.
  apply Array_sort_sorted; unfold newer_first.
  - intros a b. lia.
  - intros a b. lia.
  - intros a b c. lia.
Qed.

(** ** [getTrend] *)

(** The trend is decided on the change before it is rounded: 30001 against
    25000 is a change of 20.004, reported as 20 and classified as
    [increasing]. *)
Example getTrend_just_above_twenty :
  let r := getTrend iso_date_time just_above_twenty in
  (change r == 20)%Q ∧ trend r = increasing.
Proof. vm_compute. split; reflexivity. Qed.

End StatsFacts.

(* ===================================================================== *)
(** * Doubles that hold integers *)
(* ===================================================================== *)

(** An integer below [2^53] in absolute value is a double, and sums and
    differences of such integers that stay below [2^53] are computed
    without error. *)

Module NumberFacts.
Import Number.

Lemma digits2_pos_bounds (p : positive) :
  2 ^ (Z.pos (digits2_pos p) - 1) ≤ Z.pos p < 2 ^ Z.pos (digits2_pos p).
Proof.
  induction p as [p IH|p IH|]; cbn [digits2_pos].
  - rewrite Pos2Z.inj_succ.
    replace (Z.succ (Z.pos (digits2_pos p)) - 1)
      with (Z.succ (Z.pos (digits2_pos p) - 1)) by lia.
    rewrite !Z.pow_succ_r by lia. lia.
  - rewrite Pos2Z.inj_succ.
    replace (Z.succ (Z.pos (digits2_pos p)) - 1)
      with (Z.succ (Z.pos (digits2_pos p) - 1)) by lia.
    rewrite !Z.pow_succ_r by lia. lia.
  - simpl. lia.
Qed.

Lemma digits2_pos_le (p : positive) (n : Z) :
  0 ≤ n → Z.pos p < 2 ^ n → Z.pos (digits2_pos p) ≤ n.
Proof.
  intros Hn Hp. pose proof (digits2_pos_bounds p) as [Hlo _].
  destruct (decide (Z.pos (digits2_pos p) ≤ n)) as [|Hgt]; [done|].
  exfalso.
  assert (2 ^ n ≤ 2 ^ (Z.pos (digits2_pos p) - 1)) by (apply Z.pow_le_mono_r; lia).
  lia.
Qed.

Lemma digits2_pos_iter_xO (p k : positive) :
  Z.pos (digits2_pos (Pos.iter xO p k)) = Z.pos (digits2_pos p) + Z.pos k.
Proof.
  induction k as [|k IH] using Pos.peano_ind.
  - cbn [Pos.iter digits2_pos]. rewrite Pos2Z.inj_succ. lia.
  - rewrite Pos.iter_succ. cbn [digits2_pos]. rewrite Pos2Z.inj_succ, IH. lia.
Qed.

Lemma digits2_pos_shiftl (p : positive) (k : N) :
  Z.pos (digits2_pos (Pos.shiftl p k)) = Z.pos (digits2_pos p) + Z.of_N k.
Proof.
  destruct k as [|k]; unfold Pos.shiftl; cbn [Z.of_N]; [by rewrite Z.add_0_r|].
  apply digits2_pos_iter_xO.
Qed.

Lemma Zpos_iter_xO (p k : positive) : Z.pos (Pos.iter xO p k) = Z.pos p * 2 ^ Z.pos k.
Proof.
  induction k as [|k IH] using Pos.peano_ind.
  - cbn [Pos.iter]. lia.
  - rewrite Pos.iter_succ, Pos2Z.inj_xO, IH, Pos2Z.inj_succ, Z.pow_succ_r by lia. lia.
Qed.

Lemma Zpos_shiftl (p : positive) (k : N) :
  Z.pos (Pos.shiftl p k) = Z.pos p * 2 ^ Z.of_N k.
Proof.
  destruct k as [|k]; unfold Pos.shiftl; cbn [Z.of_N]; [lia|]. apply Zpos_iter_xO.
Qed.

Lemma Pos_shiftl_add (p : positive) (a b : N) :
  Pos.shiftl (Pos.shiftl p a) b = Pos.shiftl p (a + b).
Proof.
  destruct a as [|a], b as [|b]; try done.
  change (N.pos a + N.pos b)%N with (N.pos (a + b)). unfold Pos.shiftl.
  by rewrite (Pos.add_comm a b), Pos.iter_add.
Qed.

(** ** Shifting right what was shifted left loses nothing *)

Lemma iter_pos_nat {A} (f : A → A) (p : positive) (x : A) :
  iter_pos f p x = Nat.iter (Pos.to_nat p) f x.
Proof.
  revert x. induction p as [p IH|p IH|]; intros x; cbn [iter_pos].
  - rewrite !IH, Pos2Nat.inj_xI.
    replace (S (2 * Pos.to_nat p)) with (Pos.to_nat p + Pos.to_nat p + 1)%nat by lia.
    by rewrite !Nat.iter_add.
  - rewrite !IH, Pos2Nat.inj_xO.
    replace (2 * Pos.to_nat p)%nat with (Pos.to_nat p + Pos.to_nat p)%nat by lia.
    by rewrite Nat.iter_add.
  - done.
Qed.

Lemma Pos_iter_nat {A} (f : A → A) (p : positive) (x : A) :
  Pos.iter f x p = Nat.iter (Pos.to_nat p) f x.
Proof.
  induction p as [|p IH] using Pos.peano_ind; [done|].
  by rewrite Pos.iter_succ, IH, Pos2Nat.inj_succ.
Qed.

Lemma shr_1_iter_xO (n : nat) (m : positive) :
  Nat.iter n shr_1 {| shr_m := Z.pos (Nat.iter n xO m); shr_r := false; shr_s := false |}
  = {| shr_m := Z.pos m; shr_r := false; shr_s := false |}.
Proof.
  induction n as [|n IH]; [done|].
  rewrite Nat.iter_succ_r. cbn [Nat.iter shr_1 orb]. exact IH.
Qed.

Lemma shr_fexp_canonical (M : positive) (e : Z) :
  Z.pos (digits2_pos M) = 53 → -1074 ≤ e →
  shr_fexp 53 1024 (Z.pos M) e loc_Exact
  = ({| shr_m := Z.pos M; shr_r := false; shr_s := false |}, e).
Proof.
  intros Hd He. unfold shr_fexp, fexp, emin, Zdigits2. rewrite Hd.
  replace (Z.max (53 + e - 53) (3 - 1024 - 53) - e) with 0 by lia. done.
Qed.

Lemma shr_fexp_shift (M q : positive) (e : Z) :
  Z.pos (digits2_pos M) = 53 → -1074 ≤ e + Z.pos q →
  shr_fexp 53 1024 (Z.pos (Pos.iter xO M q)) e loc_Exact
  = ({| shr_m := Z.pos M; shr_r := false; shr_s := false |}, e + Z.pos q).
Proof.
  intros Hd He. unfold shr_fexp, fexp, emin, Zdigits2.
  rewrite digits2_pos_iter_xO, Hd.
  replace (Z.max (53 + Z.pos q + e - 53) (3 - 1024 - 53) - e) with (Z.pos q) by lia.
  cbn [shr shr_record_of_loc].
  by rewrite iter_pos_nat, Pos_iter_nat, shr_1_iter_xO.
Qed.

(** ** Rounding a value that needs no rounding *)

Lemma binary_round_aux_canonical (s : bool) (M : positive) (e : Z) :
  Z.pos (digits2_pos M) = 53 → -1074 ≤ e ≤ 971 →
  binary_round_aux 53 1024 s (Z.pos M) e loc_Exact = S754_finite s M e.
Proof.
  intros Hd He. unfold binary_round_aux.
  rewrite shr_fexp_canonical by lia.
  cbn [shr_m loc_of_shr_record round_nearest_even].
  rewrite shr_fexp_canonical by lia. cbn [shr_m].
  by rewrite (proj2 (Z.leb_le _ _)) by lia.
Qed.

Lemma binary_round_aux_shift (s : bool) (M q : positive) (e : Z) :
  Z.pos (digits2_pos M) = 53 → -1074 ≤ e + Z.pos q ≤ 971 →
  binary_round_aux 53 1024 s (Z.pos (Pos.iter xO M q)) e loc_Exact
  = S754_finite s M (e + Z.pos q).
Proof.
  intros Hd He. unfold binary_round_aux.
  rewrite shr_fexp_shift by lia.
  cbn [shr_m loc_of_shr_record round_nearest_even].
  rewrite shr_fexp_canonical by lia. cbn [shr_m].
  by rewrite (proj2 (Z.leb_le _ _)) by lia.
Qed.

(** [p * 2^k] with exponent [-k] is the integer [p], however many zero
    bits [k] were appended. *)
Lemma binary_round_shiftl (s : bool) (p : positive) (k : N) :
  Z.pos (digits2_pos p) ≤ 53 →
  binary_round 53 1024 s (Pos.shiftl p k) (- Z.of_N k) = canon s p.
Proof.
  intros Hd. unfold binary_round, canon.
  set (d := Z.pos (digits2_pos p)) in *.
  assert (1 ≤ d) as Hd1 by (unfold d; lia).
  rewrite digits2_pos_shiftl. fold d.
  unfold fexp at 1, emin.
  replace (Z.max (d + Z.of_N k + - Z.of_N k - 53) (3 - 1024 - 53)) with (d - 53) by lia.
  unfold shl_align.
  destruct (d - 53 - - Z.of_N k) as [|n|n] eqn:Hn.
  - replace (Z.to_N (53 - d)) with k by lia.
    replace (d - 53) with (- Z.of_N k) by lia.
    apply binary_round_aux_canonical; [|lia].
    rewrite digits2_pos_shiftl. fold d. lia.
  - replace k with (Z.to_N (53 - d) + N.pos n)%N at 1 by lia.
    rewrite <- Pos_shiftl_add.
    change (Pos.shiftl ?x (N.pos n)) with (Pos.iter xO x n).
    replace (d - 53) with (- Z.of_N k + Z.pos n) by lia.
    apply binary_round_aux_shift; [|lia].
    rewrite digits2_pos_shiftl. fold d. lia.
  - replace (Z.to_N (53 - d)) with (k + N.pos n)%N by lia.
    rewrite <- Pos_shiftl_add.
    change (Pos.shiftl ?x (N.pos n)) with (Pos.iter xO x n).
    apply binary_round_aux_canonical; [|lia].
    rewrite digits2_pos_iter_xO, digits2_pos_shiftl. fold d. lia.
Qed.

Lemma of_Z_canonZ (z : Z) : Z.abs z < 2 ^ 53 → of_Z z = canonZ z.
Proof.
  intros Hz. destruct z as [|p|p]; [done| |].
  - apply (binary_round_shiftl false p 0), digits2_pos_le; lia.
  - apply (binary_round_shiftl true p 0), digits2_pos_le; lia.
Qed.

Lemma binary_normalize_shiftl (z : Z) (k : N) :
  Z.abs z < 2 ^ 53 →
  binary_normalize 53 1024 (z * 2 ^ Z.of_N k) (- Z.of_N k) false = canonZ z.
Proof.
  intros Hz. destruct z as [|p|p]; [done| |].
  - rewrite <- Zpos_shiftl. cbn [binary_normalize canonZ].
    apply binary_round_shiftl, digits2_pos_le; lia.
  - change (Z.neg p) with (- Z.pos p). rewrite Z.mul_opp_l, <- Zpos_shiftl.
    cbn [Z.opp binary_normalize canonZ].
    apply binary_round_shiftl, digits2_pos_le; lia.
Qed.

(** Aligning the mantissa of such a double to a smaller exponent. *)
Lemma shl_align_canon (p : positive) (ez : Z) :
  Z.pos (digits2_pos p) ≤ 53 →
  ez ≤ Z.pos (digits2_pos p) - 53 →
  Z.pos (fst (shl_align (Pos.shiftl p (Z.to_N (53 - Z.pos (digits2_pos p))))
                (Z.pos (digits2_pos p) - 53) ez))
  = Z.pos p * 2 ^ (- ez).
Proof.
  intros Hd He. unfold shl_align.
  set (d := Z.pos (digits2_pos p)) in *.
  destruct (ez - (d - 53)) as [|n|n] eqn:Hn; cbn [fst].
  - rewrite Zpos_shiftl. f_equal. f_equal. lia.
  - lia.
  - rewrite Zpos_iter_xO, Zpos_shiftl, <- Z.mul_assoc, <- Z.pow_add_r by lia.
    f_equal. f_equal. lia.
Qed.

(** ** Exact sums and differences *)

(** The sum or the difference of two aligned mantissas, rounded. *)
Lemma aligned_of_Z (op : Z → Z → Z) (sa sb : bool) (pa pb : positive) :
  (∀ x y z, op (x * z) (y * z) = op x y * z) →
  Z.pos (digits2_pos pa) ≤ 53 → Z.pos (digits2_pos pb) ≤ 53 →
  Z.abs (op (cond_Zopp sa (Z.pos pa)) (cond_Zopp sb (Z.pos pb))) < 2 ^ 53 →
  let ea := Z.pos (digits2_pos pa) - 53 in
  let eb := Z.pos (digits2_pos pb) - 53 in
  let ez := Z.min ea eb in
  binary_normalize 53 1024
    (op (cond_Zopp sa (Z.pos (fst (shl_align
           (Pos.shiftl pa (Z.to_N (53 - Z.pos (digits2_pos pa)))) ea ez))))
        (cond_Zopp sb (Z.pos (fst (shl_align
           (Pos.shiftl pb (Z.to_N (53 - Z.pos (digits2_pos pb)))) eb ez)))))
    ez false
  = canonZ (op (cond_Zopp sa (Z.pos pa)) (cond_Zopp sb (Z.pos pb))).
Proof.
  intros Hmul Hda Hdb Hsum ea eb ez.
  rewrite !shl_align_canon by lia.
  assert (∀ (s : bool) (x z : Z), cond_Zopp s (x * z) = cond_Zopp s x * z) as Hcond.
  { intros [] x z; cbn [cond_Zopp]; lia. }
  rewrite !Hcond, Hmul.
  replace (2 ^ (- ez)) with (2 ^ Z.of_N (Z.to_N (- ez))) by (f_equal; lia).
  replace ez with (- Z.of_N (Z.to_N (- ez))) at 2 by lia.
  by apply binary_normalize_shiftl.
Qed.

Lemma add_of_Z (a b : Z) :
  Z.abs a < 2 ^ 53 → Z.abs b < 2 ^ 53 → Z.abs (a + b) < 2 ^ 53 →
  add (of_Z a) (of_Z b) = of_Z (a + b).
Proof.
  intros Ha Hb Hab. rewrite !of_Z_canonZ by done.
  assert (∀ (sa sb : bool) (pa pb : positive),
    Z.pos (digits2_pos pa) ≤ 53 → Z.pos (digits2_pos pb) ≤ 53 →
    Z.abs (cond_Zopp sa (Z.pos pa) + cond_Zopp sb (Z.pos pb)) < 2 ^ 53 →
    add (canon sa pa) (canon sb pb)
    = canonZ (cond_Zopp sa (Z.pos pa) + cond_Zopp sb (Z.pos pb))) as Hfin.
  { intros sa sb pa pb Hda Hdb Hsum.
    apply (aligned_of_Z Z.add sa sb pa pb); [intros; lia|done|done|done]. }
  destruct a as [|pa|pa], b as [|pb|pb]; try done.
  - apply (Hfin false false); [apply digits2_pos_le; lia..|done].
  - apply (Hfin false true); [apply digits2_pos_le; lia..|done].
  - apply (Hfin true false); [apply digits2_pos_le; lia..|done].
  - apply (Hfin true true); [apply digits2_pos_le; lia..|done].
Qed.

Lemma sub_of_Z (a b : Z) :
  Z.abs a < 2 ^ 53 → Z.abs b < 2 ^ 53 → Z.abs (a - b) < 2 ^ 53 →
  sub (of_Z a) (of_Z b) = of_Z (a - b).
Proof.
  intros Ha Hb Hab. rewrite !of_Z_canonZ by done.
  assert (∀ (sa sb : bool) (pa pb : positive),
    Z.pos (digits2_pos pa) ≤ 53 → Z.pos (digits2_pos pb) ≤ 53 →
    Z.abs (cond_Zopp sa (Z.pos pa) - cond_Zopp sb (Z.pos pb)) < 2 ^ 53 →
    sub (canon sa pa) (canon sb pb)
    = canonZ (cond_Zopp sa (Z.pos pa) - cond_Zopp sb (Z.pos pb))) as Hfin.
  { intros sa sb pa pb Hda Hdb Hsum.
    apply (aligned_of_Z Z.sub sa sb pa pb); [intros; lia|done|done|done]. }
  destruct a as [|pa|pa], b as [|pb|pb]; try done.
  - apply (Hfin false false); [apply digits2_pos_le; lia..|done].
  - apply (Hfin false true); [apply digits2_pos_le; lia..|done].
  - apply (Hfin true false); [apply digits2_pos_le; lia..|done].
  - apply (Hfin true true); [apply digits2_pos_le; lia..|done].
Qed.

(** [0 < t] on doubles that hold integers. *)
Lemma ltb_zero_of_Z (t : Z) : Z.abs t < 2 ^ 53 → ltb (of_Z 0) (of_Z t) = (0 <? t).
Proof. intros Ht. rewrite (of_Z_canonZ t) by done. by destruct t. Qed.

(** ** Signs *)

Lemma shr_1_nonneg (mrs : shr_record) : 0 ≤ shr_m mrs → 0 ≤ shr_m (shr_1 mrs).
Proof.
  destruct mrs as [m r s]. cbn [shr_m]. intros Hm.
  destruct m as [|[p|p|]|p]; cbn [shr_1 shr_m]; lia.
Qed.

Lemma shr_nonneg (mrs : shr_record) (e n : Z) :
  0 ≤ shr_m mrs → 0 ≤ shr_m (fst (shr mrs e n)).
Proof.
  intros Hm. destruct n as [|p|p]; cbn [shr fst]; [done| |done].
  rewrite iter_pos_nat. induction (Pos.to_nat p) as [|k IH]; [done|].
  cbn [Nat.iter]. by apply shr_1_nonneg.
Qed.

Lemma shr_fexp_nonneg (m e : Z) (l : location) :
  0 ≤ m → 0 ≤ shr_m (fst (shr_fexp 53 1024 m e l)).
Proof.
  intros Hm. unfold shr_fexp. apply shr_nonneg.
  destruct l as [|[]]; cbn [shr_record_of_loc shr_m]; done.
Qed.

Lemma round_nearest_even_nonneg (m : Z) (l : location) :
  0 ≤ m → 0 ≤ round_nearest_even m l.
Proof.
  intros Hm. destruct l as [|[]]; cbn [round_nearest_even]; [done| |done|lia].
  destruct (Z.even m); lia.
Qed.

(** Rounding a mantissa that is not negative gives a number, of the sign
    asked for. *)
Lemma binary_round_aux_non_negative (m e : Z) (l : location) :
  0 ≤ m → non_negative (binary_round_aux 53 1024 false m e l).
Proof.
  intros Hm. unfold binary_round_aux.
  pose proof (shr_fexp_nonneg m e l Hm) as H1.
  destruct (shr_fexp 53 1024 m e l) as [mrs' e']. cbn [fst] in H1.
  pose proof (shr_fexp_nonneg (round_nearest_even (shr_m mrs') (loc_of_shr_record mrs'))
                e' loc_Exact) as H2.
  destruct (shr_fexp 53 1024 _ e' loc_Exact) as [mrs'' e'']. cbn [fst] in H2.
  specialize (H2 (round_nearest_even_nonneg _ _ H1)).
  destruct (shr_m mrs'') as [|p|p]; [done| |lia].
  by destruct (e'' <=? 1024 - 53).
Qed.

Lemma binary_round_aux_negative (m e : Z) (l : location) :
  negative_or_NaN (binary_round_aux 53 1024 true m e l).
Proof.
  unfold binary_round_aux.
  destruct (shr_fexp 53 1024 m e l) as [mrs' e'].
  destruct (shr_fexp 53 1024 _ e' loc_Exact) as [mrs'' e''].
  destruct (shr_m mrs'') as [|p|p]; [done| |done].
  by destruct (e'' <=? 1024 - 53).
Qed.

Lemma of_Z_non_negative (z : Z) : 0 ≤ z → non_negative (of_Z z).
Proof.
  intros Hz. destruct z as [|p|p]; [done| |lia].
  unfold of_Z, binary_normalize, binary_round.
  destruct (shl_align p 0 _) as [mz ez]. by apply binary_round_aux_non_negative.
Qed.

Lemma of_Z_positive_finite (z : Z) : 0 < z < 2 ^ 53 → positive_finite (of_Z z).
Proof.
  intros Hz. rewrite of_Z_canonZ by lia. destruct z as [|p|p]; [lia|done|lia].
Qed.

Lemma of_Z_negative (z : Z) : - 2 ^ 53 < z < 0 → negative_or_NaN (of_Z z).
Proof.
  intros Hz. rewrite of_Z_canonZ by lia. destruct z as [|p|p]; [lia|lia|done].
Qed.

Lemma add_non_negative (x y : number) :
  non_negative x → non_negative y → non_negative (add x y).
Proof.
  destruct x as [[]|[]| |[] mx ex], y as [[]|[]| |[] my ey]; try done.
  intros _ _. unfold add, SFadd. cbn [cond_Zopp].
  set (ez := Z.min ex ey).
  destruct (Z.pos (fst (shl_align mx ex ez)) + Z.pos (fst (shl_align my ey ez)))
    as [|p|p] eqn:Hsum; [done| |lia].
  unfold binary_normalize, binary_round.
  destruct (shl_align p ez _) as [mz ez']. by apply binary_round_aux_non_negative.
Qed.

Lemma mul_non_negative (x y : number) :
  non_negative x → positive_finite y → non_negative (mul x y).
Proof.
  destruct x as [[]|[]| |[] mx ex], y as [[]|[]| |[] my ey]; try done.
  intros _ _. unfold mul, SFmul. cbn [xorb]. by apply binary_round_aux_non_negative.
Qed.

Lemma mul_negative (x y : number) :
  negative_or_NaN x → positive_finite y → negative_or_NaN (mul x y).
Proof.
  destruct x as [[]|[]| |[] mx ex], y as [[]|[]| |[] my ey]; try done.
  intros _ _. unfold mul, SFmul. cbn [xorb]. apply binary_round_aux_negative.
Qed.

Lemma div_non_negative (x y : number) :
  non_negative x → positive_finite y → non_negative (div x y).
Proof.
  destruct x as [[]|[]| |[] mx ex], y as [[]|[]| |[] my ey]; try done.
  intros _ _. unfold div, SFdiv, SFdiv_core_binary. cbn [xorb].
  set (m' := match _ with Z.pos _ => _ | _ => _ end).
  assert (0 ≤ m') as Hm'.
  { unfold m'. destruct (_ - _ - _) as [|s|s]; [lia| |lia].
    apply Z.shiftl_nonneg. lia. }
  assert (Z.pos my > 0) as Hmy by lia.
  pose proof (Z_div_mod m' (Z.pos my) Hmy) as Hdiv.
  destruct (Z.div_eucl m' (Z.pos my)) as [q r].
  apply binary_round_aux_non_negative. nia.
Qed.

Lemma div_negative (x y : number) :
  negative_or_NaN x → positive_finite y → negative_or_NaN (div x y).
Proof.
  destruct x as [[]|[]| |[] mx ex], y as [[]|[]| |[] my ey]; try done.
  intros _ _. unfold div, SFdiv. cbn [xorb].
  destruct (SFdiv_core_binary 53 1024 (Z.pos mx) ex (Z.pos my) ey) as [[mz ez] lz].
  apply binary_round_aux_negative.
Qed.


(** A number that is not negative is not below 0, and is above 0 as soon
    as its absolute value is above some positive number. *)
Lemma non_negative_ltb (x b : number) :
  non_negative x →
  ltb x (of_Z 0) = false
  ∧ (positive_finite b → ltb b (Math_abs x) = true → ltb (of_Z 0) x = true).
Proof.
  destruct x as [[]|[]| |[] m e]; try done; intros _; (split; [done|]);
    destruct b as [[]|[]| |[] mb eb]; done.
Qed.

Lemma negative_or_NaN_ltb (x : number) : negative_or_NaN x → ltb (of_Z 0) x = false.
Proof. by destruct x as [[]|[]| |[] m e]. Qed.

(** Summing integers from an integer. *)
Lemma fold_add_of_Z (l : list Z) (a : Z) :
  0 ≤ a → Forall (λ c, 0 ≤ c) l → a + Zsum l < 2 ^ 53 →
  fold_left (λ sum c, add sum (of_Z c)) l (of_Z a) = of_Z (a + Zsum l).
Proof.
  revert a. induction l as [|c l IH]; intros a Ha Hl Hsum; simpl in *.
  - f_equal. lia.
  - apply Forall_cons in Hl as [Hc Hl].
    pose proof (StatsFacts.Zsum_nonneg l Hl) as Hnn.
    rewrite add_of_Z by lia. rewrite IH by (done || lia). f_equal. lia.
Qed.

Lemma Nsum_of_Z (l : list Z) :
  Forall (λ c, 0 ≤ c) l → Zsum l < 2 ^ 53 → Nsum l = of_Z (Zsum l).
Proof. intros Hl Hsum. unfold Nsum. by rewrite fold_add_of_Z by (done || lia). Qed.

End NumberFacts.

(* ===================================================================== *)
(** * Rounding and integer bounds *)
(* ===================================================================== *)

(** The operations round to nearest, so a result never leaves an interval
    between two integers below [2^53] that the exact value lies in. *)

Module RoundingFacts.
Import Number NumberFacts.

Lemma shr_1_spec (m : Z) (r s : bool) :
  0 ≤ m →
  shr_1 {| shr_m := m; shr_r := r; shr_s := s |}
  = {| shr_m := m / 2; shr_r := Z.odd m; shr_s := r || s |}.
Proof.
  intros Hm. destruct m as [|[p|p|]|p]; try lia; cbn [shr_1 Z.odd]; f_equal.
  - apply Z.div_unique with 1; lia.
  - apply Z.div_unique with 0; lia.
Qed.

Lemma shr_iter (n : nat) (m : Z) (r s : bool) :
  0 ≤ m →
  let mrs := Nat.iter n shr_1 {| shr_m := m; shr_r := r; shr_s := s |} in
  shr_m mrs = m / 2 ^ Z.of_nat n
  ∧ (r = false → s = false → m mod 2 ^ Z.of_nat n = 0 →
     shr_r mrs = false ∧ shr_s mrs = false).
Proof.
  intros Hm. cbv zeta. induction n as [|n [IHm IHl]].
  - cbn [Nat.iter nat_rect shr_m shr_r shr_s]. change (2 ^ Z.of_nat 0) with 1.
    rewrite Z.div_1_r. split; [done|]. by intros -> ->.
  - rewrite Nat.iter_succ. destruct (Nat.iter n shr_1 _) as [m' r' s'] eqn:Hit.
    cbn [shr_m shr_r shr_s] in IHm, IHl. subst m'.
    assert (0 < 2 ^ Z.of_nat n) as Hpow by (apply Z.pow_pos_nonneg; lia).
    rewrite shr_1_spec by (apply Z.div_pos; lia).
    cbn [shr_m shr_r shr_s].
    rewrite Nat2Z.inj_succ, Z.pow_succ_r by lia.
    split.
    + rewrite Z.div_div by lia. f_equal. lia.
    + intros Hr Hs Hmod.
      assert (m mod 2 ^ Z.of_nat n = 0) as Hmod'.
      { apply Z.mod_divide in Hmod; [|lia]. apply Z.mod_divide; [lia|].
        destruct Hmod as [k Hk]. exists (k * 2). lia. }
      destruct (IHl Hr Hs Hmod') as [-> ->]. split; [|done].
      apply Z.mod_divide in Hmod; [|lia]. destruct Hmod as [k Hk].
      replace (m / 2 ^ Z.of_nat n) with (2 * k).
      * by rewrite Z.odd_mul.
      * apply Z.div_unique with 0; lia.
Qed.

Lemma Zdigits2_bounds (m : Z) :
  0 < m → 2 ^ (Zdigits2 m - 1) ≤ m < 2 ^ Zdigits2 m.
Proof.
  intros Hm. destruct m as [|p|p]; [lia| |lia]. apply digits2_pos_bounds.
Qed.

Lemma Zdigits2_nonneg (m : Z) : 0 ≤ Zdigits2 m.
Proof. destruct m; simpl; lia. Qed.

Lemma Zdigits2_le (m k : Z) : 0 ≤ m → 0 ≤ k → m < 2 ^ k → Zdigits2 m ≤ k.
Proof.
  intros Hm Hk Hlt. destruct m as [|p|p]; [done| |lia]. by apply digits2_pos_le.
Qed.

Lemma Zdigits2_pow (k : Z) : 0 ≤ k → Zdigits2 (2 ^ k) = k + 1.
Proof.
  intros Hk. assert (0 < 2 ^ k) as Hpos by (apply Z.pow_pos_nonneg; lia).
  pose proof (Zdigits2_bounds (2 ^ k) Hpos) as [Hlo Hhi].
  pose proof (Zdigits2_nonneg (2 ^ k)) as Hd.
  apply Z.pow_lt_mono_r_iff in Hhi; [|lia|lia].
  destruct (decide (Zdigits2 (2 ^ k) - 1 ≤ k)) as [|Hgt]; [lia|].
  exfalso. assert (2 ^ (k + 1) ≤ 2 ^ (Zdigits2 (2 ^ k) - 1)) by (apply Z.pow_le_mono_r; lia).
  rewrite Z.pow_add_r in * by lia. lia.
Qed.

Lemma loc_of_shr_record_of_loc (m : Z) (l : location) :
  loc_of_shr_record (shr_record_of_loc m l) = l.
Proof. by destruct l as [|[]]. Qed.

Lemma shr_fexp_spec (m e : Z) (l : location) :
  0 ≤ m →
  let n := shift_amount m e in
  let mrs := fst (shr_fexp 53 1024 m e l) in
  let e' := snd (shr_fexp 53 1024 m e l) in
  (n ≤ 0 → shr_m mrs = m ∧ e' = e ∧ loc_of_shr_record mrs = l)
  ∧ (0 < n → shr_m mrs = m / 2 ^ n ∧ e' = e + n
       ∧ (l = loc_Exact → m mod 2 ^ n = 0 → loc_of_shr_record mrs = loc_Exact)).
Proof.
  intros Hm n mrs e'. subst mrs e'. unfold shr_fexp. fold (shift_amount m e). fold n.
  assert (shr_m (shr_record_of_loc m l) = m) as Hrec by (by destruct l as [|[]]).
  destruct n as [|p|p] eqn:Hn; cbn [shr fst snd].
  - split; [|lia]. intros _. by rewrite loc_of_shr_record_of_loc.
  - split; [lia|]. intros _. rewrite iter_pos_nat.
    destruct (shr_record_of_loc m l) as [m0 r0 s0] eqn:Hl0. cbn [shr_m] in Hrec. subst m0.
    destruct (shr_iter (Pos.to_nat p) m r0 s0 Hm) as [Hshift Hexact].
    rewrite positive_nat_Z in Hshift, Hexact.
    split; [done|]. split; [done|].
    intros -> Hmod. cbn [shr_record_of_loc] in Hl0. injection Hl0 as <- <-.
    destruct (Hexact eq_refl eq_refl Hmod) as [Hr Hs].
    destruct (Nat.iter _ _ _) as [m1 r1 s1]. cbn [shr_r shr_s] in Hr, Hs.
    by subst r1 s1.
  - split; [|lia]. intros _. by rewrite loc_of_shr_record_of_loc.
Qed.

Lemma round_nearest_even_bounds (m : Z) (l : location) :
  m ≤ round_nearest_even m l ≤ m + 1 ∧ (l = loc_Exact → round_nearest_even m l = m).
Proof.
  destruct l as [|[]]; cbn [round_nearest_even]; try (split; [lia|done]).
  split; [|done]. destruct (Z.even m); lia.
Qed.

Lemma pow2_pos (k : Z) : 0 ≤ k → 0 < 2 ^ k.
Proof. intros. apply Z.pow_pos_nonneg; lia. Qed.

Lemma pow2_split (a b : Z) : 0 ≤ a → 0 ≤ b → 2 ^ (a + b) = 2 ^ a * 2 ^ b.
Proof. intros. by apply Z.pow_add_r. Qed.

(** The first shift of [binary_round_aux]: what is left is below [2^53],
    at an exponent that is not below the least one, and on the same side
    of the bounds. *)
Lemma first_shift_between (m e : Z) (l : location) (K1 K2 : Z) :
  0 ≤ m → 0 ≤ K1 → K2 < 2 ^ 53 →
  dyadic_ge m e K1 → below m e l K2 →
  let mrs := fst (shr_fexp 53 1024 m e l) in
  let e1 := snd (shr_fexp 53 1024 m e l) in
  let m1 := shr_m mrs in
  let l1 := loc_of_shr_record mrs in
  0 ≤ m1 < 2 ^ 53 ∧ -1074 ≤ e1
  ∧ (e1 ≤ 0 →
     K1 * 2 ^ (- e1) ≤ m1
     ∧ (m1 < K2 * 2 ^ (- e1) ∨ (m1 = K2 * 2 ^ (- e1) ∧ l1 = loc_Exact)))
  ∧ (0 < e1 → l1 = loc_Exact ∧ K1 ≤ m1 * 2 ^ e1 ≤ K2).
Proof.
  intros Hm HK1 HK2 Hge Hle mrs e1 m1 l1.
  pose proof (shr_fexp_spec m e l Hm) as [Hstay Hshift]. cbv zeta in Hstay, Hshift.
  fold mrs e1 in Hstay, Hshift. fold m1 l1 in Hstay, Hshift.
  unfold shift_amount, fexp, emin in Hstay, Hshift.
  set (d := Zdigits2 m) in *.
  assert (0 ≤ d) as Hd by apply Zdigits2_nonneg.
  assert (0 < m → 2 ^ (d - 1) ≤ m < 2 ^ d) as Hdigits by apply Zdigits2_bounds.
  unfold dyadic_ge in Hge. unfold below in Hle.
  destruct (decide (Z.max (d + e - 53) (3 - 1024 - 53) - e ≤ 0)) as [Hn|Hn].
  - destruct (Hstay Hn) as (-> & -> & ->). clear Hstay Hshift.
    assert (m < 2 ^ 53) as Hm53.
    { destruct (decide (m = 0)) as [->|Hne]; [done|].
      assert (2 ^ d ≤ 2 ^ 53) by (apply Z.pow_le_mono_r; lia). lia. }
    split; [lia|]. split; [lia|]. split.
    + intros He. rewrite (proj2 (Z.leb_le e 0) He) in Hge, Hle. done.
    + intros He. rewrite (proj2 (Z.leb_gt e 0) He) in Hge, Hle.
      destruct Hle as [-> Hle]. done.
  - destruct Hshift as (Hm1 & He1 & Hl1); [lia|]. clear Hstay.
    set (n := Z.max (d + e - 53) (3 - 1024 - 53) - e) in *.
    assert (0 < 2 ^ n) as Hpow by (apply pow2_pos; lia).
    assert (m1 < 2 ^ 53) as Hm53.
    { rewrite Hm1. apply Z.div_lt_upper_bound; [done|].
      destruct (decide (m = 0)) as [->|Hne]; [lia|].
      assert (2 ^ d ≤ 2 ^ (n + 53)) by (apply Z.pow_le_mono_r; lia).
      rewrite pow2_split in * by lia. lia. }
    assert (0 ≤ m1) as Hm1pos by (rewrite Hm1; apply Z.div_pos; lia).
    split; [lia|]. split; [lia|]. split.
    + intros He1neg.
      assert (e ≤ 0) as He by lia.
      rewrite (proj2 (Z.leb_le e 0) He) in Hge, Hle.
      assert (2 ^ (- e) = 2 ^ n * 2 ^ (- e1)) as Hsplit.
      { rewrite <- pow2_split by lia. f_equal. lia. }
      rewrite Hsplit in Hge, Hle.
      split.
      * rewrite Hm1. apply Z.div_le_lower_bound; [done|]. lia.
      * destruct Hle as [Hlt|[Heq Hexact]].
        -- left. rewrite Hm1. apply Z.div_lt_upper_bound; [done|]. lia.
        -- right. rewrite Hm1.
           assert (m = K2 * 2 ^ (- e1) * 2 ^ n) as Hmul by lia.
           split.
           ++ rewrite Hmul. by rewrite Z.div_mul by lia.
           ++ apply Hl1; [done|]. rewrite Hmul. by rewrite Z.mod_mul by lia.
    + intros He1pos. exfalso.
      assert (n = d - 53 ∧ e1 = d + e - 53) as [Hnd He1d] by lia.
      assert (0 < m) as Hmpos.
      { destruct (decide (m = 0)) as [Hz|]; [|lia]. subst m. unfold d in *. simpl in *. lia. }
      destruct (Hdigits Hmpos) as [Hlo Hhi].
      assert (2 ^ 53 ≤ 2 ^ (d - 1)) as H53 by (apply Z.pow_le_mono_r; lia).
      destruct (Z.leb_spec e 0) as [He|He].
      * assert (m < 2 ^ 53 * 2 ^ (- e)) as Hup.
        { assert (0 < 2 ^ (- e)) by (apply pow2_pos; lia).
          destruct Hle as [Hlt|[Heq _]]; nia. }
        rewrite <- pow2_split in Hup by lia.
        assert (2 ^ (d - 1) < 2 ^ (53 + - e)) as Hcmp by lia.
        apply Z.pow_lt_mono_r_iff in Hcmp; lia.
      * destruct Hle as [_ Hle].
        assert (1 ≤ 2 ^ e) by (assert (0 < 2 ^ e) by (apply pow2_pos; lia); lia).
        nia.
Qed.

(** Rounding keeps a value between the integers below [2^53] it lies
    between. *)
Lemma binary_round_aux_between (m e : Z) (l : location) (K1 K2 : Z) :
  0 ≤ m → 0 ≤ K1 → K2 < 2 ^ 53 →
  dyadic_ge m e K1 → below m e l K2 →
  between (binary_round_aux 53 1024 false m e l) K1 K2.
Proof.
  intros Hm HK1 HK2 Hge Hle.
  pose proof (first_shift_between m e l K1 K2 Hm HK1 HK2 Hge Hle) as Hfirst.
  cbv zeta in Hfirst. unfold binary_round_aux.
  destruct (shr_fexp 53 1024 m e l) as [mrs1 e1]. cbn [fst snd] in Hfirst.
  destruct Hfirst as (Hm1 & He1 & Hneg & Hpos).
  pose proof (round_nearest_even_bounds (shr_m mrs1) (loc_of_shr_record mrs1))
    as [Hrne Hexact].
  set (m2 := round_nearest_even (shr_m mrs1) (loc_of_shr_record mrs1)) in *.
  assert (0 ≤ m2 ≤ 2 ^ 53) as Hm2 by lia.
  assert (e1 ≤ 0 → K1 * 2 ^ (- e1) ≤ m2 ≤ K2 * 2 ^ (- e1)) as Hneg2.
  { intros He. destruct (Hneg He) as [Hlo [Hlt|[Heq Hl1]]]; [lia|].
    rewrite (Hexact Hl1) in *. lia. }
  assert (0 < e1 → K1 ≤ m2 * 2 ^ e1 ≤ K2) as Hpos2.
  { intros He. destruct (Hpos He) as [Hl1 Hb]. by rewrite (Hexact Hl1) in *. }
  clear Hneg Hpos Hrne Hexact Hm1.
  pose proof (shr_fexp_spec m2 e1 loc_Exact (proj1 Hm2)) as [Hstay Hshift].
  cbv zeta in Hstay, Hshift. unfold shift_amount, fexp, emin in Hstay, Hshift.
  destruct (shr_fexp 53 1024 m2 e1 loc_Exact) as [mrs3 e3]. cbn [fst snd] in Hstay, Hshift.
  assert (0 ≤ K2) as HK2pos.
  { destruct (Z.leb_spec e1 0) as [He|He].
    - assert (0 < 2 ^ (- e1)) by (apply pow2_pos; lia). specialize (Hneg2 He). nia.
    - assert (0 < 2 ^ e1) by (apply pow2_pos; lia). specialize (Hpos2 He). nia. }
  assert (shr_m mrs3 * 2 ^ (e3 - e1) = m2 ∧ e1 ≤ e3 ≤ e1 + 1) as [Hval He3].
  { destruct (decide (m2 = 2 ^ 53)) as [Hfull|Hnot].
    - rewrite Hfull, (Zdigits2_pow 53) in Hshift by lia.
      destruct Hshift as (-> & -> & _); [lia|]. rewrite Hfull.
      replace (Z.max (53 + 1 + e1 - 53) (3 - 1024 - 53) - e1) with 1 by lia.
      replace (e1 + 1 - e1) with 1 by lia. split; [done|lia].
    - assert (Zdigits2 m2 ≤ 53) as Hd by (apply Zdigits2_le; lia).
      destruct Hstay as (-> & -> & _); [lia|].
      rewrite Z.sub_diag. split; lia. }
  set (m3 := shr_m mrs3) in *.
  assert (0 ≤ m3) as Hm3.
  { assert (0 < 2 ^ (e3 - e1)) by (apply pow2_pos; lia). nia. }
  assert (dyadic_ge m3 e3 K1 ∧ dyadic_le m3 e3 K2 ∧ (0 < m3 → e3 ≤ 1024 - 53))
    as (Hge3 & Hle3 & Hfin).
  { unfold dyadic_ge, dyadic_le.
    destruct (decide (e3 = e1)) as [->|Hne].
    - rewrite Z.sub_diag, Z.mul_1_r in Hval. subst m3. rewrite Hval.
      destruct (Z.leb_spec e1 0) as [He|He].
      + specialize (Hneg2 He). split; [lia|]. split; lia.
      + specialize (Hpos2 He). split; [lia|]. split; [lia|].
        intros Hpos3.
        assert (2 ^ e1 < 2 ^ 53) as Hcmp.
        { assert (0 < 2 ^ e1) by (apply pow2_pos; lia). nia. }
        apply Z.pow_lt_mono_r_iff in Hcmp; lia.
    - assert (e3 = e1 + 1) as -> by lia.
      replace (e1 + 1 - e1) with 1 in Hval by lia. change (2 ^ 1) with 2 in Hval.
      destruct (Z.leb_spec (e1 + 1) 0) as [He|He].
      + assert (e1 ≤ 0) as He1' by lia. specialize (Hneg2 He1').
        assert (2 ^ (- e1) = 2 * 2 ^ (- (e1 + 1))) as Hsplit.
        { replace (- e1) with (1 + - (e1 + 1)) by lia. by rewrite pow2_split by lia. }
        rewrite Hsplit in Hneg2. split; [lia|]. split; lia.
      + destruct (decide (e1 = 0)) as [->|He0].
        * assert (0 ≤ 0) as He1' by lia. specialize (Hneg2 He1').
          change (2 ^ (- 0)) with 1 in Hneg2. change (2 ^ (0 + 1)) with 2.
          split; [lia|]. split; lia.
        * assert (0 < e1) as He1' by lia. specialize (Hpos2 He1').
          rewrite pow2_split by lia. change (2 ^ 1) with 2.
          split; [lia|]. split; [lia|].
          intros Hpos3.
          assert (2 ^ e1 < 2 ^ 53) as Hcmp.
          { assert (0 < 2 ^ e1) by (apply pow2_pos; lia). nia. }
          apply Z.pow_lt_mono_r_iff in Hcmp; lia. }
  destruct m3 as [|p|p] eqn:Hm3eq; [| |lia].
  - unfold dyadic_ge, dyadic_le in Hge3, Hle3. cbn [between].
    destruct (Z.leb_spec e3 0).
    + assert (0 < 2 ^ (- e3)) by (apply pow2_pos; lia). nia.
    + lia.
  - rewrite (proj2 (Z.leb_le e3 (1024 - 53))) by (apply Hfin; lia). done.
Qed.

(** ** Bounds through the operations *)

Lemma between_weaken (x : number) (lo hi lo' hi' : Z) :
  between x lo hi → lo' ≤ lo → hi ≤ hi' → between x lo' hi'.
Proof.
  destruct x as [s|s| |[] m e]; cbn [between]; try done; [lia|].
  unfold dyadic_ge, dyadic_le. intros [Hge Hle] Hlo Hhi.
  destruct (Z.leb_spec e 0).
  - assert (0 < 2 ^ (- e)) by (apply pow2_pos; lia). split; nia.
  - split; lia.
Qed.

Lemma between_of_Z (z : Z) : 0 ≤ z < 2 ^ 53 → between (of_Z z) z z.
Proof.
  intros Hz. rewrite of_Z_canonZ by lia. destruct z as [|p|p]; [done| |lia].
  cbn [canonZ]. unfold canon. cbn [between].
  assert (Z.pos (digits2_pos p) ≤ 53) as Hd by (apply digits2_pos_le; lia).
  unfold dyadic_ge, dyadic_le.
  rewrite (proj2 (Z.leb_le _ 0)) by lia.
  rewrite Zpos_shiftl, Z2N.id by lia.
  replace (- (Z.pos (digits2_pos p) - 53)) with (53 - Z.pos (digits2_pos p)) by lia.
  lia.
Qed.

Lemma dyadic_le_below (m e K : Z) : dyadic_le m e K → below m e loc_Exact K.
Proof.
  unfold dyadic_le, below. destruct (e <=? 0); [|done]. intros H.
  destruct (decide (m = K * 2 ^ (- e))); [by right | left; lia].
Qed.

(** Multiplying by the integer [c], held as [c * 2^a] at exponent [-a]. *)
Lemma dyadic_mul (m e K c a : Z) :
  0 ≤ c → 0 ≤ a →
  (dyadic_le m e K → dyadic_le (m * (c * 2 ^ a)) (e + - a) (K * c))
  ∧ (dyadic_ge m e K → dyadic_ge (m * (c * 2 ^ a)) (e + - a) (K * c)).
Proof.
  intros Hc Ha. unfold dyadic_le, dyadic_ge.
  assert (0 < 2 ^ a) as Hpa by (by apply pow2_pos).
  assert (∀ x y z : Z, 0 ≤ z → x ≤ y → x * z ≤ y * z) as Hmono.
  { intros x y z Hz Hxy. by apply Z.mul_le_mono_nonneg_r. }
  destruct (Z.leb_spec e 0) as [He|He].
  - rewrite (proj2 (Z.leb_le (e + - a) 0)) by lia.
    replace (- (e + - a)) with (- e + a) by lia. rewrite pow2_split by lia.
    assert (0 < 2 ^ (- e)) as Hpe by (apply pow2_pos; lia).
    set (P := 2 ^ (- e)) in *. set (A := 2 ^ a) in *.
    split; intros Hh; apply (Hmono _ _ (c * A)) in Hh; lia.
  - assert (0 < 2 ^ e) as Hpe by (apply pow2_pos; lia).
    destruct (Z.leb_spec (e + - a) 0) as [Hea|Hea].
    + assert (2 ^ a = 2 ^ e * 2 ^ (- (e + - a))) as ->.
      { rewrite <- pow2_split by lia. f_equal. lia. }
      assert (0 < 2 ^ (- (e + - a))) as Hpea by (apply pow2_pos; lia).
      set (P := 2 ^ e) in *. set (A := 2 ^ (- (e + - a))) in *.
      split; intros Hh; apply (Hmono _ _ (c * A)) in Hh; lia.
    + assert (2 ^ e = 2 ^ a * 2 ^ (e + - a)) as ->.
      { rewrite <- pow2_split by lia. f_equal. lia. }
      assert (0 < 2 ^ (e + - a)) as Hpea by (apply pow2_pos; lia).
      set (P := 2 ^ (e + - a)) in *. set (A := 2 ^ a) in *.
      split; intros Hh; apply (Hmono _ _ c) in Hh; lia.
Qed.

Lemma canon_as_product (p : positive) :
  Z.pos (digits2_pos p) ≤ 53 →
  canon false p
  = S754_finite false (Pos.shiftl p (Z.to_N (53 - Z.pos (digits2_pos p))))
      (- (53 - Z.pos (digits2_pos p)))
  ∧ Z.pos (Pos.shiftl p (Z.to_N (53 - Z.pos (digits2_pos p))))
    = Z.pos p * 2 ^ (53 - Z.pos (digits2_pos p))
  ∧ 0 ≤ 53 - Z.pos (digits2_pos p).
Proof.
  intros Hd. split; [|split; [|lia]].
  - unfold canon. f_equal. lia.
  - by rewrite Zpos_shiftl, Z2N.id by lia.
Qed.

(** [x * c] for an integer [c]. *)
Lemma mul_between (x : number) (c K1 K2 : Z) :
  0 < c < 2 ^ 53 → 0 ≤ K1 → K2 * c < 2 ^ 53 →
  between x K1 K2 → between (mul x (of_Z c)) (K1 * c) (K2 * c).
Proof.
  intros Hc HK1 HK2 Hx. rewrite (of_Z_canonZ c) by lia.
  destruct c as [|pc|pc]; [lia| |lia]. cbn [canonZ].
  destruct (canon_as_product pc) as (-> & Hmant & Ha); [apply digits2_pos_le; lia|].
  set (a := 53 - Z.pos (digits2_pos pc)) in *.
  set (mc := Pos.shiftl pc (Z.to_N a)) in *.
  destruct x as [s|s| |[] mx ex]; cbn [between] in Hx; try done.
  - unfold mul, SFmul. cbn [between]. nia.
  - destruct Hx as [Hge Hle]. unfold mul, SFmul. cbn [xorb].
    rewrite Pos2Z.inj_mul, Hmant.
    destruct (dyadic_mul (Z.pos mx) ex K1 (Z.pos pc) a) as [_ Hge']; [lia..|].
    destruct (dyadic_mul (Z.pos mx) ex K2 (Z.pos pc) a) as [Hle' _]; [lia..|].
    apply binary_round_aux_between; [lia|nia|done|by apply Hge'|].
    by apply dyadic_le_below, Hle'.
Qed.

(** [Math.round(x)]. *)
Lemma Math_round_between (x : number) (K1 K2 : Z) :
  0 ≤ K1 → K2 < 2 ^ 53 → between x K1 K2 → between (Math_round x) K1 K2.
Proof.
  intros HK1 HK2 Hx. destruct x as [s|s| |[] m e]; cbn [between] in Hx; try done.
  unfold Math_round. destruct (Z.leb_spec 0 e) as [He|He]; [done|].
  destruct Hx as [Hge Hle]. unfold dyadic_ge, dyadic_le in Hge, Hle.
  rewrite (proj2 (Z.leb_le e 0)) in Hge, Hle by lia.
  cbn [cond_Zopp]. rewrite Z.shiftr_div_pow2 by lia.
  assert (2 ^ (- e) = 2 * 2 ^ (- e - 1)) as Hsplit.
  { replace (- e) with (1 + (- e - 1)) at 1 by lia. by rewrite pow2_split by lia. }
  assert (0 < 2 ^ (- e - 1)) as Hhalf by (apply pow2_pos; lia).
  set (n := (Z.pos m + 2 ^ (- e - 1)) / 2 ^ (- e)).
  assert (K1 ≤ n ≤ K2) as Hn.
  { unfold n. split.
    - apply Z.div_le_lower_bound; lia.
    - apply Z.lt_succ_r. apply Z.div_lt_upper_bound; lia. }
  destruct (Z.eqb_spec n 0) as [Hz|Hnz].
  - cbn [between]. lia.
  - apply (between_weaken _ n n); [|lia|lia]. apply between_of_Z. lia.
Qed.

Lemma new_location_exact (nb_steps : Z) : new_location nb_steps 0 = loc_Exact.
Proof.
  unfold new_location, new_location_even, new_location_odd. by destruct (Z.even nb_steps).
Qed.

(** [x / b] for an integer [b]. *)
Lemma div_between (x : number) (b K1 K2 : Z) :
  0 < b < 2 ^ 53 → 0 ≤ K1 → K2 < 2 ^ 53 →
  between x (K1 * b) (K2 * b) → between (div x (of_Z b)) K1 K2.
Proof.
  intros Hb HK1 HK2 Hx. rewrite (of_Z_canonZ b) by lia.
  destruct b as [|pb|pb]; [lia| |lia]. cbn [canonZ].
  assert (Z.pos (digits2_pos pb) ≤ 53) as Hdb by (apply digits2_pos_le; lia).
  destruct (canon_as_product pb Hdb) as (-> & Hmant & Ha).
  pose proof (digits2_pos_shiftl pb (Z.to_N (53 - Z.pos (digits2_pos pb)))) as Hdy.
  rewrite Z2N.id in Hdy by lia.
  set (a := 53 - Z.pos (digits2_pos pb)) in *.
  set (my := Pos.shiftl pb (Z.to_N a)) in *.
  assert (Z.pos (digits2_pos my) = 53) as Hd2 by lia. clear Hdy.
  assert (0 < 2 ^ a) as Hpa by (by apply pow2_pos).
  destruct x as [s|s| |[] mx ex]; cbn [between] in Hx; try done.
  { unfold div, SFdiv. cbn [between]. nia. }
  destruct Hx as [Hge Hle]. unfold div, SFdiv, SFdiv_core_binary. cbn [xorb Zdigits2].
  rewrite Hd2. unfold fexp, emin.
  set (d1 := Z.pos (digits2_pos mx)).
  pose proof (digits2_pos_bounds mx) as [Hlo1 Hhi1]. fold d1 in Hlo1, Hhi1.
  assert (1 ≤ d1) as Hd1 by (unfold d1; lia).
  set (e' := Z.min (Z.max (d1 + ex - (53 + - a) - 53) (3 - 1024 - 53)) (ex - - a)).
  set (s := ex - - a - e').
  assert (0 ≤ s) as Hs by (unfold s, e'; lia).
  set (m' := match s with Z.pos _ => Z.shiftl (Z.pos mx) s | 0 => Z.pos mx | Z.neg _ => 0 end).
  assert (m' = Z.pos mx * 2 ^ s) as Hm'.
  { unfold m'. destruct s as [|ps|ps] eqn:Hseq; [simpl; lia| |lia].
    by rewrite Z.shiftl_mul_pow2 by lia. }
  clearbody m'.
  assert (0 < 2 ^ s) as Hps by (by apply pow2_pos).
  (* the value is below [2^53 * b] *)
  assert (e' ≤ 0) as He'.
  { assert (d1 + ex - (53 + - a) ≤ 53); [|unfold e'; lia].
    assert (Z.pos pb < 2 ^ (53 - a)) as Hbhi.
    { pose proof (digits2_pos_bounds pb) as [_ Hhi]. by replace (53 - a) with (Z.pos (digits2_pos pb)) by lia. }
    assert (0 < 2 ^ (53 - a)) by (apply pow2_pos; lia).
    unfold dyadic_le in Hle.
    assert (∀ x k : Z, 0 < x → 0 < k → x ≤ K2 * Z.pos pb * k →
                       x < 2 ^ 53 * 2 ^ (53 - a) * k) as Hbelow.
    { intros x k Hx Hk Hmx.
      assert (0 < K2) as HK2pos by nia.
      assert (K2 * Z.pos pb < 2 ^ 53 * 2 ^ (53 - a)) as Hprod by nia.
      apply Z.le_lt_trans with (K2 * Z.pos pb * k); [done|].
      by apply Z.mul_lt_mono_pos_r. }
    destruct (Z.leb_spec ex 0) as [Hex|Hex].
    - assert (0 < 2 ^ (- ex)) as Hpex by (apply pow2_pos; lia).
      assert (2 ^ (d1 - 1) < 2 ^ (53 + (53 - a) + - ex)) as Hcmp.
      { rewrite !pow2_split by lia.
        assert (Z.pos mx < 2 ^ 53 * 2 ^ (53 - a) * 2 ^ (- ex)) by (apply Hbelow; lia).
        lia. }
      apply Z.pow_lt_mono_r_iff in Hcmp; lia.
    - assert (0 < 2 ^ ex) as Hpex by (apply pow2_pos; lia).
      assert (2 ^ (d1 - 1 + ex) < 2 ^ (53 + (53 - a))) as Hcmp.
      { rewrite !pow2_split by lia.
        assert (Z.pos mx * 2 ^ ex < 2 ^ 53 * 2 ^ (53 - a) * 1) as Hup.
        { apply Hbelow; nia. }
        assert (2 ^ (d1 - 1) * 2 ^ ex ≤ Z.pos mx * 2 ^ ex) as Hlow.
        { apply Z.mul_le_mono_nonneg_r; lia. }
        lia. }
      apply Z.pow_lt_mono_r_iff in Hcmp; lia. }
  assert (0 < 2 ^ (- e')) as Hpe' by (apply pow2_pos; lia).
  (* [m'] against the bounds, scaled *)
  assert (K1 * 2 ^ (- e') * Z.pos my ≤ m' ≤ K2 * 2 ^ (- e') * Z.pos my) as Hm'b.
  { rewrite Hm', Hmant. unfold dyadic_ge in Hge. unfold dyadic_le in Hle.
    destruct (Z.leb_spec ex 0) as [Hex|Hex].
    - assert (2 ^ (- e') * 2 ^ a = 2 ^ (- ex) * 2 ^ s) as Hpow.
      { rewrite <- !pow2_split by lia. f_equal. unfold s. lia. }
      assert (0 < 2 ^ (- ex)) by (apply pow2_pos; lia). nia.
    - assert (2 ^ s = 2 ^ ex * (2 ^ (- e') * 2 ^ a)) as Hpow.
      { rewrite <- !pow2_split by lia. f_equal. unfold s. lia. }
      assert (0 < 2 ^ ex) by (apply pow2_pos; lia). rewrite Hpow. nia. }
  assert (Z.pos my > 0) as Hmy by lia.
  pose proof (Z_div_mod m' (Z.pos my) Hmy) as Hdiv.
  destruct (Z.div_eucl m' (Z.pos my)) as [q r]. destruct Hdiv as [Hqr Hr].
  apply binary_round_aux_between; [nia|done|done| |].
  - unfold dyadic_ge. rewrite (proj2 (Z.leb_le e' 0)) by done. nia.
  - unfold below. rewrite (proj2 (Z.leb_le e' 0)) by done.
    destruct (decide (q < K2 * 2 ^ (- e'))) as [|Hnlt]; [by left|]. right.
    assert (q = K2 * 2 ^ (- e')) as Hq by nia.
    split; [done|]. assert (r = 0) as -> by nia. apply new_location_exact.
Qed.

End RoundingFacts.

(** ** Values *)

Module ValueFacts.
Import Number NumberFacts RoundingFacts.

Lemma Qpower2_pos (e : Z) : (0 < 2 ^ e)%Q.
Proof. by apply Qpower_0_lt. Qed.

Lemma inject_Z_pow2 (k : Z) : 0 ≤ k → (inject_Z (2 ^ k) == 2 ^ k)%Q.
Proof. intros Hk. by rewrite Zpower_Qpower. Qed.

Lemma Qpower2_opp (e : Z) : (2 ^ (- e) * 2 ^ e == 1)%Q.
Proof.
  rewrite Qpower_opp, Qmult_comm. apply Qmult_inv_r.
  pose proof (Qpower2_pos e). lra.
Qed.

Lemma dyadic_value (m e K : Z) :
  (dyadic_ge m e K → (inject_Z K <= inject_Z m * 2 ^ e)%Q)
  ∧ (dyadic_le m e K → (inject_Z m * 2 ^ e <= inject_Z K)%Q).
Proof.
  unfold dyadic_ge, dyadic_le. pose proof (Qpower2_pos e) as Hpe.
  destruct (Z.leb_spec e 0) as [He|He].
  - pose proof (Qpower2_opp e) as Hinv. pose proof (Qpower2_pos (- e)) as Hpne.
    split; intros H; rewrite Zle_Qle, inject_Z_mult, inject_Z_pow2 in H by lia.
    + apply (Qmult_le_compat_r _ _ (2 ^ e)) in H; [|lra].
      rewrite <- Qmult_assoc, Hinv, Qmult_1_r in H. done.
    + apply (Qmult_le_compat_r _ _ (2 ^ e)) in H; [|lra].
      rewrite <- Qmult_assoc, Hinv, Qmult_1_r in H. done.
  - split; intros H; rewrite Zle_Qle, inject_Z_mult, inject_Z_pow2 in H by lia; done.
Qed.

(** A number between two integers has a value, and it lies between
    them. *)
Lemma between_value (x : number) (lo hi : Z) :
  between x lo hi →
  ∃ q, value x = Some q ∧ (inject_Z lo <= q)%Q ∧ (q <= inject_Z hi)%Q.
Proof.
  destruct x as [s|s| |[] m e]; cbn [between]; try done.
  - intros [Hlo Hhi]. exists 0%Q. split; [done|].
    split; [change 0%Q with (inject_Z 0) | change 0%Q with (inject_Z 0)];
      by rewrite <- Zle_Qle.
  - intros [Hge Hle]. eexists. split; [reflexivity|].
    split; by apply dyadic_value.
Qed.

End ValueFacts.

(* ===================================================================== *)
(** * The logger: [log] and the retry queue *)
(* ===================================================================== *)

Module LoggerFacts.
Import Logger.

Example constructor_sample :
  constructor sample_rt ∅ "api-key" no_options = Return (sample_logger, sample_heap).
Proof. reflexivity. Qed.

(** ** The identity key *)

Lemma same_key_true (a b : LogData) : same_key a b = true ↔ key a = key b.
Proof.
  unfold same_key, key. rewrite andb_true_iff, !bool_decide_eq_true.
  split; [intros [-> ->]; done | intros [= -> ->]; done].
Qed.

Lemma same_key_false (a b : LogData) : same_key a b = false ↔ key a ≠ key b.
Proof.
  rewrite <- same_key_true. destruct (same_key a b); split; congruence.
Qed.

Lemma find_same_key_None (q : list RetryItem) (d : LogData) :
  List.find (λ item, same_key (logData item) d) q = None ↔ key d ∉ keys q.
Proof.
  unfold keys. induction q as [|item q IH]; simpl.
  - split; [intros _; apply not_elem_of_nil | done].
  - rewrite not_elem_of_cons. destruct (same_key (logData item) d) eqn:Hk.
    + apply same_key_true in Hk. split; [done | intros [Hne _]; congruence].
    + apply same_key_false in Hk. rewrite IH. split; [intros ?; split; congruence | tauto].
Qed.

Lemma find_same_key_Some (q : list RetryItem) (d : LogData) :
  key d ∈ keys q → ∃ item, List.find (λ item, same_key (logData item) d) q = Some item.
Proof.
  intros Hin. destruct (List.find _ q) as [item|] eqn:Hfind; [by exists item|].
  by apply find_same_key_None in Hfind.
Qed.

(** ** What [log_begin] leaves alone *)

Lemma log_begin_frame (rt : Runtime) (w w' : World) (d e : LogData) :
  log_begin rt w d = Some (w', e) →
  this w' = this w ∧ timers w' = timers w ∧ clock w' = clock w
  ∧ inflight w' = inflight w
  ∧ level_or_info d ∈ enabledLevels (this w)
  ∧ (∃ ctx, e = enhance (this w) d ctx)
  ∧ posted w' = posted w ++ match Client.posts (validatePayload (this w)) e with
                            | Some r => [r]
                            | None => []
                            end.
Proof.
  unfold log_begin. case_bool_decide as Hlvl; cbn [negb]; [|done].
  destruct (_buildContext rt (this w) (store w) (clock w) (context d)) as [ctx h].
  intros [= <- <-]. cbn.
  repeat split; try done. by exists ctx.
Qed.

Lemma log_begin_None (rt : Runtime) (w : World) (d : LogData) :
  log_begin rt w d = None ↔ level_or_info d ∉ enabledLevels (this w).
Proof.
  unfold log_begin. case_bool_decide as Hlvl; cbn [negb].
  - destruct (_buildContext rt (this w) (store w) (clock w) (context d)).
    split; [done | tauto].
  - split; [tauto | done].
Qed.

(** C10: when the level of the record, [info] if it has none, is not among
    the logger's enabled levels, [log] returns
    [{skipped: true, reason: "level_disabled"}] and changes nothing: no
    request is posted, nothing is printed, and the retry queue and the
    timers are as they were. *)
Theorem log_disabled_level_skips
    (rt : Runtime) (w : World) (d : LogData) (rc : nat) (http : AxiosOutcome) :
  level_or_info d ∉ enabledLevels (this w) →
  let '(w', r) := log rt w d rc http in
  r = Return (Skipped "level_disabled")
  ∧ posted w' = posted w
  ∧ console w' = console w
  ∧ retryQueue (this w') = retryQueue (this w)
  ∧ timers w' = timers w
  ∧ w' = w.
Proof.
  intros Hoff. unfold log. rewrite (proj2 (log_begin_None rt w d) Hoff). done.
Qed.

Lemma log_disabled_level_skips_witness :
  log sample_rt errors_only_world started 0 (Resolved VNull)
  = (errors_only_world, Return (Skipped "level_disabled")).
Proof.
  pose proof (log_disabled_level_skips sample_rt errors_only_world started 0
                (Resolved VNull)) as H.
  destruct (log sample_rt errors_only_world started 0 (Resolved VNull)) as [w' r].
  destruct H as (-> & _ & _ & _ & _ & ->); [|reflexivity].
  vm_compute. intros H. repeat (apply elem_of_cons in H as [H|H]; [discriminate|]).
  by apply elem_of_nil in H.
Defined.

(** ** One item per key *)

Lemma _addToRetryQueue_present (lg : Logger) (now : Z) (d : LogData) (rc : nat) :
  key d ∈ keys (retryQueue lg) → _addToRetryQueue lg now d rc = lg.
Proof.
  intros Hin. unfold _addToRetryQueue.
  by destruct (find_same_key_Some _ _ Hin) as [item ->].
Qed.

Lemma _addToRetryQueue_absent (lg : Logger) (now : Z) (d : LogData) (rc : nat) :
  key d ∉ keys (retryQueue lg) →
  retryQueue (_addToRetryQueue lg now d rc)
  = retryQueue lg ++ [ {| logData := d; retryCount := rc + 1; addedAt := now |} ].
Proof.
  intros Hout. unfold _addToRetryQueue.
  by rewrite (proj2 (find_same_key_None _ _) Hout).
Qed.

Lemma _addToRetryQueue_keys (lg : Logger) (now : Z) (d : LogData) (rc : nat) :
  keys (retryQueue (_addToRetryQueue lg now d rc))
  = if decide (key d ∈ keys (retryQueue lg))
    then keys (retryQueue lg) else keys (retryQueue lg) ++ [key d].
Proof.
  case_decide as Hin.
  - by rewrite _addToRetryQueue_present.
  - rewrite _addToRetryQueue_absent by done. unfold keys. by rewrite map_app.
Qed.

Lemma _addToRetryQueue_NoDup (lg : Logger) (now : Z) (d : LogData) (rc : nat) :
  NoDup (keys (retryQueue lg)) → NoDup (keys (retryQueue (_addToRetryQueue lg now d rc))).
Proof.
  intros Hnd. rewrite _addToRetryQueue_keys. case_decide as Hin; [done|].
  apply NoDup_app. split; [done|]. split.
  - intros k Hk Hk'. apply list_elem_of_singleton in Hk'. by subst k.
  - apply NoDup_singleton.
Qed.

Lemma _removeFromRetryQueue_filter (lg : Logger) (d : LogData) :
  retryQueue (_removeFromRetryQueue lg d)
  = filter (λ item, key (logData item) ≠ key d) (retryQueue lg).
Proof.
  unfold _removeFromRetryQueue. simpl.
  induction (retryQueue lg) as [|item q IH]; simpl; [done|].
  rewrite filter_cons, IH.
  destruct (same_key (logData item) d) eqn:Hk; simpl.
  - apply same_key_true in Hk. by rewrite decide_False by tauto.
  - apply same_key_false in Hk. by rewrite decide_True.
Qed.

Lemma keys_filter_NoDup (P : RetryItem → Prop) `{∀ x, Decision (P x)} (q : list RetryItem) :
  NoDup (keys q) → NoDup (keys (filter P q)).
Proof.
  unfold keys. induction q as [|item q IH]; simpl; [done|].
  rewrite NoDup_cons. intros [Hout Hnd]. rewrite filter_cons.
  case_decide; [|by apply IH].
  simpl. apply NoDup_cons. split; [|by apply IH].
  intros Hin. apply Hout. apply list_elem_of_fmap in Hin as (x & -> & Hx).
  apply list_elem_of_fmap. exists x. split; [done|].
  by apply list_elem_of_filter in Hx as [_ Hx].
Qed.

Lemma _removeFromRetryQueue_NoDup (lg : Logger) (d : LogData) :
  NoDup (keys (retryQueue lg)) → NoDup (keys (retryQueue (_removeFromRetryQueue lg d))).
Proof.
  intros Hnd. rewrite _removeFromRetryQueue_filter. by apply keys_filter_NoDup.
Qed.


Lemma log_settle_NoDup (w : World) (d : LogData) (rc : nat) (r : result val) :
  NoDup (keys (retryQueue (this w))) →
  NoDup (keys (retryQueue (this (fst (log_settle w d rc r))))).
Proof.
  intros Hnd. unfold log_settle. destruct r as [res|error]; simpl.
  - case_bool_decide; simpl; [by apply _removeFromRetryQueue_NoDup | done].
  - case_bool_decide; simpl.
    + destruct (silent _); simpl; by apply _addToRetryQueue_NoDup.
    + by destruct (silent _).
Qed.

Lemma step_NoDup (rt : Runtime) (w w' : World) :
  step rt w w' →
  NoDup (keys (retryQueue (this w))) → NoDup (keys (retryQueue (this w'))).
Proof.
  intros Hstep Hnd. destruct Hstep; simpl; try done.
  - by destruct (log_begin_frame _ _ _ _ _ H) as (-> & _).
  - by apply log_settle_NoDup.
  - destruct (log_begin_frame _ _ _ _ _ H1) as (-> & _). done.
  - apply NoDup_nil_2.
Qed.

Lemma reachable_NoDup (rt : Runtime) (w0 w : World) :
  reachable rt w0 w →
  NoDup (keys (retryQueue (this w0))) → NoDup (keys (retryQueue (this w))).
Proof.
  induction 1 as [|w w' _ IH Hstep]; [done|].
  intros Hnd. eapply step_NoDup; [exact Hstep|]. by apply IH.
Qed.

(** ** [log] and the scheduler as interleavings *)

Lemma set_inflight_undo (w : World) (ps : list Pending) :
  set_inflight (inflight w ++ []) (set_inflight ps w) = w.
Proof. destruct w. unfold set_inflight. simpl. by rewrite app_nil_r. Qed.

Lemma log_reachable (rt : Runtime) (w0 w : World) (d : LogData) (rc : nat)
    (http : AxiosOutcome) :
  reachable rt w0 w → reachable rt w0 (fst (log rt w d rc http)).
Proof.
  intros Hw. unfold log. destruct (log_begin rt w d) as [[w1 e]|] eqn:Hbegin; [|done].
  pose (p := {| pending_logData := d; pending_retryCount := rc; pending_enhanced := e |}).
  assert (reachable rt w0 (set_inflight (inflight w1 ++ [p]) w1)) as Hcall.
  { eapply reachable_step; [exact Hw|]. by apply step_call. }
  pose proof (step_resume rt (set_inflight (inflight w1 ++ [p]) w1) p (inflight w1) []
                http eq_refl) as Hresume.
  rewrite set_inflight_undo in Hresume.
  eapply reachable_step; [exact Hcall | exact Hresume].
Qed.

Lemma next_timer_None (ts : list Timer) : next_timer ts = None → ts = [].
Proof.
  destruct ts as [|t ts]; simpl; [done|].
  destruct (next_timer ts) as [[t' rest']|]; [case_bool_decide|]; discriminate.
Qed.

Lemma next_timer_split (ts : list Timer) (t : Timer) (rest : list Timer) :
  next_timer ts = Some (t, rest) →
  ∃ before after, ts = before ++ t :: after ∧ rest = before ++ after.
Proof.
  revert t rest. induction ts as [|t0 ts IH]; intros t rest; simpl; [done|].
  destruct (next_timer ts) as [[t' rest']|] eqn:Hnext.
  - destruct (IH t' rest' eq_refl) as (before & after & -> & ->).
    case_bool_decide; intros [= <- <-].
    + by exists (t0 :: before), after.
    + by exists [], (before ++ t' :: after).
  - intros [= <- <-]. apply next_timer_None in Hnext as ->. by exists [], [].
Qed.

Lemma fire_next_reachable (rt : Runtime) (w0 w w' : World) (http : AxiosOutcome) :
  reachable rt w0 w → fire_next rt w http = Some w' → reachable rt w0 w'.
Proof.
  intros Hw. unfold fire_next.
  destruct (next_timer (timers w)) as [[t rest]|] eqn:Hnext; [|done].
  intros [= <-].
  destruct (next_timer_split _ _ _ Hnext) as (before & after & Hts & ->).
  set (T := Z.max (clock w) (due t)).
  assert (reachable rt w0 (set_clock T w)) as Htick.
  { eapply reachable_step; [exact Hw|]. apply step_tick. lia. }
  unfold log.
  destruct (log_begin rt (set_clock T (set_timers (before ++ after) w)) (timer_logData t))
    as [[w1 e]|] eqn:Hbegin.
  - pose (p := {| pending_logData := timer_logData t;
                  pending_retryCount := timer_retryCount t; pending_enhanced := e |}).
    assert (reachable rt w0 (set_inflight (inflight w1 ++ [p]) w1)) as Hcall.
    { eapply reachable_step; [exact Htick|].
      apply (step_timer rt (set_clock T w) t before after w1 e); [done | simpl; lia | done]. }
    pose proof (step_resume rt (set_inflight (inflight w1 ++ [p]) w1) p (inflight w1) []
                  http eq_refl) as Hresume.
    rewrite set_inflight_undo in Hresume.
    eapply reachable_step; [exact Hcall | exact Hresume].
  - eapply reachable_step; [exact Htick|].
    apply (step_timer_skip rt (set_clock T w) t before after); [done | simpl; lia | done].
Qed.

Lemma drain_reachable (rt : Runtime) (fuel : nat) (http : nat → AxiosOutcome) (k : nat)
    (w0 w : World) :
  reachable rt w0 w → reachable rt w0 (drain rt fuel http k w).
Proof.
  revert k w. induction fuel as [|fuel IH]; intros k w Hw; simpl; [done|].
  destruct (fire_next rt w (http k)) as [w'|] eqn:Hfire; [|done].
  apply IH. by eapply fire_next_reachable.
Qed.

(** The level of a queued item is compared as the caller gave it, while
    the record is sent at that level or, without one, at [info]. A record
    logged at the level [info] and one logged without a level are both sent
    as [info]; when both sends fail the queue holds two items for the
    message "started" at the level [info]. *)
Lemma two_items_for_one_message_and_level :
  let w := fst (log sample_rt
                  (fst (log sample_rt sample_world started_info 0 RejectedRequest))
                  started 0 RejectedRequest) in
  reachable sample_rt sample_world w
  ∧ map (λ r, (req_message r, req_level r)) (posted w)
    = [("started", "info"); ("started", "info")]
  ∧ map (λ item, (message (logData item), level_or_info (logData item)))
      (retryQueue (this w))
    = [("started", "info"); ("started", "info")]
  ∧ ¬ NoDup (map (λ item, (message (logData item), level_or_info (logData item)))
               (retryQueue (this w))).
Proof.
  intros w. split; [apply log_reachable, log_reachable, reachable_refl|].
  split; [by vm_compute|].
  assert (map (λ item, (message (logData item), level_or_info (logData item)))
            (retryQueue (this w))
          = [("started", "info"); ("started", "info")]) as Hq by (by vm_compute).
  split; [exact Hq|].
  rewrite Hq. intros Hnd. apply NoDup_cons in Hnd as [Hnotin _].
  apply Hnotin, list_elem_of_here.
Qed.

(** C4, for the key that the queue uses: the retry queue of a logger never
    holds two items with the same message and the same level as the caller
    gave it, where no level, the empty level and [info] are three different
    levels: this holds of every state reached from one where it holds, in
    particular from a new logger, whatever calls, retries and request
    outcomes are interleaved. Adding a record whose key is already queued
    changes nothing. *)
Theorem retryQueue_one_item_per_key (rt : Runtime) (w0 w : World) :
  NoDup (keys (retryQueue (this w0))) →
  reachable rt w0 w →
  NoDup (keys (retryQueue (this w)))
  ∧ ∀ now d rc, key d ∈ keys (retryQueue (this w)) →
                _addToRetryQueue (this w) now d rc = this w.
Proof.
  intros Hnd Hreach. split.
  - by eapply reachable_NoDup.
  - intros now d rc. apply _addToRetryQueue_present.
Qed.

Lemma retryQueue_one_item_per_key_witness :
  let w := fst (log sample_rt (fst (log sample_rt sample_world db_down 0 RejectedRequest))
                  db_down 0 RejectedRequest) in
  NoDup (keys (retryQueue (this w)))
  ∧ ∀ now d rc, key d ∈ keys (retryQueue (this w)) →
                _addToRetryQueue (this w) now d rc = this w.
Proof.
  apply (retryQueue_one_item_per_key sample_rt sample_world).
  - simpl. apply NoDup_nil_2.
  - apply log_reachable, log_reachable, reachable_refl.
Defined.

(** Two failed calls with the same message and level leave one item. *)
Example same_key_twice_one_item :
  let w := fst (log sample_rt (fst (log sample_rt sample_world db_down 0 RejectedRequest))
                  db_down 0 RejectedRequest) in
  keys (retryQueue (this w)) = [key db_down] ∧ length (timers w) = 2%nat.
Proof. vm_compute. done. Qed.

(** ** The two ways [log] settles *)

Lemma log_enabled (rt : Runtime) (w : World) (d : LogData) (rc : nat) (http : AxiosOutcome) :
  level_or_info d ∈ enabledLevels (this w) →
  ∃ w1 ctx,
    log_begin rt w d = Some (w1, enhance (this w) d ctx)
    ∧ log rt w d rc http
      = log_settle w1 d rc
          (Client.log (validatePayload (this w)) (enhance (this w) d ctx) http).
Proof.
  intros Hon. unfold log.
  destruct (log_begin rt w d) as [[w1 e]|] eqn:Hbegin.
  - destruct (log_begin_frame _ _ _ _ _ Hbegin) as (Hthis & _ & _ & _ & _ & [ctx ->] & _).
    exists w1, ctx. by rewrite Hthis.
  - by apply log_begin_None in Hbegin.
Qed.

Lemma log_not_skipped (rt : Runtime) (w : World) (d : LogData) (rc : nat)
    (http : AxiosOutcome) (r : result LogReturn) :
  snd (log rt w d rc http) = r →
  (∀ reason, r ≠ Return (Skipped reason)) →
  level_or_info d ∈ enabledLevels (this w).
Proof.
  intros Hr Hskip. destruct (decide (level_or_info d ∈ enabledLevels (this w))); [done|].
  exfalso. apply (Hskip "level_disabled"). rewrite <- Hr.
  unfold log. by rewrite (proj2 (log_begin_None rt w d)).
Qed.

Lemma log_settle_snd (w : World) (d : LogData) (rc : nat) (r : result val) :
  snd (log_settle w d rc r)
  = match r with
    | Return res => Return (Response res)
    | Throw e => Throw e
    end.
Proof. by destruct r. Qed.

Lemma log_settle_Return (w : World) (d : LogData) (rc : nat) (res : val) :
  fst (log_settle w d rc (Return res))
  = if bool_decide (0 < rc)%nat then set_this (_removeFromRetryQueue (this w) d) w else w.
Proof. done. Qed.

Lemma log_settle_Throw_this (w : World) (d : LogData) (rc : nat) (e : CheckLogsError) :
  this (fst (log_settle w d rc (Throw e)))
  = if bool_decide (rc < maxRetries (this w))%nat
    then _addToRetryQueue (this w) (clock w) d rc else this w.
Proof.
  unfold log_settle. simpl. case_bool_decide; simpl; by destruct (silent _).
Qed.

Lemma log_settle_Throw_timers (w : World) (d : LogData) (rc : nat) (e : CheckLogsError) :
  timers (fst (log_settle w d rc (Throw e)))
  = if bool_decide (rc < maxRetries (this w))%nat
    then timers w ++ [retry_timer (this w) (clock w) d rc] else timers w.
Proof.
  unfold log_settle. simpl. case_bool_decide; simpl; by destruct (silent _).
Qed.

Lemma log_settle_posted (w : World) (d : LogData) (rc : nat) (r : result val) :
  posted (fst (log_settle w d rc r)) = posted w.
Proof.
  unfold log_settle. destruct r; simpl.
  - by case_bool_decide.
  - case_bool_decide; simpl; by destruct (silent _).
Qed.

Lemma Client_log_Return (v : bool) (e : LogData) (http : AxiosOutcome) (data : val) :
  Client.log v e http = Return data ↔
  Client._validateLogData v e = None ∧ http = Resolved data.
Proof.
  unfold Client.log. destruct (Client._validateLogData v e).
  - split; [done | intros [? _]; done].
  - destruct http; split; intros H; try discriminate H; try (by destruct H);
      [by injection H as -> | destruct H as [_ H]; by injection H as ->].
Qed.

Lemma Client_log_ValidationError (v : bool) (e : LogData) (http : AxiosOutcome) (msg : string) :
  Client.log v e http = Throw (ValidationError msg) ↔
  Client._validateLogData v e = Some (ValidationError msg).
Proof.
  unfold Client.log. destruct (Client._validateLogData v e).
  - split; intros H; by injection H as ->.
  - destruct http; split; intros H; discriminate H.
Qed.

Lemma Client_log_rejected (v : bool) (e : LogData) (http : AxiosOutcome) :
  (∀ data, http ≠ Resolved data) → ∃ err, Client.log v e http = Throw err.
Proof.
  intros Hrej. unfold Client.log. destruct (Client._validateLogData v e); [by eexists|].
  destruct http; try by eexists. by destruct (Hrej data).
Qed.

(** ** A send that succeeds *)




(** ** A record that fails validation *)

(** C3, as stated, fails: a record without a message is rejected by
    validation before any request is made, and [log] nevertheless queues it
    and sets the first retry timer. *)
Lemma validation_failure_is_queued :
  let '(w', r) := log sample_rt sample_world no_message 0 (Resolved VNull) in
  r = Throw (ValidationError "message is required and must be a string")
  ∧ posted w' = []
  ∧ keys (retryQueue (this w')) = [key no_message]
  ∧ map delay (timers w') = [1000].
Proof. vm_compute. done. Qed.

(** C3, amended: when a record fails validation, the call of [log] that was
    given it throws the [ValidationError] and no request is sent; the
    logger then treats the failure as it treats any other: while
    [retryCount < maxRetries] it schedules a retry and leaves an item with
    the record's key in the retry queue, and from [maxRetries] on it leaves
    queue and timers as they are. *)
Theorem validation_failure_thrown_and_retried
    (rt : Runtime) (w : World) (d : LogData) (rc : nat) (http : AxiosOutcome)
    (err : CheckLogsError) :
  level_or_info d ∈ enabledLevels (this w) →
  (∀ ctx, Client._validateLogData (validatePayload (this w)) (enhance (this w) d ctx)
          = Some err) →
  let '(w', r) := log rt w d rc http in
  r = Throw err
  ∧ posted w' = posted w
  ∧ ((rc < maxRetries (this w))%nat →
       timers w' = timers w ++ [retry_timer (this w) (clock w) d rc]
       ∧ key d ∈ keys (retryQueue (this w')))
  ∧ ((maxRetries (this w) ≤ rc)%nat →
       timers w' = timers w ∧ retryQueue (this w') = retryQueue (this w)).
Proof.
  intros Hon Hinvalid.
  destruct (log_enabled rt w d rc http Hon) as (w1 & ctx & Hbegin & Hlog).
  destruct (log rt w d rc http) as [w' r]. symmetry in Hlog.
  destruct (log_begin_frame _ _ _ _ _ Hbegin)
    as (Hthis & Htimers & Hclock & _ & _ & _ & Hposted).
  unfold Client.log in Hlog. unfold Client.posts in Hposted.
  rewrite (Hinvalid ctx) in Hlog, Hposted. rewrite app_nil_r in Hposted.
  assert (r = snd (log_settle w1 d rc (Throw err))) as Hr by by rewrite Hlog.
  assert (w' = fst (log_settle w1 d rc (Throw err))) as Hw' by by rewrite Hlog.
  rewrite log_settle_snd in Hr. subst r w'.
  rewrite log_settle_posted, log_settle_Throw_timers, log_settle_Throw_this.
  rewrite Hthis, Htimers, Hclock. split; [done|]. split; [done|]. split.
  - intros Hrc. rewrite bool_decide_eq_true_2 by done. split; [done|].
    rewrite _addToRetryQueue_keys. case_decide; [done|].
    apply elem_of_app. right. by apply list_elem_of_singleton.
  - intros Hrc. rewrite bool_decide_eq_false_2 by lia. done.
Qed.

Lemma validation_failure_thrown_and_retried_witness :
  let '(w', r) := log sample_rt sample_world no_message 2 (Resolved VNull) in
  r = Throw (ValidationError "message is required and must be a string")
  ∧ posted w' = posted sample_world
  ∧ map delay (timers w') = [4000].
Proof.
  pose proof (validation_failure_thrown_and_retried sample_rt sample_world no_message 2
                (Resolved VNull)
                (ValidationError "message is required and must be a string")) as H.
  destruct (log sample_rt sample_world no_message 2 (Resolved VNull)) as [w' r].
  destruct H as (Hr & Hposted & Hretry & _).
  - apply (bool_decide_unpack _). vm_compute. exact I.
  - intros ctx. reflexivity.
  - split; [exact Hr|]. split; [exact Hposted|].
    destruct Hretry as [-> _]; [simpl; lia | reflexivity].
Defined.

(** ** Backoff *)

Lemma constructor_retry_defaults (rt : Runtime) (h h' : heap) (k : string)
    (options : LoggerOptions) (lg : Logger) :
  constructor rt h k options = Return (lg, h') →
  retryQueue lg = [] ∧ maxRetries lg = 3%nat ∧ retryDelay lg = 1000.
Proof.
  unfold constructor. case_decide; [done|].
  destruct (match opt_defaultContext options with
            | Some l => (l, h)
            | None => alloc h ∅
            end) as [ctx h0].
  by intros [= <- <-].
Qed.

(** C5, as stated, fails in its last clause: an item is not always inserted
    with attempt 1. Two calls log the same message and level and both
    fail; one item is queued and two retries are pending. The first retry
    succeeds and removes the item; the second, attempt 2 of its record,
    fails and inserts a new item, which carries 2. *)
Lemma new_item_carries_inserting_attempt :
  let w1 := fst (log sample_rt sample_world db_down 0 RejectedRequest) in
  let w2 := fst (log sample_rt w1 db_down 0 RejectedRequest) in
  let w3 := drain sample_rt 1 (λ _, Resolved VNull) 0 w2 in
  let w4 := drain sample_rt 1 (λ _, RejectedRequest) 0 w3 in
  map retryCount (retryQueue (this w2)) = [1%nat]
  ∧ retryQueue (this w3) = []
  ∧ map retryCount (retryQueue (this w4)) = [2%nat].
Proof. vm_compute. done. Qed.

(** C5, amended: for every attempt [k] with [1 <= k <= maxRetries], when
    attempt [k] (the call with [retryCount = k - 1]) fails, a retry is
    scheduled after [retryDelay * 2^(k-1)] milliseconds, with no jitter;
    the delay of attempt [k] is below that of attempt [k + 1]; a logger is
    constructed with [retryDelay = 1000] and [maxRetries = 3]. If the queue
    holds no item with the record's key, the failure inserts one that
    carries the number [k] of the attempt that inserted it, which is 1 for
    a first attempt; otherwise the queue is unchanged. *)
Theorem retry_backoff_doubles
    (rt : Runtime) (w : World) (d : LogData) (k : nat) (http : AxiosOutcome)
    (e : CheckLogsError) :
  (1 ≤ k ≤ maxRetries (this w))%nat →
  snd (log rt w d (k - 1) http) = Throw e →
  let w' := fst (log rt w d (k - 1) http) in
  let ms := retryDelay (this w) * 2 ^ (Z.of_nat k - 1) in
  timers w' = timers w ++ [ {| delay := ms; due := clock w + ms;
                               timer_logData := d; timer_retryCount := k |} ]
  ∧ (key d ∉ keys (retryQueue (this w)) →
       retryQueue (this w')
       = retryQueue (this w) ++ [ {| logData := d; retryCount := k; addedAt := clock w |} ])
  ∧ (key d ∈ keys (retryQueue (this w)) → retryQueue (this w') = retryQueue (this w))
  ∧ (0 < retryDelay (this w) → ms < retryDelay (this w) * 2 ^ Z.of_nat k)
  ∧ (∀ h h' apikey options lg,
       constructor rt h apikey options = Return (lg, h') →
       retryDelay lg = 1000 ∧ maxRetries lg = 3%nat).
Proof.
  intros Hk Hthrow w' ms. subst w'.
  assert (level_or_info d ∈ enabledLevels (this w)) as Hon.
  { eapply log_not_skipped; [exact Hthrow | done]. }
  destruct (log_enabled rt w d (k - 1) http Hon) as (w1 & ctx & Hbegin & Hlog).
  rewrite Hlog in Hthrow |- *. rewrite log_settle_snd in Hthrow.
  destruct (log_begin_frame _ _ _ _ _ Hbegin) as (Hthis & Htimers & Hclock & _).
  destruct (Client.log _ _ _) as [res|err]; [done|].
  rewrite log_settle_Throw_timers, log_settle_Throw_this.
  rewrite Hthis, Htimers, Hclock.
  rewrite bool_decide_eq_true_2 by lia.
  assert (Z.of_nat (k - 1) = Z.of_nat k - 1) as Hpred by lia.
  assert ((k - 1 + 1)%nat = k) as Hsucc by lia.
  split; [|split; [|split; [|split]]].
  - unfold retry_timer. by rewrite Hpred, Hsucc.
  - intros Hout. rewrite _addToRetryQueue_absent by done. by rewrite Hsucc.
  - intros Hin. by rewrite _addToRetryQueue_present.
  - intros Hpos. subst ms.
    replace (Z.of_nat k) with (Z.succ (Z.of_nat k - 1)) at 2 by lia.
    rewrite Z.pow_succ_r by lia.
    assert (0 < 2 ^ (Z.of_nat k - 1)) by (apply Z.pow_pos_nonneg; lia). nia.
  - intros h h' apikey options lg Hnew.
    by destruct (constructor_retry_defaults _ _ _ _ _ _ Hnew) as (_ & -> & ->).
Qed.

Lemma retry_backoff_doubles_witness :
  map delay (timers (fst (log sample_rt sample_world db_down (3 - 1) RejectedRequest)))
  = [4000].
Proof.
  destruct (retry_backoff_doubles sample_rt sample_world db_down 3 RejectedRequest
              (NetworkError "Network request failed")) as (-> & _).
  - simpl. lia.
  - vm_compute. reflexivity.
  - reflexivity.
Defined.

(** The delays of attempts 1, 2 and 3 of one record. *)
Example backoff_1000_2000_4000 :
  let w1 := fst (log sample_rt sample_world db_down 0 RejectedRequest) in
  let w2 := drain sample_rt 1 (λ _, RejectedRequest) 0 w1 in
  let w3 := drain sample_rt 1 (λ _, RejectedRequest) 0 w2 in
  (map delay (timers w1), map delay (timers w2), map delay (timers w3))
  = ([1000], [2000], [4000])
  ∧ (clock w1, clock w2, clock w3) = (0, 1000, 3000).
Proof. vm_compute. done. Qed.

(** ** Retries that never succeed *)

Lemma log_rejected_keeps_keys (rt : Runtime) (w : World) (d : LogData) (rc : nat)
    (http : AxiosOutcome) (k : string * option string) :
  (∀ data, http ≠ Resolved data) →
  k ∈ keys (retryQueue (this w)) →
  k ∈ keys (retryQueue (this (fst (log rt w d rc http)))).
Proof.
  intros Hrej Hk. unfold log.
  destruct (log_begin rt w d) as [[w1 e]|] eqn:Hbegin; [|done].
  destruct (log_begin_frame _ _ _ _ _ Hbegin) as (Hthis & _).
  destruct (Client_log_rejected (validatePayload (this w1)) e http Hrej) as [err ->].
  rewrite log_settle_Throw_this, Hthis. case_bool_decide; [|done].
  rewrite _addToRetryQueue_keys. case_decide; [done|].
  apply elem_of_app. by left.
Qed.

Lemma drain_rejected_keeps_keys (rt : Runtime) (fuel : nat) (http : nat → AxiosOutcome)
    (n : nat) (w : World) (k : string * option string) :
  (∀ i data, http i ≠ Resolved data) →
  k ∈ keys (retryQueue (this w)) →
  k ∈ keys (retryQueue (this (drain rt fuel http n w))).
Proof.
  intros Hrej. revert n w. induction fuel as [|fuel IH]; intros n w Hk; simpl; [done|].
  unfold fire_next. destruct (next_timer (timers w)) as [[t rest]|]; [|done].
  apply IH. apply log_rejected_keeps_keys; [apply Hrej | done].
Qed.

(** Once queued, a record all of whose requests are rejected is in the
    queue for good, however many timers fire. *)
Lemma rejected_record_stays_queued (rt : Runtime) (w : World) (d : LogData)
    (http0 : AxiosOutcome) (http : nat → AxiosOutcome) (fuel : nat) :
  level_or_info d ∈ enabledLevels (this w) →
  (0 < maxRetries (this w))%nat →
  (∀ data, http0 ≠ Resolved data) →
  (∀ i data, http i ≠ Resolved data) →
  key d ∈ keys (retryQueue (this (drain rt fuel http 0 (fst (log rt w d 0 http0))))).
Proof.
  intros Hon Hmax Hrej0 Hrej. apply drain_rejected_keeps_keys; [done|].
  destruct (log_enabled rt w d 0 http0 Hon) as (w1 & ctx & Hbegin & ->).
  destruct (log_begin_frame _ _ _ _ _ Hbegin) as (Hthis & _).
  destruct (Client_log_rejected (validatePayload (this w)) (enhance (this w) d ctx)
              http0 Hrej0) as [err ->].
  rewrite log_settle_Throw_this, Hthis. rewrite bool_decide_eq_true_2 by done.
  rewrite _addToRetryQueue_keys. case_decide; [done|].
  apply elem_of_app. right. by apply list_elem_of_singleton.
Qed.

(** C1 on the code: "db down" is logged and every request is rejected.
    After three failed attempts a fourth is still pending; after the
    fourth no timer is left, and the item is still in the retry queue. *)
Theorem exhausted_retries_stay_queued :
  let w1 := fst (log sample_rt sample_world db_down 0 RejectedRequest) in
  let w3 := drain sample_rt 2 (λ _, RejectedRequest) 0 w1 in
  let w4 := drain sample_rt 1 (λ _, RejectedRequest) 0 w3 in
  (length (posted w3) = 3%nat
   ∧ map timer_retryCount (timers w3) = [3%nat]
   ∧ keys (retryQueue (this w3)) = [key db_down])
  ∧ (length (posted w4) = 4%nat
     ∧ timers w4 = []
     ∧ keys (retryQueue (this w4)) = [key db_down]
     ∧ drain sample_rt 100 (λ _, RejectedRequest) 0 w4 = w4).
Proof. vm_compute. done. Qed.

End LoggerFacts.

(* ===================================================================== *)
(** * Child loggers *)
(* ===================================================================== *)

Module ChildFacts.
Import Logger.

(** ** The heap *)

Lemma alloc_fresh (h h' : heap) (o : obj) (l : loc) :
  alloc h o = (l, h') → (l ∉ dom h) ∧ h' = <[l := o]> h.
Proof.
  unfold alloc. intros [= <- <-]. split; [apply is_fresh | done].
Qed.

Lemma setprop_other (h : heap) (l l' : loc) (k : string) (v : val) :
  l ≠ l' → setprop h l k v !! l' = h !! l'.
Proof.
  intros Hne. unfold setprop. destruct (h !! l); [|done]. by rewrite lookup_insert_ne.
Qed.

Lemma delprop_other (h : heap) (l l' : loc) (k : string) :
  l ≠ l' → delprop h l k !! l' = h !! l'.
Proof.
  intros Hne. unfold delprop. destruct (h !! l); [|done]. by rewrite lookup_insert_ne.
Qed.

(** ** [child] *)

Lemma child_unfold (rt : Runtime) (h : heap) (lg : Logger)
    (additionalContext : option loc) (additionalOptions : LoggerOptions) :
  apiKey lg ≠ "" →
  ∃ c,
    child rt h lg additionalContext additionalOptions
    = Return (c, <[fresh (dom h) :=
                     spread2 (props h (Some (defaultContext lg)))
                             (props h additionalContext)]> h)
    ∧ defaultContext c
      = default (fresh (dom h)) (opt_defaultContext additionalOptions).
Proof.
  intros Hkey. unfold child, alloc, constructor. simpl.
  rewrite decide_False by done.
  destruct (opt_defaultContext additionalOptions) as [l|]; simpl;
    eexists; split; reflexivity.
Qed.

Lemma setprop_only_changes (h : heap) (l : loc) (k : string) (v : val) :
  only_changes l h (setprop h l k v).
Proof. intros l' Hne. by apply setprop_other. Qed.

Lemma delprop_only_changes (h : heap) (l : loc) (k : string) :
  only_changes l h (delprop h l k).
Proof. intros l' Hne. by apply delprop_other. Qed.

Lemma child_fresh_context (rt : Runtime) (h : heap) (lg : Logger)
    (additionalContext : option loc) (additionalOptions : LoggerOptions) :
  apiKey lg ≠ "" →
  opt_defaultContext additionalOptions = None →
  ∃ c h',
    child rt h lg additionalContext additionalOptions = Return (c, h')
    ∧ (defaultContext c ∉ dom h)
    ∧ h' = <[defaultContext c :=
               spread2 (props h (Some (defaultContext lg))) (props h additionalContext)]> h.
Proof.
  intros Hkey Hnone.
  destruct (child_unfold rt h lg additionalContext additionalOptions Hkey) as (c & Hc & Hctx).
  rewrite Hnone in Hctx. simpl in Hctx.
  exists c. eexists. split; [exact Hc|]. rewrite Hctx. split; [apply is_fresh | done].
Qed.

(** C9, as stated, fails: the copy is shallow. The parent's context has a
    [user] entry that is an object; the child is created with
    [{ module: "user" }]; then [parent.defaultContext.user.id = 2], and the
    child's [user.id] is 2 as well. *)
Lemma child_shares_nested_objects :
  match child sample_rt family_heap parent_logger (Some 3%positive) no_options with
  | Return (c, h') =>
      let h'' := setprop h' 2%positive "id" (VNum 2) in
      getpath h' (VRef (defaultContext parent_logger)) ["user"] = Some (VRef 2%positive)
      ∧ getpath h' (VRef (defaultContext c)) ["user"; "id"] = Some (VNum 1)
      ∧ getpath h'' (VRef (defaultContext c)) ["user"; "id"] = Some (VNum 2)
  | Throw _ => False
  end.
Proof. vm_compute. done. Qed.

(** Two children of one parent: each context object is new, holds the
    parent's entries and its own [module], and a key set on the first
    child's context shows in neither the second child's nor the parent's. *)
Example two_children_two_contexts :
  match child sample_rt family_heap parent_logger (Some 3%positive) no_options with
  | Return (c1, h1) =>
      match child sample_rt h1 parent_logger (Some 4%positive) no_options with
      | Return (c2, h2) =>
          let h3 := setprop h2 (defaultContext c1) "request" (VStr "r-17") in
          (defaultContext parent_logger, defaultContext c1, defaultContext c2)
          = (1%positive, 5%positive, 6%positive)
          ∧ getprop h2 (defaultContext c1) "module" = Some (VStr "user")
          ∧ getprop h2 (defaultContext c2) "module" = Some (VStr "orders")
          ∧ getprop h2 (defaultContext c2) "service" = Some (VStr "api")
          ∧ getprop h3 (defaultContext c1) "request" = Some (VStr "r-17")
          ∧ getprop h3 (defaultContext c2) "request" = None
          ∧ getprop h3 (defaultContext parent_logger) "request" = None
      | Throw _ => False
      end
  | Throw _ => False
  end.
Proof. vm_compute. done. Qed.

(** A [defaultContext] among the additional options replaces the merged
    context: here the child is handed the parent's own context object. *)
Example child_defaultContext_option_wins :
  match child sample_rt family_heap parent_logger (Some 3%positive)
          {| opt_timeout := None; opt_validatePayload := None; opt_source := None;
             opt_user_id := None; opt_defaultContext := Some 1%positive;
             opt_silent := None; opt_consoleOutput := None; opt_enabledLevels := None;
             opt_includeTimestamp := None; opt_includeHostname := None |} with
  | Return (c, h') => defaultContext c = defaultContext parent_logger
  | Throw _ => False
  end.
Proof. vm_compute. done. Qed.

(** C9, amended: for every parent logger, [child(additionalContext,
    additionalOptions)] with no [defaultContext] among the additional
    options gives a child whose default context is a new object that holds
    the parent's default entries with those of [additionalContext] over
    them (a shallow copy), and creates or changes no other object. Whatever
    keys are then set or deleted on the parent's context object, the
    child's context object stays as it is, and the other way round. A
    second child, created at any later time, has a context object of its
    own: setting or deleting keys on the context object of one child
    changes neither the other child's nor the parent's. Entries whose value
    is an object refer to the same object in parent and child. *)
Theorem child_context_is_independent_shallow_copy
    (rt : Runtime) (h : heap) (lg : Logger)
    (additionalContext : option loc) (additionalOptions : LoggerOptions) :
  apiKey lg ≠ "" →
  defaultContext lg ∈ dom h →
  opt_defaultContext additionalOptions = None →
  ∃ c h',
    child rt h lg additionalContext additionalOptions = Return (c, h')
    ∧ (defaultContext c ∉ dom h)
    ∧ h' !! defaultContext c
      = Some (spread2 (props h (Some (defaultContext lg))) (props h additionalContext))
    ∧ only_changes (defaultContext c) h h'
    ∧ (∀ h2, only_changes (defaultContext lg) h' h2 →
             h2 !! defaultContext c = h' !! defaultContext c)
    ∧ (∀ h2, only_changes (defaultContext c) h' h2 →
             h2 !! defaultContext lg = h' !! defaultContext lg)
    ∧ (∀ l k v, only_changes l h' (setprop h' l k v))
    ∧ (∀ l k, only_changes l h' (delprop h' l k))
    ∧ (∀ h2 additionalContext2 additionalOptions2,
         defaultContext lg ∈ dom h2 →
         defaultContext c ∈ dom h2 →
         opt_defaultContext additionalOptions2 = None →
         ∃ c2 h2',
           child rt h2 lg additionalContext2 additionalOptions2 = Return (c2, h2')
           ∧ defaultContext c2 ≠ defaultContext c
           ∧ defaultContext c2 ≠ defaultContext lg
           ∧ h2' !! defaultContext c = h2 !! defaultContext c
           ∧ (∀ h3, only_changes (defaultContext c2) h2' h3 →
                    h3 !! defaultContext c = h2' !! defaultContext c
                    ∧ h3 !! defaultContext lg = h2' !! defaultContext lg)
           ∧ (∀ h3, only_changes (defaultContext c) h2' h3 →
                    h3 !! defaultContext c2 = h2' !! defaultContext c2
                    ∧ h3 !! defaultContext lg = h2' !! defaultContext lg)).
Proof.
  intros Hkey Hparent Hnone.
  destruct (child_fresh_context rt h lg additionalContext additionalOptions Hkey Hnone)
    as (c & h' & Hchild & Hfresh & ->).
  assert (defaultContext c ≠ defaultContext lg) as Hne by (intros Heq; by rewrite Heq in Hfresh).
  exists c. eexists. split; [exact Hchild|].
  split; [done|]. split; [by rewrite lookup_insert_eq|].
  split; [intros l' Hl'; by rewrite lookup_insert_ne|].
  split; [intros h2 Hh2; by apply Hh2|].
  split; [intros h2 Hh2; apply Hh2; congruence|].
  split; [intros l k v; apply setprop_only_changes|].
  split; [intros l k; apply delprop_only_changes|].
  intros h2 ac2 ao2 Hparent2 Hc2 Hnone2.
  destruct (child_fresh_context rt h2 lg ac2 ao2 Hkey Hnone2)
    as (c2 & h2' & Hchild2 & Hfresh2 & ->).
  assert (defaultContext c2 ≠ defaultContext c) as Hne1
      by (intros Heq; by rewrite Heq in Hfresh2).
  assert (defaultContext c2 ≠ defaultContext lg) as Hne2
      by (intros Heq; by rewrite Heq in Hfresh2).
  exists c2. eexists. split; [exact Hchild2|].
  split; [done|]. split; [done|].
  split; [by rewrite lookup_insert_ne|].
  split.
  - intros h3 Hh3. split; apply Hh3; congruence.
  - intros h3 Hh3. split; apply Hh3; congruence.
Qed.

Lemma child_context_is_independent_shallow_copy_witness :
  ∃ c h',
    child sample_rt family_heap parent_logger (Some 3%positive) no_options = Return (c, h')
    ∧ (defaultContext c ∉ dom family_heap)
    ∧ ∀ k v, setprop h' (defaultContext parent_logger) k v !! defaultContext c
             = h' !! defaultContext c.
Proof.
  destruct (child_context_is_independent_shallow_copy sample_rt family_heap parent_logger
              (Some 3%positive) no_options)
    as (c & h' & Hchild & Hfresh & _ & _ & Hparent & _ & Hset & _).
  - discriminate.
  - apply elem_of_dom. eexists. reflexivity.
  - reflexivity.
  - exists c, h'. split; [exact Hchild|]. split; [exact Hfresh|].
    intros k v. apply Hparent, Hset.
Defined.

End ChildFacts.

(* ===================================================================== *)
(** * Analytics: ranges, bounds and order of arrival *)
(* ===================================================================== *)

Module StatsBounds.
Import Stats StatsFacts.

(** ** Rounding *)





(** ** Sums *)

Lemma Zsum_filter_le (P : LevelStat → Prop) `{∀ x, Decision (P x)} (l : list LevelStat) :
  Forall (λ stat, 0 ≤ count stat) l →
  0 ≤ Zsum (map count (filter P l)) ≤ Zsum (map count l).
Proof.
  induction 1 as [|x l Hx Hl IH]; simpl; [lia|].
  rewrite filter_cons. case_decide; simpl; lia.
Qed.


(** ** Ranges *)





(** ** The direction of the trend *)




(** ** The order of arrival *)

Lemma NoDup_map_eq {A B} (f : A → B) (l : list A) (x y : A) :
  NoDup (map f l) → x ∈ l → y ∈ l → f x = f y → x = y.
Proof.
  induction l as [|z l IH]; simpl; [intros _ Hx; by apply elem_of_nil in Hx|].
  rewrite NoDup_cons. intros [Hz Hnd] Hx Hy Hf.
  apply elem_of_cons in Hx as [->|Hx]; apply elem_of_cons in Hy as [->|Hy].
  - done.
  - exfalso. apply Hz. rewrite Hf. apply list_elem_of_fmap. by exists y.
  - exfalso. apply Hz. rewrite <- Hf. apply list_elem_of_fmap. by exists x.
  - by apply IH.
Qed.

Lemma Array_sort_order_of_arrival (time : string → Z) (l l' : list DailyStat) :
  NoDup (map (λ day, time (date day)) l) →
  l ≡ₚ l' →
  Array_sort (λ a b, time (date b) - time (date a)) l
  = Array_sort (λ a b, time (date b) - time (date a)) l'.
Proof.
  intros Hnd Hperm.
  apply (StronglySorted_unique_strong (newer_first time)).
  - intros x1 x2 Hx1 Hx2 H12 H21. unfold newer_first in H12, H21.
    rewrite Array_sort_Permutation in Hx1.
    rewrite Array_sort_Permutation, <- Hperm in Hx2.
    apply (NoDup_map_eq (λ day, time (date day)) l); [done..|lia].
  - apply Array_sort_newer_first.
  - apply Array_sort_newer_first.
  - by rewrite !Array_sort_Permutation.
Qed.

(** X5: when no two entries bear the same date, the order in which the
    daily entries arrive does not matter: any rearrangement of the series
    gives the same trend analysis. *)
Theorem getTrend_order_of_arrival (time : string → Z) (dailyStats arrived : list DailyStat) :
  NoDup (map (λ day, time (date day)) dailyStats) →
  dailyStats ≡ₚ arrived →
  getTrend time arrived = getTrend time dailyStats.
Proof.
  intros Hnd Hperm. unfold getTrend.
  rewrite <- (Permutation_length Hperm).
  by rewrite (Array_sort_order_of_arrival time dailyStats arrived Hnd Hperm).
Qed.

Lemma getTrend_order_of_arrival_witness :
  getTrend iso_date_time (reverse two_weeks) = getTrend iso_date_time two_weeks.
Proof.
  apply getTrend_order_of_arrival.
  - apply (bool_decide_unpack _). vm_compute. exact I.
  - symmetry. apply reverse_Permutation.
Defined.

End StatsBounds.

(* ===================================================================== *)
(** * Analytics in binary64 *)
(* ===================================================================== *)

Module Stats64Facts.
Import Stats Number Stats64 StatsFacts NumberFacts RoundingFacts ValueFacts.

(** ** Sums *)

Lemma sum_counts_Nsum {A} `{Counted A} (l : list A) :
  sum_counts l = Nsum (map count l).
Proof.
  unfold sum_counts, Nsum. generalize (of_Z 0).
  induction l as [|x l IH]; intros acc; simpl; [done|]. apply IH.
Qed.

Lemma Zsum_app (l1 l2 : list Z) : Zsum (l1 ++ l2) = Zsum l1 + Zsum l2.
Proof. induction l1 as [|x l1 IH]; simpl; lia. Qed.

Lemma Zsum_Permutation (l1 l2 : list Z) : l1 ≡ₚ l2 → Zsum l1 = Zsum l2.
Proof. induction 1; simpl; lia. Qed.

Lemma sum_counts_of_Z {A} `{Counted A} (l : list A) :
  Forall (λ x, 0 ≤ count x) l → Zsum (map count l) < 2 ^ 53 →
  sum_counts l = of_Z (Zsum (map count l)).
Proof.
  intros Hl Hsum. rewrite sum_counts_Nsum. apply Nsum_of_Z; [|done].
  by apply Forall_map.
Qed.

(** The sum of a part of a list of non-negative counts is at most the
    sum of the list. *)
Lemma Zsum_take_drop {A} `{Counted A} (n : nat) (l : list A) :
  Forall (λ x, 0 ≤ count x) l →
  0 ≤ Zsum (map count (take n l)) ∧ 0 ≤ Zsum (map count (drop n l))
  ∧ Zsum (map count l) = Zsum (map count (take n l)) + Zsum (map count (drop n l)).
Proof.
  intros Hl. split; [|split].
  - apply Zsum_nonneg, Forall_map. by apply Forall_take.
  - apply Zsum_nonneg, Forall_map. by apply Forall_drop.
  - rewrite <- Zsum_app, <- map_app. by rewrite take_drop.
Qed.

(** ** [getErrorRate] *)

Lemma getErrorRate64_fold (l : list LevelStat) (t e : number) :
  fold_left
    (λ '(totalLogs, errorLogs) stat,
       (add totalLogs (of_Z (count stat)),
        if bool_decide (level stat = "error") || bool_decide (level stat = "critical")
        then add errorLogs (of_Z (count stat)) else errorLogs))
    l (t, e)
  = (fold_left (λ sum c, add sum (of_Z c)) (map count l) t,
     fold_left (λ sum c, add sum (of_Z c)) (map count (filter error_level l)) e).
Proof.
  revert t e. induction l as [|x l IH]; intros t e; simpl; [done|].
  rewrite IH, filter_cons. unfold error_level at 2.
  destruct (decide (level x = "error" ∨ level x = "critical")) as [Hx|Hx].
  - assert (bool_decide (level x = "error") || bool_decide (level x = "critical") = true)
      as -> by (destruct Hx as [->| ->]; done).
    done.
  - assert (bool_decide (level x = "error") || bool_decide (level x = "critical") = false)
      as ->.
    { apply orb_false_iff. split; apply bool_decide_eq_false; tauto. }
    done.
Qed.

Lemma getErrorRate64_unfold (l : list LevelStat) :
  getErrorRate l
  = if ltb (of_Z 0) (Nsum (map count l))
    then mul (div (Nsum (map count (filter error_level l))) (Nsum (map count l))) (of_Z 100)
    else of_Z 0.
Proof. unfold getErrorRate. by rewrite getErrorRate64_fold. Qed.

(** C7, as the code computes it: [getErrorRate] is [(errors / total) * 100]
    evaluated in doubles, the quotient rounded and then the product, where
    [errors] is the sum of the counts of the levels [error] and [critical]
    and [total] the sum of all counts; it is 0 when the total is not
    above 0, in particular on the empty list. Both sums are added up in
    doubles; with non-negative counts whose total is below [2^53] they are
    the integer sums. On info 80, error 15, critical 5 the result is
    exactly 20. *)
Theorem getErrorRate_error_share (statsByLevel : list LevelStat) :
  let total := Nsum (map count statsByLevel) in
  let errors := Nsum (map count (filter error_level statsByLevel)) in
  getErrorRate statsByLevel
  = (if ltb (of_Z 0) total then mul (div errors total) (of_Z 100) else of_Z 0)
  ∧ (Forall (λ stat, 0 ≤ count stat) statsByLevel →
     Zsum (map count statsByLevel) < 2 ^ 53 →
     let T := Zsum (map count statsByLevel) in
     let E := Zsum (map count (filter error_level statsByLevel)) in
     total = of_Z T
     ∧ errors = of_Z E
     ∧ (T ≠ 0 → getErrorRate statsByLevel = mul (div (of_Z E) (of_Z T)) (of_Z 100))
     ∧ (T = 0 → getErrorRate statsByLevel = of_Z 0))
  ∧ getErrorRate [] = of_Z 0
  ∧ getErrorRate [ {| level := "info"; level_count := 80 |};
                   {| level := "error"; level_count := 15 |};
                   {| level := "critical"; level_count := 5 |} ] = of_Z 20.
Proof.
  intros total errors. split; [apply getErrorRate64_unfold|].
  split; [|split; [done|by vm_compute]].
  intros Hpos Hsafe T E.
  assert (0 ≤ T) as HT by (apply Zsum_nonneg, Forall_map; exact Hpos).
  pose proof (StatsBounds.Zsum_filter_le error_level statsByLevel Hpos) as [HE0 HE1].
  fold E T in HE0, HE1.
  assert (total = of_Z T) as Htotal.
  { apply Nsum_of_Z; [by apply Forall_map | done]. }
  assert (errors = of_Z E) as Herrors.
  { apply Nsum_of_Z; [|fold E; lia].
    apply Forall_map, Forall_forall. intros x Hx.
    apply list_elem_of_filter in Hx as [_ Hx].
    rewrite Forall_forall in Hpos. by apply Hpos. }
  split; [done|]. split; [done|].
  rewrite getErrorRate64_unfold. fold total errors.
  rewrite Htotal, Herrors, ltb_zero_of_Z by lia.
  split.
  - intros Hne. by rewrite (proj2 (Z.ltb_lt 0 T)) by lia.
  - intros Hz. by rewrite Hz.
Qed.

Lemma getErrorRate_error_share_witness :
  getErrorRate seven_of_hundred = mul (div (of_Z 7) (of_Z 100)) (of_Z 100).
Proof.
  refine (proj1 (proj2 (proj2
            (proj1 (proj2 (getErrorRate_error_share seven_of_hundred)) _ _))) _).
  - repeat (constructor; [done|]). constructor.
  - by vm_compute.
  - by vm_compute.
Defined.

(** In doubles 7 / 100 * 100 is not 7: the quotient 0.07 is rounded up, and
    the product is the double after 7. The sum of the error counts over the
    total, times 100, is 7. *)
Lemma getErrorRate_seven_of_hundred :
  getErrorRate seven_of_hundred = decimal 7000000000000001 15
  ∧ getErrorRate seven_of_hundred ≠ of_Z 7
  ∧ ltb (of_Z 7) (getErrorRate seven_of_hundred) = true
  ∧ (inject_Z (Zsum (map count (filter error_level seven_of_hundred)))
     / inject_Z (Zsum (map count seven_of_hundred)) * 100 == 7)%Q.
Proof.
  split; [by vm_compute|]. split; [by vm_compute|]. split; by vm_compute.
Qed.

(** One error in three logs gives 33.33333333333333, and the double
    nearest to a third of 100 is 33.333333333333336. *)
Example getErrorRate_one_of_three :
  getErrorRate [ {| level := "error"; level_count := 1 |};
                 {| level := "info"; level_count := 2 |} ]
  = decimal 3333333333333333 14
  ∧ div (of_Z 100) (of_Z 3) = decimal 33333333333333336 15
  ∧ decimal 3333333333333333 14 ≠ decimal 33333333333333336 15.
Proof. split; [by vm_compute|]. split; by vm_compute. Qed.

(** ** [getPeakDay] and [getMostFrequentLevel] *)

Lemma round2_zero : round2 (of_Z 0) = of_Z 0.
Proof. by vm_compute. Qed.

(** C8, as the code computes it: on a non-empty array [getPeakDay] and
    [getMostFrequentLevel] return the entry with the greatest count, the
    first such entry in the order of the array when several share it; both
    are functions of the array alone, so the same array always gives the
    same entry. On an empty array both return [null]. The percentage of
    [getMostFrequentLevel] is [Math.round(p * 100) / 100] for
    [p = (count / total) * 100], every operation in doubles, and 0 when the
    total is not above 0; with non-negative counts whose total is below
    [2^53] the total is the integer sum. *)
Theorem peak_and_most_frequent_first_max :
  getPeakDay [] = None
  ∧ getMostFrequentLevel [] = None
  ∧ (∀ dailyStats : list DailyStat, dailyStats ≠ [] →
       ∃ m, getPeakDay dailyStats = Some m ∧ first_max m dailyStats)
  ∧ (∀ statsByLevel : list LevelStat, statsByLevel ≠ [] →
       ∃ m r, getMostFrequentLevel statsByLevel = Some r
              ∧ first_max m statsByLevel
              ∧ mf_level r = level m
              ∧ mf_count r = count m
              ∧ (let total := Nsum (map count statsByLevel) in
                 let p := if ltb (of_Z 0) total
                          then mul (div (of_Z (count m)) total) (of_Z 100)
                          else of_Z 0 in
                 percentage r = div (Math_round (mul p (of_Z 100))) (of_Z 100))
              ∧ (Forall (λ stat, 0 ≤ count stat) statsByLevel →
                 Zsum (map count statsByLevel) < 2 ^ 53 →
                 let T := Zsum (map count statsByLevel) in
                 (0 < T →
                    percentage r
                    = div (Math_round
                             (mul (mul (div (of_Z (count m)) (of_Z T)) (of_Z 100))
                                  (of_Z 100)))
                          (of_Z 100))
                 ∧ (T = 0 → percentage r = of_Z 0))).
Proof.
  split; [done|]. split; [done|]. split.
  - intros [|first rest] Hne; [done|].
    eexists. split; [reflexivity|]. apply reduce1_keep_max_first_max.
  - intros [|first rest] Hne; [done|].
    unfold getMostFrequentLevel. rewrite sum_counts_Nsum.
    eexists (reduce1 keep_max first rest), _. split; [reflexivity|].
    cbn [mf_level mf_count percentage].
    split; [apply reduce1_keep_max_first_max|]. split; [done|]. split; [done|].
    split; [done|].
    intros Hpos Hsafe. set (T := Zsum (map count (first :: rest))) in *.
    assert (0 ≤ T) as HT by (apply Zsum_nonneg, Forall_map; exact Hpos).
    rewrite Nsum_of_Z by (by apply Forall_map || done). fold T.
    rewrite ltb_zero_of_Z by lia.
    split.
    + intros HT0. by rewrite (proj2 (Z.ltb_lt 0 T)) by lia.
    + intros ->. apply round2_zero.
Qed.

Lemma peak_and_most_frequent_first_max_witness :
  (∃ m, getPeakDay [ {| date := "2024-03-01"; day_count := 5 |};
                     {| date := "2024-03-02"; day_count := 9 |};
                     {| date := "2024-03-03"; day_count := 9 |} ] = Some m
        ∧ first_max m [ {| date := "2024-03-01"; day_count := 5 |};
                        {| date := "2024-03-02"; day_count := 9 |};
                        {| date := "2024-03-03"; day_count := 9 |} ])
  ∧ (∃ m r, getMostFrequentLevel [ {| level := "info"; level_count := 7 |};
                                   {| level := "error"; level_count := 7 |} ] = Some r
            ∧ first_max m [ {| level := "info"; level_count := 7 |};
                            {| level := "error"; level_count := 7 |} ]
            ∧ mf_level r = level m).
Proof.
  destruct peak_and_most_frequent_first_max as (_ & _ & Hpeak & Hfreq).
  split.
  - apply Hpeak. discriminate.
  - destruct (Hfreq [ {| level := "info"; level_count := 7 |};
                      {| level := "error"; level_count := 7 |} ])
      as (m & r & Hr & Hm & Hl & _); [discriminate|].
    by exists m, r.
Defined.

(** 87 of 160 logs are 54.375 %, which rounds to 54.38; the code returns
    54.37, because in doubles [87 / 160 * 100] is just below 54.375. *)
Lemma getMostFrequentLevel_87_of_160 :
  ∃ r, getMostFrequentLevel info_87_error_73 = Some r
       ∧ mf_level r = "info" ∧ mf_count r = 87
       ∧ percentage r = decimal 5437 2
       ∧ percentage r ≠ decimal 5438 2
       ∧ (inject_Z 87 / inject_Z (Zsum (map count info_87_error_73)) * 100
          == 54375 # 1000)%Q
       ∧ Qfloor ((54375 # 1000) * 100 + (1 # 2)) = 5438.
Proof.
  eexists. split; [reflexivity|]. cbn [mf_level mf_count percentage].
  split; [done|]. split; [done|]. split; [by vm_compute|]. split; [by vm_compute|].
  split; by vm_compute.
Qed.

(** ** [getAverageLogsPerDay] *)


(** [Math.round(x * 100) / 100] stays between the integers that [x] lies
    between. *)
Lemma round2_between64 (x : number) (lo hi : Z) :
  0 ≤ lo → hi * 100 < 2 ^ 53 → between x lo hi → between (round2 x) lo hi.
Proof.
  intros Hlo Hhi Hx. unfold round2.
  assert (hi < 2 ^ 53) as Hhi' by lia.
  apply div_between; [done|done|done|].
  apply Math_round_between; [lia|done|].
  by apply mul_between.
Qed.

(** A share of a total, as a percentage. *)
Lemma share_between (part total : Z) :
  0 ≤ part ≤ total → 0 < total < 2 ^ 53 →
  between (mul (div (of_Z part) (of_Z total)) (of_Z 100)) 0 100.
Proof.
  intros Hpart Htotal.
  apply (mul_between _ 100 0 1); [done|done|done|].
  apply div_between; [done|done|done|].
  apply (between_weaken _ part part); [|lia|lia]. apply between_of_Z. lia.
Qed.



(** ** [getTrend] *)

(** [Math.abs(change) > 20], then [change > 0], is [change > 20] or
    [change < -20]. *)
Lemma classify_change64 (c : number) :
  let t := if ltb (of_Z 20) (Math_abs c)
           then (if ltb (of_Z 0) c then increasing else decreasing)
           else stable in
  (ltb (of_Z 20) c = true → t = increasing)
  ∧ (ltb c (of_Z (-20)) = true → t = decreasing)
  ∧ (ltb (of_Z 20) c = false → ltb c (of_Z (-20)) = false → t = stable).
Proof.
  change (of_Z 20) with (S754_finite false 5629499534213120 (-48)).
  change (of_Z (-20)) with (S754_finite true 5629499534213120 (-48)).
  change (of_Z 0) with (S754_zero false).
  destruct c as [s|s| |s m e].
  - destruct s; vm_compute; repeat split; congruence.
  - destruct s; vm_compute; repeat split; congruence.
  - vm_compute; repeat split; congruence.
  - destruct s; unfold ltb, SFltb, Math_abs, SFabs, SFcompare; cbv beta iota.
    + rewrite (Z.compare_antisym e (-48)).
      rewrite (Pos.compare_cont_antisym m 5629499534213120 Eq). cbn [CompOpp].
      destruct (e ?= -48); cbn [CompOpp];
        try destruct (Pos.compare_cont Eq 5629499534213120 m);
        repeat split; congruence.
    + destruct (-48 ?= e); try destruct (Pos.compare_cont Eq 5629499534213120 m);
        repeat split; congruence.
Qed.

(** [getTrend] on 14 entries or more. *)
Lemma getTrend_long (time : string → Z) (dailyStats : list DailyStat) :
  (14 ≤ length dailyStats)%nat →
  let sorted := Array_sort (λ a b, time (date b) - time (date a)) dailyStats in
  let lastWeek := Nsum (map count (take 7 sorted)) in
  let previousWeek := Nsum (map count (take 7 (drop 7 sorted))) in
  let c := if ltb (of_Z 0) previousWeek
           then mul (div (sub lastWeek previousWeek) previousWeek) (of_Z 100)
           else of_Z 0 in
  getTrend time dailyStats
  = {| trend := if ltb (of_Z 20) (Math_abs c)
                then (if ltb (of_Z 0) c then increasing else decreasing)
                else stable;
       change := round2 c;
       last_week := lastWeek;
       previous_week := previousWeek |}.
Proof.
  intros Hlong sorted lastWeek previousWeek c.
  unfold getTrend. rewrite bool_decide_eq_false_2 by lia.
  fold sorted. unfold slice. rewrite !sum_counts_Nsum.
  change (14 - 7)%nat with 7%nat. change (7 - 0)%nat with 7%nat.
  by change (drop 0 sorted) with sorted.
Qed.

(** With non-negative counts whose total is below [2^53], the sums of the
    two weeks and their difference are computed without error. *)
Lemma weeks_of_Z (time : string → Z) (dailyStats : list DailyStat) :
  Forall (λ day, 0 ≤ count day) dailyStats →
  Zsum (map count dailyStats) < 2 ^ 53 →
  let sorted := Array_sort (λ a b, time (date b) - time (date a)) dailyStats in
  let lw := Zsum (map count (take 7 sorted)) in
  let pw := Zsum (map count (take 7 (drop 7 sorted))) in
  0 ≤ lw ∧ 0 ≤ pw ∧ lw + pw < 2 ^ 53
  ∧ Nsum (map count (take 7 sorted)) = of_Z lw
  ∧ Nsum (map count (take 7 (drop 7 sorted))) = of_Z pw
  ∧ sub (of_Z lw) (of_Z pw) = of_Z (lw - pw).
Proof.
  intros Hpos Hsafe sorted lw pw.
  assert (Forall (λ day : DailyStat, 0 ≤ count day) sorted) as Hsorted.
  { unfold sorted. by rewrite Array_sort_Permutation. }
  assert (Zsum (map count sorted) = Zsum (map count dailyStats)) as Htotal.
  { apply Zsum_Permutation, fmap_Permutation, Array_sort_Permutation. }
  destruct (Zsum_take_drop 7 sorted Hsorted) as (Hlw & Hrest & Hsplit).
  destruct (Zsum_take_drop 7 (drop 7 sorted)) as (Hpw & Hnn & Hsplit2);
    [by apply Forall_drop|].
  fold lw in Hlw, Hsplit. fold pw in Hpw, Hsplit2.
  split; [done|]. split; [done|]. split; [lia|].
  split; [|split].
  - apply Nsum_of_Z; [|fold lw; lia]. apply Forall_map. by apply Forall_take.
  - apply Nsum_of_Z; [|fold pw; lia].
    apply Forall_map. by apply Forall_take, Forall_drop.
  - apply sub_of_Z; lia.
Qed.

(** C6, as the code computes it: on fewer than 14 daily entries, whatever
    their values, [getTrend] returns [insufficient_data] with [change],
    [last_week] and [previous_week] all 0. On 14 entries or more the
    entries are sorted by date, most recent first; [last_week] is the sum
    of the first 7 counts and [previous_week] the sum of counts 8 to 14;
    the change [c] is [(last_week - previous_week) / previous_week * 100],
    every operation in doubles, when [previous_week > 0], and 0 otherwise.
    The trend is decided on [c] as it is before rounding: [increasing] when
    [c > 20], [decreasing] when [c < -20], [stable] otherwise. The change
    returned is [Math.round(c * 100) / 100], in doubles. With non-negative
    counts whose total is below [2^53] the two sums and their difference
    are the integer ones. With 140 against 100 the change is 40 and the
    trend [increasing]. *)
Theorem getTrend_week_over_week (time : string → Z) (dailyStats : list DailyStat) :
  ((length dailyStats < 14)%nat →
     getTrend time dailyStats
     = {| trend := insufficient_data; change := of_Z 0;
          last_week := of_Z 0; previous_week := of_Z 0 |})
  ∧ ((14 ≤ length dailyStats)%nat →
     let sorted := Array_sort (λ a b, time (date b) - time (date a)) dailyStats in
     let lastWeek := Nsum (map count (take 7 sorted)) in
     let previousWeek := Nsum (map count (take 7 (drop 7 sorted))) in
     let c := if ltb (of_Z 0) previousWeek
              then mul (div (sub lastWeek previousWeek) previousWeek) (of_Z 100)
              else of_Z 0 in
     let r := getTrend time dailyStats in
     sorted ≡ₚ dailyStats
     ∧ StronglySorted (newer_first time) sorted
     ∧ last_week r = lastWeek
     ∧ previous_week r = previousWeek
     ∧ change r = div (Math_round (mul c (of_Z 100))) (of_Z 100)
     ∧ (ltb (of_Z 20) c = true → trend r = increasing)
     ∧ (ltb c (of_Z (-20)) = true → trend r = decreasing)
     ∧ (ltb (of_Z 20) c = false → ltb c (of_Z (-20)) = false → trend r = stable)
     ∧ (Forall (λ day, 0 ≤ count day) dailyStats →
        Zsum (map count dailyStats) < 2 ^ 53 →
        let lw := Zsum (map count (take 7 sorted)) in
        let pw := Zsum (map count (take 7 (drop 7 sorted))) in
        lastWeek = of_Z lw
        ∧ previousWeek = of_Z pw
        ∧ c = if decide (0 < pw)
              then mul (div (of_Z (lw - pw)) (of_Z pw)) (of_Z 100)
              else of_Z 0))
  ∧ (let r := getTrend iso_date_time two_weeks in
     last_week r = of_Z 140 ∧ previous_week r = of_Z 100
     ∧ change r = of_Z 40 ∧ trend r = increasing).
Proof.
  split; [|split].
  - intros Hshort. unfold getTrend. by rewrite bool_decide_eq_true_2.
  - intros Hlong sorted lastWeek previousWeek c r.
    split; [apply Array_sort_Permutation|].
    split; [apply Array_sort_newer_first|].
    subst r. rewrite (getTrend_long time dailyStats Hlong).
    fold sorted lastWeek previousWeek c. cbn [last_week previous_week change trend].
    split; [done|]. split; [done|]. split; [done|].
    pose proof (classify_change64 c) as (Hup & Hdown & Hflat).
    split; [exact Hup|]. split; [exact Hdown|]. split; [exact Hflat|].
    intros Hpos Hsafe.
    destruct (weeks_of_Z time dailyStats Hpos Hsafe)
      as (Hlw & Hpw & Hsum & Hlast & Hprev & Hsub).
    fold sorted in Hlw, Hpw, Hsum, Hlast, Hprev, Hsub.
    fold lastWeek in Hlast. fold previousWeek in Hprev.
    set (lw := Zsum (map count (take 7 sorted))) in *.
    set (pw := Zsum (map count (take 7 (drop 7 sorted)))) in *.
    split; [done|]. split; [done|].
    subst c. rewrite Hlast, Hprev, ltb_zero_of_Z, Hsub by lia.
    destruct (decide (0 < pw)) as [Hp|Hp].
    + by rewrite (proj2 (Z.ltb_lt _ _) Hp).
    + by rewrite (proj2 (Z.ltb_ge _ _)) by lia.
  - by vm_compute.
Qed.

Lemma getTrend_week_over_week_witness :
  getTrend iso_date_time (take 13 two_weeks)
  = {| trend := insufficient_data; change := of_Z 0;
       last_week := of_Z 0; previous_week := of_Z 0 |}
  ∧ Array_sort (λ a b, iso_date_time (date b) - iso_date_time (date a)) two_weeks
    ≡ₚ two_weeks
  ∧ last_week (getTrend iso_date_time two_weeks)
    = Nsum (map count
         (take 7 (Array_sort (λ a b, iso_date_time (date b) - iso_date_time (date a))
                    two_weeks)))
  ∧ trend (getTrend iso_date_time two_weeks) = increasing.
Proof.
  split.
  - apply (proj1 (getTrend_week_over_week iso_date_time (take 13 two_weeks))).
    simpl. lia.
  - destruct (proj1 (proj2 (getTrend_week_over_week iso_date_time two_weeks)))
      as (Hperm & _ & Hlast & _ & _ & Hup & _).
    + simpl. lia.
    + split; [exact Hperm|]. split; [exact Hlast|]. apply Hup. by vm_compute.
Defined.

(** Where the returned change and the trend part from what the exact
    formula and the rounded change would give. 30001 against 25000 is a
    change of 20.004: it is returned as 20, which is not above 20, with the
    trend [increasing]. 183 against 160 is a change of 14.375, which rounds
    to 14.38: the code returns 14.37, because in doubles
    [23 / 160 * 100] is just below 14.375. *)
Lemma getTrend_change_and_trend_part :
  (let r := getTrend iso_date_time just_above_twenty in
   change r = of_Z 20
   ∧ ltb (of_Z 20) (change r) = false
   ∧ ltb (change r) (of_Z (-20)) = false
   ∧ trend r = increasing)
  ∧ (let r := getTrend iso_date_time week_183_160 in
     last_week r = of_Z 183
     ∧ previous_week r = of_Z 160
     ∧ change r = decimal 1437 2
     ∧ change r ≠ decimal 1438 2
     ∧ (inject_Z (183 - 160) / inject_Z 160 * 100 == 14375 # 1000)%Q
     ∧ Qfloor ((14375 # 1000) * 100 + (1 # 2)) = 1438).
Proof.
  split.
  - by vm_compute.
  - split; [by vm_compute|]. split; [by vm_compute|]. split; [by vm_compute|].
    split; [by vm_compute|]. split; by vm_compute.
Qed.

(** ** Ranges, in doubles *)

(** X24: in doubles as in exact arithmetic, with non-negative counts
    whose total is below [2^53] the error rate is a percentage: a number
    whose value lies between 0 and 100. *)
Theorem getErrorRate_is_percentage_in_doubles (statsByLevel : list LevelStat) :
  Forall (λ stat, 0 ≤ count stat) statsByLevel →
  Zsum (map count statsByLevel) < 2 ^ 53 →
  between (getErrorRate statsByLevel) 0 100
  ∧ ∃ q, value (getErrorRate statsByLevel) = Some q ∧ (0 <= q)%Q ∧ (q <= 100)%Q.
Proof.
  intros Hpos Hsafe.
  assert (between (getErrorRate statsByLevel) 0 100) as Hb.
  { assert (0 ≤ Zsum (map count statsByLevel)) as HT
      by (apply Zsum_nonneg, Forall_map; exact Hpos).
    pose proof (StatsBounds.Zsum_filter_le error_level statsByLevel Hpos) as [HE0 HE1].
    rewrite getErrorRate64_unfold.
    rewrite (Nsum_of_Z (map count statsByLevel)) by (by apply Forall_map || done).
    rewrite (Nsum_of_Z (map count (filter error_level statsByLevel))).
    - rewrite ltb_zero_of_Z by lia.
      destruct (Z.ltb_spec 0 (Zsum (map count statsByLevel))) as [Hp|Hp]; [|done].
      apply share_between; lia.
    - apply Forall_map, Forall_forall. intros x Hx.
      apply list_elem_of_filter in Hx as [_ Hx].
      rewrite Forall_forall in Hpos. by apply Hpos.
    - lia. }
  split; [exact Hb|]. by apply between_value in Hb.
Qed.

Lemma getErrorRate_is_percentage_in_doubles_witness :
  between (getErrorRate seven_of_hundred) 0 100.
Proof.
  refine (proj1 (getErrorRate_is_percentage_in_doubles seven_of_hundred _ _)).
  - repeat (constructor; [done|]). constructor.
  - by vm_compute.
Defined.

(** X25: in doubles as in exact arithmetic, with non-negative counts
    whose total is below [2^53] the percentage reported for the most
    frequent level is a number whose value lies between 0 and 100. *)
Theorem getMostFrequentLevel_percentage_range_in_doubles
    (statsByLevel : list LevelStat) (r : MostFrequent) :
  Forall (λ stat, 0 ≤ count stat) statsByLevel →
  Zsum (map count statsByLevel) < 2 ^ 53 →
  getMostFrequentLevel statsByLevel = Some r →
  between (percentage r) 0 100
  ∧ ∃ q, value (percentage r) = Some q ∧ (0 <= q)%Q ∧ (q <= 100)%Q.
Proof.
  intros Hpos Hsafe Hr.
  assert (between (percentage r) 0 100) as Hb.
  { destruct statsByLevel as [|first rest]; [done|].
    unfold getMostFrequentLevel in Hr. injection Hr as <-. cbn [percentage].
    pose proof (reduce1_keep_max_first_max first rest) as Hfirst.
    apply first_max_is_max in Hfirst as [Hin Hmax].
    set (m := reduce1 keep_max first rest) in *.
    assert (0 ≤ count m) as Hm0.
    { rewrite Forall_forall in Hpos. by apply (Hpos m). }
    assert (count m ≤ Zsum (map count (first :: rest))) as Hm1.
    { clear -Hin Hpos. induction Hpos as [|x l Hx Hl IH]; [by apply elem_of_nil in Hin|].
      simpl. pose proof (Zsum_nonneg (map count l)) as Hsum.
      apply elem_of_cons in Hin as [->|Hin].
      - assert (0 ≤ Zsum (map count l)); [|lia]. apply Hsum, Forall_map. exact Hl.
      - specialize (IH Hin). lia. }
    rewrite sum_counts_of_Z, ltb_zero_of_Z by (done || lia).
    apply round2_between64; [done|done|].
    destruct (Z.ltb_spec 0 (Zsum (map count (first :: rest)))) as [Hp|Hp]; [|done].
    apply share_between; lia. }
  split; [exact Hb|]. by apply between_value in Hb.
Qed.

Lemma getMostFrequentLevel_percentage_range_in_doubles_witness :
  ∃ r, getMostFrequentLevel info_87_error_73 = Some r ∧ between (percentage r) 0 100.
Proof.
  eexists. split; [reflexivity|].
  refine (proj1 (getMostFrequentLevel_percentage_range_in_doubles
                   info_87_error_73 _ _ _ eq_refl)).
  - repeat (constructor; [done|]). constructor.
  - by vm_compute.
Defined.

(** ** The direction of the trend and the order of arrival, in doubles *)

(** X22: in doubles as in exact arithmetic, the trend points the way the
    counts went. On 14 entries or more with non-negative counts whose
    total is below [2^53], the two sums returned are the integer sums; the
    trend is [increasing] only when the last week has more logs than the
    week before, [decreasing] only when it has fewer; and when the week
    before has no logs, or as many as the last week, the trend is [stable]
    with change 0. *)
Theorem getTrend_direction_in_doubles (time : string → Z) (dailyStats : list DailyStat) :
  (14 ≤ length dailyStats)%nat →
  Forall (λ day, 0 ≤ count day) dailyStats →
  Zsum (map count dailyStats) < 2 ^ 53 →
  let sorted := Array_sort (λ a b, time (date b) - time (date a)) dailyStats in
  let lw := Zsum (map count (take 7 sorted)) in
  let pw := Zsum (map count (take 7 (drop 7 sorted))) in
  let r := getTrend time dailyStats in
  last_week r = of_Z lw
  ∧ previous_week r = of_Z pw
  ∧ (trend r = increasing → 0 < pw < lw)
  ∧ (trend r = decreasing → 0 < pw ∧ lw < pw)
  ∧ (pw = 0 ∨ lw = pw → trend r = stable ∧ change r = of_Z 0).
Proof.
  intros Hlong Hpos Hsafe sorted lw pw r.
  destruct (weeks_of_Z time dailyStats Hpos Hsafe)
    as (Hlw & Hpw & Hsum & Hlast & Hprev & Hsub).
  fold sorted in Hlw, Hpw, Hsum, Hlast, Hprev, Hsub.
  fold lw in Hlw, Hsum, Hlast, Hsub. fold pw in Hpw, Hsum, Hprev, Hsub.
  subst r. rewrite (getTrend_long time dailyStats Hlong). fold sorted.
  cbn [last_week previous_week change trend].
  rewrite Hlast, Hprev, ltb_zero_of_Z, Hsub by lia.
  split; [done|]. split; [done|].
  assert (positive_finite (of_Z 100)) as H100 by done.
  assert (positive_finite (of_Z 20)) as H20 by done.
  destruct (0 <? pw) eqn:Hp.
  - apply Z.ltb_lt in Hp.
    assert (positive_finite (of_Z pw)) as Hpwf by (apply of_Z_positive_finite; lia).
    set (c := mul (div (of_Z (lw - pw)) (of_Z pw)) (of_Z 100)).
    destruct (Z.lt_trichotomy lw pw) as [Hlt|[Heq|Hgt]].
    + assert (negative_or_NaN c) as Hc.
      { apply mul_negative; [|done]. apply div_negative; [|done].
        apply of_Z_negative. lia. }
      rewrite (negative_or_NaN_ltb c Hc).
      split; [by destruct (ltb (of_Z 20) (Math_abs c))|].
      split; [done|]. intros [?|?]; lia.
    + assert (c = of_Z 0) as ->.
      { unfold c. rewrite Heq, Z.sub_diag.
        destruct (of_Z pw) as [[]|[]| |[] m e]; done. }
      split; [done|]. split; [done|]. intros _. split; [done|]. apply round2_zero.
    + assert (non_negative c) as Hc.
      { apply mul_non_negative; [|done]. apply div_non_negative; [|done].
        apply of_Z_non_negative. lia. }
      destruct (non_negative_ltb c (of_Z 20) Hc) as [_ Habove].
      destruct (ltb (of_Z 20) (Math_abs c)) eqn:Habs.
      * rewrite (Habove H20 eq_refl).
        split; [intros _; lia|]. split; [done|]. intros [?|?]; lia.
      * split; [done|]. split; [done|]. intros [?|?]; lia.
  - apply Z.ltb_ge in Hp.
    split; [done|]. split; [done|]. intros _. split; [done|]. apply round2_zero.
Qed.

Lemma getTrend_direction_in_doubles_witness :
  previous_week (getTrend iso_date_time two_weeks) = of_Z 100
  ∧ (trend (getTrend iso_date_time two_weeks) = increasing → 100 < 140).
Proof.
  destruct (getTrend_direction_in_doubles iso_date_time two_weeks)
    as (_ & Hprev & Hup & _).
  - simpl. lia.
  - repeat (constructor; [done|]). constructor.
  - by vm_compute.
  - split; [exact Hprev|]. intros Hinc. exact (proj2 (Hup Hinc)).
Defined.

(** X23: in doubles as in exact arithmetic, when no two entries bear the
    same date the order in which the daily entries arrive does not matter:
    any rearrangement of the series gives the same trend analysis, to the
    last bit. *)
Theorem getTrend_order_of_arrival_in_doubles
    (time : string → Z) (dailyStats arrived : list DailyStat) :
  NoDup (map (λ day, time (date day)) dailyStats) →
  dailyStats ≡ₚ arrived →
  getTrend time arrived = getTrend time dailyStats.
Proof.
  intros Hnd Hperm. unfold getTrend.
  rewrite <- (Permutation_length Hperm).
  by rewrite (StatsBounds.Array_sort_order_of_arrival time dailyStats arrived Hnd Hperm).
Qed.

Lemma getTrend_order_of_arrival_in_doubles_witness :
  getTrend iso_date_time (reverse two_weeks) = getTrend iso_date_time two_weeks.
Proof.
  apply getTrend_order_of_arrival_in_doubles.
  - apply (bool_decide_unpack _). vm_compute. exact I.
  - symmetry. apply reverse_Permutation.
Defined.

End Stats64Facts.

(* ===================================================================== *)
(** * The client: requests and errors *)
(* ===================================================================== *)

Module ClientFacts.
Import Client.

Lemma _validateLogData_throws_ValidationError (v : bool) (d : LogData) (e : CheckLogsError) :
  _validateLogData v d = Some e → ∃ msg, e = ValidationError msg.
Proof.
  unfold _validateLogData. destruct (negb v); [done|].
  repeat (case_decide || case_match); intros [= <-]; by eexists.
Qed.

Lemma levels_info : "info" ∈ levels.
Proof. apply list_elem_of_here. Qed.

(** X6: with payload validation on, every request [log] posts carries a
    non-empty message of at most 1024 characters, one of the five levels,
    and a source, if any, of at most 100 characters. *)
Theorem posted_request_is_valid (d : LogData) (r : Request) :
  posts true d = Some r →
  req_message r ≠ ""
  ∧ (String.length (req_message r) ≤ 1024)%nat
  ∧ req_level r ∈ levels
  ∧ ∀ s, req_source r = Some s → s ≠ "" ∧ (String.length s ≤ 100)%nat.
Proof.
  unfold posts, _validateLogData. cbn [negb].
  destruct (decide (message d = "")) as [|Hmsg]; [done|].
  destruct (decide (1024 < Z.of_nat (String.length (message d)))) as [|Hlen]; [done|].
  destruct (truthy_and (str_or (level d) None) _) eqn:Hlevel; [done|].
  destruct (truthy_and (str_or (source d) None) _) eqn:Hsource; [done|].
  intros [= <-]. unfold body. cbn [req_message req_level req_source].
  split; [done|]. split; [lia|]. split.
  - destruct (str_or (level d) None) as [l|]; simpl in *; [|apply levels_info].
    apply negb_false_iff in Hlevel. by apply bool_decide_eq_true in Hlevel.
  - intros s Hs. rewrite Hs in Hsource. simpl in Hsource.
    apply bool_decide_eq_false in Hsource. split; [|lia].
    unfold str_or in Hs. destruct (source d) as [x|]; [|done].
    case_decide; [done|]. by injection Hs as <-.
Qed.

Lemma posted_request_is_valid_witness :
  req_level (body db_down) ∈ levels.
Proof.
  refine (proj1 (proj2 (proj2 (posted_request_is_valid db_down (body db_down) _)))).
  reflexivity.
Defined.

(** X7: the error [log] throws tells whether a request was made. A
    [ValidationError] means none was. Otherwise the request was posted,
    and the error is an [ApiError] with the status of the response and a
    non-empty message when there was a response, a [NetworkError] when
    there was none; it is the error [createErrorFromAxios] builds. *)
Theorem log_error_tells_what_happened
    (v : bool) (d : LogData) (http : AxiosOutcome) (e : CheckLogsError) :
  log v d http = Throw e →
  ((∃ msg, e = ValidationError msg) ∧ posts v d = None)
  ∨ (posts v d = Some (body d)
     ∧ e = Errors.createErrorFromAxios http
     ∧ match http with
       | Resolved _ => False
       | RejectedResponse status _ _ _ =>
           ∃ msg c, e = ApiError msg status c ∧ msg ≠ ""
       | _ => ∃ msg, e = NetworkError msg
       end).
Proof.
  unfold log, posts.
  destruct (_validateLogData v d) as [err|] eqn:Hvalid.
  - intros [= <-]. left. split; [|done].
    by apply (_validateLogData_throws_ValidationError v d).
  - intros Hthrow. right. split; [done|].
    destruct http as [data|status em m c| |]; [done|..]; injection Hthrow as <-;
      (split; [reflexivity|]); simpl.
    + eexists _, _. split; [reflexivity|].
      unfold str_or. destruct em as [x|]; [case_decide|];
        try (destruct m as [y|]; [case_decide|]); done.
    + by eexists.
    + by eexists.
Qed.

Lemma log_error_tells_what_happened_witness :
  posts true db_down = Some (body db_down)
  ∧ log true db_down (RejectedResponse 503 None None None)
    = Throw (ApiError "API request failed" 503 None).
Proof.
  destruct (log_error_tells_what_happened true db_down (RejectedResponse 503 None None None)
              (ApiError "API request failed" 503 None)) as [[[msg Hmsg] _]|(Hposts & _)].
  - reflexivity.
  - discriminate Hmsg.
  - split; [exact Hposts | reflexivity].
Defined.

(** X8: the tests on the [ApiError] built from a response with status
    [status]. It is a server error exactly for 500 to 599 and a client
    error exactly for 400 to 499, never both; 401 is an authentication
    error and 429 a rate limit error, and both are client errors; an error
    that is both an authentication error and a server error owes it to its
    code [INVALID_API_KEY]. *)
Theorem ApiError_tests (status : Z) (em m c : option string) :
  let e := Errors.createErrorFromAxios (RejectedResponse status em m c) in
  (Errors.isServerError e = Some true ↔ 500 ≤ status < 600)
  ∧ (Errors.isClientError e = Some true ↔ 400 ≤ status < 500)
  ∧ ¬ (Errors.isServerError e = Some true ∧ Errors.isClientError e = Some true)
  ∧ (status = 401 → Errors.isAuthError e = Some true ∧ Errors.isClientError e = Some true)
  ∧ (status = 429 →
     Errors.isRateLimitError e = Some true ∧ Errors.isClientError e = Some true)
  ∧ (Errors.isAuthError e = Some true → Errors.isServerError e = Some true →
     c = Some "INVALID_API_KEY").
Proof.
  cbn [Errors.createErrorFromAxios Errors.isServerError Errors.isClientError
       Errors.isAuthError Errors.isRateLimitError Errors.code].
  split; [|split; [|split; [|split; [|split]]]].
  - split.
    + intros [= H]. apply andb_true_iff in H as [H1 H2].
      apply Z.leb_le in H1. apply Z.ltb_lt in H2. lia.
    + intros [H1 H2]. f_equal. apply andb_true_iff.
      split; [by apply Z.leb_le | by apply Z.ltb_lt].
  - split.
    + intros [= H]. apply andb_true_iff in H as [H1 H2].
      apply Z.leb_le in H1. apply Z.ltb_lt in H2. lia.
    + intros [H1 H2]. f_equal. apply andb_true_iff.
      split; [by apply Z.leb_le | by apply Z.ltb_lt].
  - intros [[= H] [= H']]. apply andb_true_iff in H as [H1 _], H' as [_ H2].
    apply Z.leb_le in H1. apply Z.ltb_lt in H2. lia.
  - intros ->. done.
  - intros ->. done.
  - intros [= Hauth] [= Hserver]. apply andb_true_iff in Hserver as [H1 _].
    apply Z.leb_le in H1. apply orb_true_iff in Hauth as [Hs|Hc].
    + apply bool_decide_eq_true in Hs. lia.
    + apply bool_decide_eq_true in Hc. unfold str_or in Hc.
      destruct c as [x|]; [|done]. by case_decide.
Qed.

Lemma ApiError_tests_witness :
  Errors.isAuthError (Errors.createErrorFromAxios (RejectedResponse 401 None None None))
  = Some true.
Proof.
  refine (proj1 (proj1 (proj2 (proj2 (proj2 (ApiError_tests 401 None None None)))) _)).
  reflexivity.
Defined.

(** ** [getLogs] *)

Ltac no_such_param H :=
  repeat case_match;
  first [ by apply elem_of_nil in H
        | apply list_elem_of_singleton in H; discriminate H ].

(** X9: whatever the options, the limit that [getLogs] sends is the
    limit given or 1000, whichever is less, and the offset the offset given
    or 0, whichever is greater, each written by [Number.prototype.toString];
    so it asks for at most 1000 logs and never for a negative offset. A
    limit or an offset that is given is always sent. Each parameter occurs
    at most once, in the order limit, offset, level, since, until; and
    [getLogs] never throws a [ValidationError]. *)
Theorem getLogs_query_is_bounded
    (toString : Z → string) (options : GetLogsOptions) (http : AxiosOutcome) :
  let '(url, r) := getLogs toString options http in
  url_base url = baseURL
  ∧ map fst (url_query url) `sublist_of` ["limit"; "offset"; "level"; "since"; "until"]
  ∧ (∀ v, ("limit", v) ∈ url_query url →
          ∃ l n, limit options = Some l ∧ n = Z.min l 1000 ∧ v = toString n ∧ n ≤ 1000)
  ∧ (∀ v, ("offset", v) ∈ url_query url →
          ∃ o n, offset options = Some o ∧ n = Z.max o 0 ∧ v = toString n ∧ 0 ≤ n)
  ∧ (∀ l, limit options = Some l → ("limit", toString (Z.min l 1000)) ∈ url_query url)
  ∧ (∀ o, offset options = Some o → ("offset", toString (Z.max o 0)) ∈ url_query url)
  ∧ (∀ msg, r ≠ Throw (ValidationError msg)).
Proof.
  cbn [getLogs getLogs_url url_base url_query].
  split; [done|]. split; [|split; [|split; [|split; [|split]]]].
  - unfold getLogs_params.
    destruct (limit options), (offset options), (str_or (only_level options) None),
      (str_or (since options) None), (str_or (until options) None); simpl;
      repeat first [ apply sublist_nil | apply sublist_skip | apply sublist_cons ].
  - intros v Hin. unfold getLogs_params in Hin. rewrite !elem_of_app in Hin.
    destruct Hin as [H|[H|[H|[H|H]]]]; [|no_such_param H..].
    destruct (limit options) as [l|]; [|by apply elem_of_nil in H].
    apply list_elem_of_singleton in H. injection H as ->.
    exists l, (Z.min l 1000). split; [done|]. split; [done|]. split; [done|lia].
  - intros v Hin. unfold getLogs_params in Hin. rewrite !elem_of_app in Hin.
    destruct Hin as [H|[H|[H|[H|H]]]]; [no_such_param H| |no_such_param H..].
    destruct (offset options) as [o|]; [|by apply elem_of_nil in H].
    apply list_elem_of_singleton in H. injection H as ->.
    exists o, (Z.max o 0). split; [done|]. split; [done|]. split; [done|lia].
  - intros l Hl. unfold getLogs_params. rewrite Hl.
    apply elem_of_app. left. apply list_elem_of_here.
  - intros o Ho. unfold getLogs_params. rewrite Ho.
    apply elem_of_app. right. apply elem_of_app. left. apply list_elem_of_here.
  - intros msg. by destruct http.
Qed.

(** An unbounded request is cut down to 1000, and a negative limit is
    passed on as it is. The integers are small: [toString] writes them in
    decimal digits. *)
Example getLogs_limits :
  url_query (getLogs_url pretty
               {| limit := Some 5000; offset := Some (-3); only_level := Some "";
                  since := None; until := None |})
  = [("limit", "1000"); ("offset", "0")]
  ∧ url_query (getLogs_url pretty
                 {| limit := Some (-5); offset := None; only_level := None;
                    since := None; until := None |})
    = [("limit", "-5")].
Proof. vm_compute. done. Qed.

(** An offset of [10^21] is sent as it is, in whatever way the platform
    writes it. *)
Example getLogs_large_offset (toString : Z → string) :
  url_query (getLogs_url toString
               {| limit := None; offset := Some (10 ^ 21); only_level := None;
                  since := None; until := None |})
  = [("offset", toString (10 ^ 21))].
Proof. reflexivity. Qed.

End ClientFacts.

(* ===================================================================== *)
(** * The logger: what a call does and does not do *)
(* ===================================================================== *)

Module LoggerCalls.
Import Logger LoggerFacts.

Lemma same_settings_refl (a : Logger) : same_settings a a.
Proof. by repeat split. Qed.

Lemma same_settings_set_retryQueue (q : list RetryItem) (a : Logger) :
  same_settings (set_retryQueue q a) a.
Proof. by repeat split. Qed.

Lemma _addToRetryQueue_settings (lg : Logger) (now : Z) (d : LogData) (rc : nat) :
  same_settings (_addToRetryQueue lg now d rc) lg.
Proof.
  unfold _addToRetryQueue. destruct (List.find _ _).
  - apply same_settings_refl.
  - apply same_settings_set_retryQueue.
Qed.

Lemma log_settle_settings (w : World) (d : LogData) (rc : nat) (r : result val) :
  same_settings (this (fst (log_settle w d rc r))) (this w).
Proof.
  destruct r as [res|err].
  - rewrite log_settle_Return. case_bool_decide; simpl.
    + apply same_settings_set_retryQueue.
    + apply same_settings_refl.
  - rewrite log_settle_Throw_this. case_bool_decide.
    + apply _addToRetryQueue_settings.
    + apply same_settings_refl.
Qed.

Lemma log_settings (rt : Runtime) (w : World) (d : LogData) (rc : nat) (http : AxiosOutcome) :
  same_settings (this (fst (log rt w d rc http))) (this w).
Proof.
  unfold log. destruct (log_begin rt w d) as [[w1 e]|] eqn:Hbegin.
  - destruct (log_begin_frame _ _ _ _ _ Hbegin) as (Hthis & _).
    rewrite <- Hthis. apply log_settle_settings.
  - apply same_settings_refl.
Qed.

Lemma level_or_info_nonempty (d : LogData) : level_or_info d ≠ "".
Proof.
  unfold level_or_info, str_or. destruct (level d) as [l|]; [|done].
  by case_decide.
Qed.

(** X10: a call of [log] whose level is enabled resolves to what the
    client's [log] resolves to and throws what it throws, whatever the
    retry count and whatever the queue holds: retrying changes nothing in
    what the caller sees. *)
Theorem log_returns_client_outcome
    (rt : Runtime) (w : World) (d : LogData) (rc : nat) (http : AxiosOutcome) (ctx : loc) :
  level_or_info d ∈ enabledLevels (this w) →
  snd (log rt w d rc http)
  = match Client.log (validatePayload (this w)) (enhance (this w) d ctx) http with
    | Return data => Return (Response data)
    | Throw e => Throw e
    end.
Proof.
  intros Hon. destruct (log_enabled rt w d rc http Hon) as (w1 & ctx0 & _ & ->).
  rewrite log_settle_snd. reflexivity.
Qed.

Lemma log_returns_client_outcome_witness :
  snd (log sample_rt sample_world db_down 7 (RejectedResponse 503 None None None))
  = Throw (ApiError "API request failed" 503 None).
Proof.
  rewrite (log_returns_client_outcome sample_rt sample_world db_down 7
             (RejectedResponse 503 None None None) 1%positive).
  - reflexivity.
  - apply (bool_decide_unpack _). vm_compute. exact I.
Defined.

(** X11: a call of [log] never touches an item that is already queued: the
    queue afterwards is the queue as it was, or the queue without the
    items of the record's key, or the queue with one item added at the
    end for a key it did not hold. So the retry count and the time shown
    for a pending item never change while it is queued. *)
Theorem log_keeps_queued_items
    (rt : Runtime) (w : World) (d : LogData) (rc : nat) (http : AxiosOutcome) :
  let q := retryQueue (this w) in
  let q' := retryQueue (this (fst (log rt w d rc http))) in
  q' = q
  ∨ q' = filter (λ item, key (logData item) ≠ key d) q
  ∨ ((key d ∉ keys q)
     ∧ q' = q ++ [ {| logData := d; retryCount := rc + 1; addedAt := clock w |} ]).
Proof.
  intros q q'. subst q q'. unfold log.
  destruct (log_begin rt w d) as [[w1 e]|] eqn:Hbegin; [|by left].
  destruct (log_begin_frame _ _ _ _ _ Hbegin) as (Hthis & _ & Hclock & _).
  destruct (Client.log _ _ _) as [res|err].
  - rewrite log_settle_Return. case_bool_decide; simpl.
    + right. left. rewrite Hthis. apply _removeFromRetryQueue_filter.
    + left. by rewrite Hthis.
  - rewrite log_settle_Throw_this, Hthis, Hclock. case_bool_decide; [|by left].
    destruct (decide (key d ∈ keys (retryQueue (this w)))) as [Hin|Hout].
    + left. by rewrite _addToRetryQueue_present.
    + right. right. split; [done|]. by apply _addToRetryQueue_absent.
Qed.

(** X12: a call of [log] posts no request when the level is not enabled
    or validation fails, and exactly one otherwise: the list of requests
    posted is unchanged in the first two cases, and only in them; in every
    other case one request is added, which carries the record's message,
    its level or [info], and the record's source or else the logger's
    default source. *)
Theorem log_posts_at_most_once
    (rt : Runtime) (w : World) (d : LogData) (rc : nat) (http : AxiosOutcome) :
  let w' := fst (log rt w d rc http) in
  (posted w' = posted w
   ∧ (level_or_info d ∉ enabledLevels (this w)
      ∨ ∃ msg, snd (log rt w d rc http) = Throw (ValidationError msg)))
  ∨ (∃ r, posted w' = posted w ++ [r]
          ∧ level_or_info d ∈ enabledLevels (this w)
          ∧ (∀ msg, snd (log rt w d rc http) ≠ Throw (ValidationError msg))
          ∧ req_message r = message d
          ∧ req_level r = level_or_info d
          ∧ req_source r = str_or (str_or (source d) (defaultSource (this w))) None).
Proof.
  intros w'. subst w'.
  destruct (decide (level_or_info d ∈ enabledLevels (this w))) as [Hon|Hoff].
  - destruct (log_enabled rt w d rc http Hon) as (w1 & ctx & Hbegin & ->).
    rewrite log_settle_posted, log_settle_snd.
    destruct (log_begin_frame _ _ _ _ _ Hbegin) as (_ & _ & _ & _ & _ & _ & ->).
    unfold Client.posts, Client.log.
    destruct (Client._validateLogData _ _) as [err|] eqn:Hvalid.
    + left. split; [by rewrite app_nil_r|]. right.
      destruct (ClientFacts._validateLogData_throws_ValidationError _ _ _ Hvalid)
        as [msg ->]. by exists msg.
    + right. eexists. split; [reflexivity|]. split; [done|].
      split; [intros msg; by destruct http|].
      cbn. split; [done|]. split; [|done].
      case_decide as Hl; [by apply level_or_info_nonempty in Hl | done].
  - left. unfold log. rewrite (proj2 (log_begin_None rt w d) Hoff). split; [done|by left].
Qed.

(** ** Retries come to an end *)

Lemma log_timers_cases (rt : Runtime) (w : World) (d : LogData) (rc : nat)
    (http : AxiosOutcome) :
  timers (fst (log rt w d rc http)) = timers w
  ∨ ((rc < maxRetries (this w))%nat
     ∧ timers (fst (log rt w d rc http))
       = timers w ++ [retry_timer (this w) (clock w) d rc]).
Proof.
  unfold log. destruct (log_begin rt w d) as [[w1 e]|] eqn:Hbegin; [|by left].
  destruct (log_begin_frame _ _ _ _ _ Hbegin) as (Hthis & Htimers & Hclock & _).
  destruct (Client.log _ _ _) as [res|err].
  - left. rewrite log_settle_Return. by case_bool_decide.
  - rewrite log_settle_Throw_timers, Hthis, Htimers, Hclock.
    case_bool_decide; [by right | by left].
Qed.

Lemma log_posted_length (rt : Runtime) (w : World) (d : LogData) (rc : nat)
    (http : AxiosOutcome) :
  (length (posted (fst (log rt w d rc http))) ≤ length (posted w) + 1)%nat.
Proof.
  unfold log. destruct (log_begin rt w d) as [[w1 e]|] eqn:Hbegin; [|simpl; lia].
  destruct (log_begin_frame _ _ _ _ _ Hbegin) as (_ & _ & _ & _ & _ & _ & Hposted).
  rewrite log_settle_posted, Hposted, length_app.
  destruct (Client.posts _ _); simpl; lia.
Qed.

Lemma fire_single (rt : Runtime) (w : World) (t : Timer) (http : AxiosOutcome) :
  timers w = [t] →
  ∃ w', fire_next rt w http = Some w'
        ∧ maxRetries (this w') = maxRetries (this w)
        ∧ (length (posted w') ≤ length (posted w) + 1)%nat
        ∧ (timers w' = []
           ∨ ((timer_retryCount t < maxRetries (this w))%nat
              ∧ ∃ t', timers w' = [t']
                      ∧ timer_retryCount t' = (timer_retryCount t + 1)%nat)).
Proof.
  intros Ht. unfold fire_next. rewrite Ht. cbn [next_timer].
  set (w1 := set_clock _ _). eexists. split; [reflexivity|].
  pose proof (log_settings rt w1 (timer_logData t) (timer_retryCount t) http) as Hset.
  destruct Hset as (_ & _ & _ & _ & _ & _ & _ & _ & _ & _ & _ & Hmax & _).
  split; [exact Hmax|].
  split; [apply (log_posted_length rt w1)|].
  destruct (log_timers_cases rt w1 (timer_logData t) (timer_retryCount t) http)
    as [->|[Hrc ->]].
  - by left.
  - right. split; [exact Hrc|]. by eexists.
Qed.

Lemma drain_single (rt : Runtime) (n : nat) (http : nat → AxiosOutcome) (k : nat) (w : World) :
  (timers w = []
   ∨ ∃ t, timers w = [t]
          ∧ (timer_retryCount t ≤ maxRetries (this w) < timer_retryCount t + n)%nat) →
  timers (drain rt n http k w) = []
  ∧ (length (posted (drain rt n http k w)) ≤ length (posted w) + n)%nat.
Proof.
  revert k w. induction n as [|n IH]; intros k w Hinv.
  - destruct Hinv as [Hnil|(t & _ & Hrc)]; [|lia]. simpl. split; [done|lia].
  - destruct Hinv as [Hnil|(t & Ht & Hrc)].
    + simpl. unfold fire_next. rewrite Hnil. simpl. split; [done|lia].
    + destruct (fire_single rt w t (http k) Ht) as (w' & Hfire & Hmax & Hposted & Hnext).
      simpl. rewrite Hfire.
      destruct (IH (S k) w') as [Hdone Hcount].
      { destruct Hnext as [Hnil|(Hlt & t' & Ht' & Hrc')]; [by left|].
        right. exists t'. split; [done|]. rewrite Hmax, Hrc'. lia. }
      split; [done|lia].
Qed.

(** X13: retries come to an end. From a logger with no retry pending, a
    call of [log] is followed by at most [maxRetries] retries, whatever
    the outcome of each request: once that many timers have fired none is
    left, and at most [maxRetries + 1] requests have been posted. *)
Theorem retries_come_to_an_end
    (rt : Runtime) (w : World) (d : LogData) (http0 : AxiosOutcome)
    (http : nat → AxiosOutcome) :
  timers w = [] →
  let w' := drain rt (maxRetries (this w)) http 0 (fst (log rt w d 0 http0)) in
  timers w' = []
  ∧ (length (posted w') ≤ length (posted w) + maxRetries (this w) + 1)%nat.
Proof.
  intros Hnone w'. subst w'.
  pose proof (log_settings rt w d 0 http0) as Hset.
  destruct Hset as (_ & _ & _ & _ & _ & _ & _ & _ & _ & _ & _ & Hmax & _).
  pose proof (log_posted_length rt w d 0 http0) as Hposted.
  destruct (drain_single rt (maxRetries (this w)) http 0 (fst (log rt w d 0 http0)))
    as [Hdone Hcount].
  - destruct (log_timers_cases rt w d 0 http0) as [->|[Hrc ->]]; [by left|].
    right. rewrite Hnone. eexists. split; [reflexivity|]. rewrite Hmax. simpl. lia.
  - split; [done|lia].
Qed.

Lemma retries_come_to_an_end_witness :
  timers (drain sample_rt 3 (λ _, RejectedSetup) 0
            (fst (log sample_rt sample_world db_down 0 RejectedRequest))) = [].
Proof.
  refine (proj1 (retries_come_to_an_end sample_rt sample_world db_down RejectedRequest
                   (λ _, RejectedSetup) _)).
  reflexivity.
Defined.

(** ** Clearing the queue *)

(** X14: [clearRetryQueue] empties the queue and cancels nothing: the
    retries already scheduled stay scheduled, and the first of them that
    fires and fails, with retries left, puts its record back in the
    queue. *)
Theorem clearRetryQueue_cancels_no_retry
    (rt : Runtime) (w : World) (t : Timer) (rest : list Timer) (http : AxiosOutcome) :
  next_timer (timers w) = Some (t, rest) →
  level_or_info (timer_logData t) ∈ enabledLevels (this w) →
  (timer_retryCount t < maxRetries (this w))%nat →
  (∀ data, http ≠ Resolved data) →
  let cleared := set_this (clearRetryQueue (this w)) w in
  retryQueue (this cleared) = []
  ∧ timers cleared = timers w
  ∧ ∃ w', fire_next rt cleared http = Some w'
          ∧ keys (retryQueue (this w')) = [key (timer_logData t)].
Proof.
  intros Hnext Hon Hrc Hrej cleared. subst cleared.
  split; [done|]. split; [done|].
  unfold fire_next. cbn [timers set_this]. rewrite Hnext.
  eexists. split; [reflexivity|].
  set (w1 := set_clock _ _).
  destruct (log_enabled rt w1 (timer_logData t) (timer_retryCount t) http Hon)
    as (w2 & ctx & Hbegin & ->).
  destruct (log_begin_frame _ _ _ _ _ Hbegin) as (Hthis & _).
  destruct (Client_log_rejected (validatePayload (this w1))
              (enhance (this w1) (timer_logData t) ctx) http Hrej) as [err ->].
  rewrite log_settle_Throw_this, Hthis.
  rewrite bool_decide_eq_true_2 by exact Hrc.
  rewrite _addToRetryQueue_keys. rewrite decide_False; [done|].
  simpl. apply not_elem_of_nil.
Qed.

Lemma clearRetryQueue_cancels_no_retry_witness :
  let w := fst (log sample_rt sample_world db_down 0 RejectedRequest) in
  ∃ w', fire_next sample_rt (set_this (clearRetryQueue (this w)) w) RejectedRequest = Some w'
        ∧ keys (retryQueue (this w')) = [key db_down].
Proof.
  intros w.
  refine (proj2 (proj2 (clearRetryQueue_cancels_no_retry sample_rt w
                          (retry_timer sample_logger 0 db_down 0) [] RejectedRequest
                          _ _ _ _))).
  - reflexivity.
  - apply (bool_decide_unpack _). vm_compute. exact I.
  - vm_compute. lia.
  - discriminate.
Defined.

(** ** Console output *)

Lemma log_console_cases (rt : Runtime) (w : World) (d : LogData) (rc : nat)
    (http : AxiosOutcome) :
  level_or_info d ∈ enabledLevels (this w) →
  ∃ ctx,
    console (fst (log rt w d rc http))
    = console w
      ++ _consoleLog rt (this w) (clock w) (level_or_info d) (message d) ctx
      ++ match snd (log rt w d rc http) with
         | Throw e =>
             if silent (this w) then []
             else [ {| method := console_error;
                       text := "Failed to send log to CheckLogs (attempt "
                               +:+ pretty (rc + 1)%nat +:+ "):";
                       arg := VStr (error_message e) |} ]
         | Return _ => []
         end.
Proof.
  intros Hon. unfold log, log_begin.
  rewrite bool_decide_eq_true_2 by done. cbn [negb].
  destruct (_buildContext rt (this w) (store w) (clock w) (context d)) as [ctx h].
  exists ctx. destruct (Client.log _ _ _) as [res|err].
  - rewrite log_settle_Return. cbn. case_bool_decide; cbn; by rewrite app_nil_r.
  - unfold log_settle. cbn. case_bool_decide; cbn.
    + pose proof (_addToRetryQueue_settings (this w) (clock w) d rc) as Hset.
      destruct Hset as (_ & _ & _ & _ & _ & _ & -> & _).
      destruct (silent (this w)); cbn; by rewrite ?app_nil_r, <- ?app_assoc.
    + destruct (silent (this w)); cbn; by rewrite ?app_nil_r, <- ?app_assoc.
Qed.

(** X15: a silent logger prints nothing, whatever it is asked to log and
    however the request ends. [enableSilent] makes a logger silent, and
    [disableSilent] does not undo it: after [enableSilent] then
    [disableSilent] console output is still off, so the log lines stay
    suppressed and only the failure notices are printed again. *)
Theorem silent_prints_nothing
    (rt : Runtime) (w : World) (d : LogData) (rc : nat) (http : AxiosOutcome) :
  (silent (this w) = true → console (fst (log rt w d rc http)) = console w)
  ∧ silent (enableSilent (this w)) = true
  ∧ (let w1 := set_this (disableSilent (enableSilent (this w))) w in
     consoleOutput (this w1) = false
     ∧ console (fst (log rt w1 d rc http))
       = console w
         ++ match snd (log rt w1 d rc http) with
            | Throw e =>
                [ {| method := console_error;
                     text := "Failed to send log to CheckLogs (attempt "
                             +:+ pretty (rc + 1)%nat +:+ "):";
                     arg := VStr (error_message e) |} ]
            | Return _ => []
            end).
Proof.
  split; [|split; [done|]].
  - intros Hsilent.
    destruct (decide (level_or_info d ∈ enabledLevels (this w))) as [Hon|Hoff].
    + destruct (log_console_cases rt w d rc http Hon) as [ctx ->].
      unfold _consoleLog. rewrite Hsilent, orb_true_r.
      destruct (snd _); by rewrite app_nil_r.
    + unfold log. by rewrite (proj2 (log_begin_None rt w d) Hoff).
  - intros w1. split; [done|].
    destruct (decide (level_or_info d ∈ enabledLevels (this w1))) as [Hon|Hoff].
    + destruct (log_console_cases rt w1 d rc http Hon) as [ctx ->].
      unfold _consoleLog. subst w1. cbn. by destruct (snd _).
    + unfold log. rewrite (proj2 (log_begin_None rt w1 d) Hoff). cbn.
      by rewrite app_nil_r.
Qed.

Lemma silent_prints_nothing_witness :
  console (fst (log sample_rt (set_this (enableSilent sample_logger) sample_world)
                  db_down 0 RejectedRequest)) = [].
Proof.
  refine (proj1 (silent_prints_nothing sample_rt
                   (set_this (enableSilent sample_logger) sample_world)
                   db_down 0 RejectedRequest) _).
  reflexivity.
Defined.

(** After [enableSilent] then [disableSilent]: no log line, the failure
    notice only. *)
Example console_after_silent_round_trip :
  map text (console (fst (log sample_rt
                            (set_this (disableSilent (enableSilent sample_logger))
                               sample_world)
                            db_down 0 RejectedRequest)))
  = ["Failed to send log to CheckLogs (attempt 1):"].
Proof. vm_compute. done. Qed.

End LoggerCalls.

(* ===================================================================== *)
(** * Contexts and children: what is built and what is inherited *)
(* ===================================================================== *)

Module ContextFacts.
Import Logger ChildFacts.

Lemma setprop_at (h : heap) (l : loc) (o : obj) (k : string) (v : val) :
  h !! l = Some o → setprop h l k v !! l = Some (<[k := v]> o).
Proof. intros Hl. unfold setprop. rewrite Hl. apply lookup_insert_eq. Qed.

Lemma spread2_lookup (a b : obj) (k : string) :
  spread2 a b !! k = match b !! k with Some v => Some v | None => a !! k end.
Proof.
  unfold spread2. rewrite lookup_union.
  destruct (b !! k), (a !! k); done.
Qed.

(** X16: [_buildContext] returns a new object and changes no object that
    existed before, so neither the default context nor the caller's. In
    the new object the caller's entries go over the defaults, and the
    metadata go over both: [_process] always, [_timestamp] and [_hostname]
    when they are switched on; when one is switched off, an entry of that
    name given by the caller or the defaults is passed on. *)
Theorem buildContext_layers
    (rt : Runtime) (lg : Logger) (h : heap) (now : Z) (userContext : option loc) :
  let '(ctx, h') := _buildContext rt lg h now userContext in
  let merged k :=
    match props h userContext !! k with
    | Some v => Some v
    | None => props h (Some (defaultContext lg)) !! k
    end in
  (ctx ∉ dom h)
  ∧ (∀ l, l ∈ dom h → h' !! l = h !! l)
  ∧ ∃ o proc,
      h' !! ctx = Some o
      ∧ (proc ∉ dom h) ∧ proc ≠ ctx
      ∧ o !! "_process" = Some (VRef proc)
      ∧ getprop h' proc "pid" = Some (VNum (process_pid rt))
      ∧ o !! "_timestamp"
        = (if includeTimestamp lg then Some (VStr (toISOString rt now))
           else merged "_timestamp")
      ∧ o !! "_hostname"
        = (if includeHostname lg then Some (VStr (hostname lg)) else merged "_hostname")
      ∧ ∀ k, k ≠ "_timestamp" → k ≠ "_hostname" → k ≠ "_process" → o !! k = merged k.
Proof.
  unfold _buildContext, alloc.
  set (m := spread2 (props h (Some (defaultContext lg))) (props h userContext)).
  set (c := fresh (dom h)).
  set (h0 := <[c := m]> h).
  set (o1 := if includeTimestamp lg then <["_timestamp" := VStr (toISOString rt now)]> m
             else m).
  set (h1 := if includeTimestamp lg
             then setprop h0 c "_timestamp" (VStr (toISOString rt now)) else h0).
  set (o2 := if includeHostname lg then <["_hostname" := VStr (hostname lg)]> o1 else o1).
  set (h2 := if includeHostname lg
             then setprop h1 c "_hostname" (VStr (hostname lg)) else h1).
  set (p := fresh (dom h2)).
  set (P := <["pid" := VNum (process_pid rt)]> _).
  assert (c ∉ dom h) as Hc by apply is_fresh.
  assert (h0 !! c = Some m) as H0c by apply lookup_insert_eq.
  assert (∀ l, l ≠ c → h0 !! l = h !! l) as H0o
      by (intros l Hl; by apply lookup_insert_ne).
  assert (h1 !! c = Some o1 ∧ ∀ l, l ≠ c → h1 !! l = h !! l) as [H1c H1o].
  { subst h1 o1. destruct (includeTimestamp lg); [|done]. split.
    - by apply setprop_at.
    - intros l Hl. rewrite setprop_other by done. by apply H0o. }
  assert (h2 !! c = Some o2 ∧ ∀ l, l ≠ c → h2 !! l = h !! l) as [H2c H2o].
  { subst h2 o2. destruct (includeHostname lg); [|done]. split.
    - by apply setprop_at.
    - intros l Hl. rewrite setprop_other by done. by apply H1o. }
  assert (p ∉ dom h2) as Hp2 by apply is_fresh.
  assert (p ≠ c) as Hpc.
  { intros ->. apply Hp2. apply elem_of_dom. by eexists. }
  assert (p ∉ dom h) as Hp.
  { intros Hin. apply Hp2. apply elem_of_dom in Hin as [x Hx].
    apply elem_of_dom. exists x. rewrite H2o; [done|].
    intros ->. apply Hc. apply elem_of_dom. by exists x. }
  assert (<[p := P]> h2 !! c = Some o2) as H3c by (by rewrite lookup_insert_ne).
  split; [done|]. split.
  - intros l Hl.
    assert (l ≠ c) as Hlc by (intros ->; done).
    assert (l ≠ p) as Hlp by (intros ->; done).
    rewrite setprop_other by done. rewrite lookup_insert_ne by done. by apply H2o.
  - exists (<["_process" := VRef p]> o2), p.
    split; [by apply setprop_at|]. split; [done|]. split; [done|].
    split; [apply lookup_insert_eq|]. split.
    { unfold getprop. rewrite setprop_other by done. rewrite lookup_insert_eq.
      simpl. subst P. apply lookup_insert_eq. }
    assert (∀ k, m !! k = match props h userContext !! k with
                          | Some v => Some v
                          | None => props h (Some (defaultContext lg)) !! k
                          end) as Hm by (intros k; apply spread2_lookup).
    split; [|split].
    + rewrite lookup_insert_ne by done. subst o2 o1.
      destruct (includeHostname lg), (includeTimestamp lg);
        rewrite ?(lookup_insert_ne _ "_hostname" "_timestamp") by done;
        rewrite ?lookup_insert_eq; try done; apply Hm.
    + rewrite lookup_insert_ne by done. subst o2 o1.
      destruct (includeHostname lg), (includeTimestamp lg);
        rewrite ?lookup_insert_eq; try done;
        rewrite ?(lookup_insert_ne _ "_timestamp" "_hostname") by done; apply Hm.
    + intros k Hk1 Hk2 Hk3. rewrite lookup_insert_ne by done. subst o2 o1.
      destruct (includeHostname lg), (includeTimestamp lg);
        rewrite ?lookup_insert_ne by done; apply Hm.
Qed.

(** X17: a child takes over the parent's source, user id, silence, console
    output, enabled levels and metadata switches, each unless the
    additional options set it; it does not take over the parent's
    [validatePayload] and [timeout], which fall back to [true] and 5000
    unless the additional options set them; and it starts with an empty
    retry queue of its own. *)
Theorem child_inherits_switches
    (rt : Runtime) (h : heap) (lg : Logger)
    (additionalContext : option loc) (additionalOptions : LoggerOptions) :
  apiKey lg ≠ "" →
  ∃ c h',
    child rt h lg additionalContext additionalOptions = Return (c, h')
    ∧ apiKey c = apiKey lg
    ∧ defaultSource c = str_or (opt_source additionalOptions ∪ defaultSource lg) None
    ∧ defaultUserId c = num_or (opt_user_id additionalOptions ∪ defaultUserId lg) None
    ∧ silent c = default (silent lg) (opt_silent additionalOptions)
    ∧ consoleOutput c = default (consoleOutput lg) (opt_consoleOutput additionalOptions)
    ∧ enabledLevels c = default (enabledLevels lg) (opt_enabledLevels additionalOptions)
    ∧ includeTimestamp c
      = default (includeTimestamp lg) (opt_includeTimestamp additionalOptions)
    ∧ includeHostname c
      = default (includeHostname lg) (opt_includeHostname additionalOptions)
    ∧ validatePayload c = default true (opt_validatePayload additionalOptions)
    ∧ timeout c = default 5000 (num_or (opt_timeout additionalOptions) None)
    ∧ retryQueue c = [].
Proof.
  intros Hkey. unfold child, alloc, constructor. cbn [spread_options
    opt_timeout opt_validatePayload opt_source opt_user_id opt_defaultContext opt_silent
    opt_consoleOutput opt_enabledLevels opt_includeTimestamp opt_includeHostname].
  rewrite decide_False by done.
  destruct (opt_defaultContext additionalOptions ∪ Some (fresh (dom h))) as [l|] eqn:Hctx;
    [|by destruct (opt_defaultContext additionalOptions)].
  eexists _, _. split; [reflexivity|]. cbn.
  destruct additionalOptions as [oto ov ? ? ? os oc ol ot oh]. cbn.
  destruct oto, ov, os, oc, ol, ot, oh; repeat split; done.
Qed.

Lemma child_inherits_switches_witness :
  ∃ c h',
    child sample_rt sample_heap
      (set_retryQueue [ {| logData := db_down; retryCount := 1; addedAt := 0 |} ]
         (setEnabledLevels ["error"] sample_logger))
      None no_options = Return (c, h')
    ∧ enabledLevels c = ["error"] ∧ retryQueue c = [].
Proof.
  destruct (child_inherits_switches sample_rt sample_heap
              (set_retryQueue [ {| logData := db_down; retryCount := 1; addedAt := 0 |} ]
                 (setEnabledLevels ["error"] sample_logger))
              None no_options)
    as (c & h' & Hchild & _ & _ & _ & _ & _ & Hlevels & _ & _ & _ & _ & Hqueue).
  - discriminate.
  - by exists c, h'.
Defined.

End ContextFacts.

(* ===================================================================== *)
(** * [flush] *)
(* ===================================================================== *)

Module FlushFacts.
Import Logger LoggerFacts LoggerCalls.

Lemma flush_loop_terminates (sleep : World → World) (startTime timeout : Z) :
  (∀ w, clock w + 100 ≤ clock (sleep w)) →
  ∀ fuel w,
    timeout - (clock w - startTime) ≤ 100 * Z.of_nat fuel →
    ∃ w' n,
      flush_loop sleep fuel startTime timeout w
      = Some (w', bool_decide (retryQueue (this w') = []))
      ∧ (n ≤ fuel)%nat ∧ w' = Nat.iter n sleep w
      ∧ (retryQueue (this w') ≠ [] → timeout ≤ clock w' - startTime)
      ∧ (retryQueue (this w) = [] → n = 0%nat).
Proof.
  intros Hsleep. induction fuel as [|fuel IH]; intros w Hfuel.
  - exists w, 0%nat. simpl.
    destruct (bool_decide (retryQueue (this w) = [])) eqn:Hq; simpl.
    + apply bool_decide_eq_true in Hq. repeat split; try done; try lia.
    + assert ((clock w - startTime <? timeout) = false) as -> by (apply Z.ltb_ge; lia).
      repeat split; try done; try lia.
  - simpl. destruct (bool_decide (retryQueue (this w) = [])) eqn:Hq; simpl.
    + apply bool_decide_eq_true in Hq. exists w, 0%nat.
      rewrite bool_decide_eq_true_2 by done. repeat split; try done; try lia.
    + apply bool_decide_eq_false in Hq.
      destruct (clock w - startTime <? timeout) eqn:Htime.
      * destruct (IH (sleep w)) as (w' & n & Hloop & Hn & Hw' & Hlate & _).
        { specialize (Hsleep w). lia. }
        exists w', (S n). split; [exact Hloop|]. split; [lia|]. split.
        { rewrite Hw'. symmetry. apply Nat.iter_succ_r. }
        split; [done|]. intros Hempty. done.
      * apply Z.ltb_ge in Htime. exists w, 0%nat.
        rewrite bool_decide_eq_false_2 by done. repeat split; try done; try lia.
Qed.

Lemma flush_loop_more_fuel (sleep : World → World) (startTime timeout : Z)
    (n m : nat) (w : World) (r : World * bool) :
  (n ≤ m)%nat →
  flush_loop sleep n startTime timeout w = Some r →
  flush_loop sleep m startTime timeout w = Some r.
Proof.
  revert m w. induction n as [|n IH]; intros m w Hnm Hloop.
  - simpl in Hloop. destruct m; simpl; [done|].
    by destruct (negb _ && _).
  - destruct m as [|m]; [lia|]. simpl in Hloop |- *.
    destruct (negb _ && _); [|done]. apply IH; [lia|done].
Qed.

(** X18: [flush] ends. If every wait lasts at least 100 ms, it returns
    after at most [timeout / 100], rounded up, waits (none when the queue
    is empty at the start, or the timeout is not positive). It returns
    [true] exactly when the queue is empty at that moment, and when it
    returns [false] at least [timeout] ms have passed. It changes nothing
    itself: the world it leaves is the one the waits made. *)
Theorem flush_ends (sleep : World → World) (timeout : Z) (w : World) (fuel : nat) :
  (∀ w, clock w + 100 ≤ clock (sleep w)) →
  (timeout + 99) / 100 ≤ Z.of_nat fuel →
  ∃ w' n b,
    flush sleep fuel timeout w = Some (w', b)
    ∧ (b = true ↔ retryQueue (this w') = [])
    ∧ w' = Nat.iter n sleep w
    ∧ (Z.of_nat n ≤ Z.max 0 ((timeout + 99) / 100))
    ∧ (b = false → timeout ≤ clock w' - clock w)
    ∧ (retryQueue (this w) = [] → w' = w ∧ b = true).
Proof.
  intros Hsleep Hfuel.
  set (need := Z.to_nat ((timeout + 99) / 100)).
  assert (need ≤ fuel)%nat as Hneed by (subst need; lia).
  assert (timeout ≤ 100 * Z.of_nat need) as Hcover
      by (subst need; Z.to_euclidean_division_equations; lia).
  destruct (flush_loop_terminates sleep (clock w) timeout Hsleep need w)
    as (w' & n & Hloop & Hn & Hw' & Hlate & Hzero).
  { lia. }
  exists w', n, (bool_decide (retryQueue (this w') = [])).
  split; [by apply (flush_loop_more_fuel sleep (clock w) timeout need fuel)|].
  split; [apply bool_decide_eq_true|]. split; [done|].
  split; [subst need; lia|]. split.
  - intros Hb. apply bool_decide_eq_false in Hb. by apply Hlate.
  - intros Hempty. specialize (Hzero Hempty). subst n. simpl in Hw'. subst w'.
    split; [done|]. by apply bool_decide_eq_true.
Qed.

Lemma run_due_clock (rt : Runtime) (fuel : nat) (http : AxiosOutcome) (deadline : Z)
    (w : World) :
  deadline ≤ clock (run_due rt fuel http deadline w).
Proof.
  revert w. induction fuel as [|fuel IH]; intros w; simpl; [lia|].
  destruct (next_timer (timers w)) as [[t rest]|]; [|simpl; lia].
  case_bool_decide; [|simpl; lia].
  destruct (fire_next rt w http) as [w'|]; [apply IH | simpl; lia].
Qed.

Lemma sleep_100_clock (rt : Runtime) (http : AxiosOutcome) (w : World) :
  clock w + 100 ≤ clock (sleep_100 rt http w).
Proof. apply run_due_clock. Qed.

Lemma run_due_keeps_keys (rt : Runtime) (fuel : nat) (http : AxiosOutcome) (deadline : Z)
    (w : World) (k : string * option string) :
  (∀ data, http ≠ Resolved data) →
  k ∈ keys (retryQueue (this w)) →
  k ∈ keys (retryQueue (this (run_due rt fuel http deadline w))).
Proof.
  intros Hrej. revert w. induction fuel as [|fuel IH]; intros w Hk; simpl; [done|].
  destruct (next_timer (timers w)) as [[t rest]|] eqn:Hnext; [|done].
  case_bool_decide; [|done].
  unfold fire_next. rewrite Hnext. apply IH.
  by apply log_rejected_keeps_keys.
Qed.

Lemma iter_sleep_keeps_keys (rt : Runtime) (http : AxiosOutcome) (n : nat) (w : World)
    (k : string * option string) :
  (∀ data, http ≠ Resolved data) →
  k ∈ keys (retryQueue (this w)) →
  k ∈ keys (retryQueue (this (Nat.iter n (sleep_100 rt http) w))).
Proof.
  intros Hrej Hk. induction n as [|n IH]; simpl; [done|].
  by apply run_due_keeps_keys.
Qed.

Lemma flush_ends_witness :
  ∃ w', flush (sleep_100 sample_rt RejectedRequest) 3 250
          (fst (log sample_rt sample_world db_down 0 RejectedRequest)) = Some (w', false).
Proof.
  destruct (flush_ends (sleep_100 sample_rt RejectedRequest) 250
              (fst (log sample_rt sample_world db_down 0 RejectedRequest)) 3)
    as (w' & n & b & Hflush & Hb & Hw' & _).
  - apply sleep_100_clock.
  - vm_compute. discriminate.
  - exists w'. rewrite Hflush. destruct b; [|done]. exfalso.
    destruct Hb as [Hb _]. specialize (Hb eq_refl).
    assert (key db_down ∈ keys (retryQueue (this w'))) as Hin.
    { rewrite Hw'. apply iter_sleep_keeps_keys; [discriminate|].
      vm_compute. apply list_elem_of_here. }
    rewrite Hb in Hin. by apply elem_of_nil in Hin.
Defined.

(** X19: while the transport is down [flush] cannot succeed: if every
    request is rejected while it waits and the queue is not empty when it
    starts, it returns [false], after at least [timeout] ms, and every
    record that was pending is pending still. *)
Theorem flush_fails_while_transport_down
    (rt : Runtime) (http : AxiosOutcome) (timeout : Z) (w : World) (fuel : nat) :
  (∀ data, http ≠ Resolved data) →
  retryQueue (this w) ≠ [] →
  (timeout + 99) / 100 ≤ Z.of_nat fuel →
  ∃ w',
    flush (sleep_100 rt http) fuel timeout w = Some (w', false)
    ∧ timeout ≤ clock w' - clock w
    ∧ ∀ k, k ∈ keys (retryQueue (this w)) → k ∈ keys (retryQueue (this w')).
Proof.
  intros Hrej Hpending Hfuel.
  set (need := Z.to_nat ((timeout + 99) / 100)).
  assert (need ≤ fuel)%nat as Hneed by (subst need; lia).
  assert (timeout ≤ 100 * Z.of_nat need) as Hcover
      by (subst need; Z.to_euclidean_division_equations; lia).
  destruct (flush_loop_terminates (sleep_100 rt http) (clock w) timeout
              (sleep_100_clock rt http) need w)
    as (w' & n & Hloop & _ & Hw' & Hlate & _); [lia|].
  assert (∀ k, k ∈ keys (retryQueue (this w)) → k ∈ keys (retryQueue (this w'))) as Hkeep.
  { intros k Hk. rewrite Hw'. by apply iter_sleep_keeps_keys. }
  assert (retryQueue (this w') ≠ []) as Hstill.
  { destruct (retryQueue (this w)) as [|item q] eqn:Hq; [done|].
    intros Hempty. specialize (Hkeep (key (logData item))).
    rewrite Hempty in Hkeep. eapply elem_of_nil, Hkeep. apply list_elem_of_here. }
  exists w'. split; [|split; [by apply Hlate | done]].
  unfold flush. apply (flush_loop_more_fuel _ _ _ need fuel); [done|].
  by rewrite Hloop, bool_decide_eq_false_2.
Qed.

Lemma flush_fails_while_transport_down_witness :
  ∃ w', flush (sleep_100 sample_rt RejectedSetup) 300 30000
          (fst (log sample_rt sample_world db_down 0 RejectedRequest)) = Some (w', false).
Proof.
  destruct (flush_fails_while_transport_down sample_rt RejectedSetup 30000
              (fst (log sample_rt sample_world db_down 0 RejectedRequest)) 300)
    as (w' & Hflush & _).
  - discriminate.
  - vm_compute. discriminate.
  - vm_compute. discriminate.
  - by exists w'.
Defined.

End FlushFacts.

(* ===================================================================== *)
(** * Convenience methods and timers *)
(* ===================================================================== *)

Module ShortcutFacts.
Import Logger LoggerFacts LoggerCalls.

Lemma log_rejected_keys (rt : Runtime) (w : World) (d : LogData) (http : AxiosOutcome) :
  level_or_info d ∈ enabledLevels (this w) →
  (0 < maxRetries (this w))%nat →
  (∀ data, http ≠ Resolved data) →
  key d ∉ keys (retryQueue (this w)) →
  keys (retryQueue (this (fst (log rt w d 0 http)))) = keys (retryQueue (this w)) ++ [key d].
Proof.
  intros Hon Hmax Hrej Hout.
  destruct (log_enabled rt w d 0 http Hon) as (w1 & ctx & Hbegin & ->).
  destruct (log_begin_frame _ _ _ _ _ Hbegin) as (Hthis & _).
  destruct (Client_log_rejected (validatePayload (this w)) (enhance (this w) d ctx)
              http Hrej) as [err ->].
  rewrite log_settle_Throw_this, Hthis. rewrite bool_decide_eq_true_2 by done.
  rewrite _addToRetryQueue_keys. by rewrite decide_False.
Qed.

(** X20: [info(message)] and [log({ message })] send the same message at
    the same level, [info], but their records have different identity
    keys, because the key is taken from the level as given and not from
    the level that is sent: when both fail, both are queued. *)
Theorem info_and_plain_log_are_two_keys
    (rt : Runtime) (w : World) (msg : string) (http1 http2 : AxiosOutcome) :
  "info" ∈ enabledLevels (this w) →
  (0 < maxRetries (this w))%nat →
  (∀ data, http1 ≠ Resolved data) →
  (∀ data, http2 ≠ Resolved data) →
  (msg, Some "info") ∉ keys (retryQueue (this w)) →
  (msg, None) ∉ keys (retryQueue (this w)) →
  let plain := {| message := msg; level := None; context := None;
                  source := None; user_id := None |} in
  let w1 := fst (info rt w msg None Client.no_overrides http1) in
  let w2 := fst (log rt w1 plain 0 http2) in
  level_or_info (Client.info msg None Client.no_overrides) = level_or_info plain
  ∧ keys (retryQueue (this w2))
    = keys (retryQueue (this w)) ++ [(msg, Some "info"); (msg, None)].
Proof.
  intros Hon Hmax Hrej1 Hrej2 Hout1 Hout2 plain w1 w2. split; [done|].
  subst w2 w1. unfold info, leveled.
  set (d1 := Client.leveled "info" msg None Client.no_overrides).
  pose proof (log_settings rt w d1 0 http1) as Hset.
  destruct Hset as (_ & _ & _ & _ & _ & _ & _ & _ & Hlevels & _ & _ & Hmax1 & _).
  pose proof (log_rejected_keys rt w d1 http1 Hon Hmax Hrej1 Hout1) as Hkeys1.
  rewrite (log_rejected_keys rt _ plain http2).
  - rewrite Hkeys1, <- app_assoc. done.
  - by rewrite Hlevels.
  - by rewrite Hmax1.
  - done.
  - rewrite Hkeys1. intros Hin. apply elem_of_app in Hin as [Hin|Hin]; [done|].
    apply list_elem_of_singleton in Hin. discriminate Hin.
Qed.

Lemma info_and_plain_log_are_two_keys_witness :
  keys (retryQueue (this
          (fst (log sample_rt
                  (fst (info sample_rt sample_world "started" None Client.no_overrides
                          RejectedRequest))
                  started 0 RejectedRequest))))
  = [("started", Some "info"); ("started", None)].
Proof.
  refine (proj2 (info_and_plain_log_are_two_keys sample_rt sample_world "started"
                   RejectedRequest RejectedRequest _ _ _ _ _ _)).
  - apply list_elem_of_here.
  - simpl. lia.
  - discriminate.
  - discriminate.
  - apply not_elem_of_nil.
  - apply not_elem_of_nil.
Defined.

(** ** [time] *)





(** The duration is returned when the sends go through as well. *)
Example timer_duration_on_success :
  snd (time_end sample_rt
         (set_clock 40
            (fst (time sample_rt sample_world "checkout" "pay" None "info"
                    (Resolved (VStr "ok")))))
         0 "checkout" "pay" None "info" (Resolved (VStr "ok")))
  = 40.
Proof. by vm_compute. Qed.

End ShortcutFacts.
